(** * sentinel-2-albedo: per-pixel narrow-to-broadband albedo conversion

    A shallow embedding of [CalculateAlbedo]
    (albedo/CalculateAlbedo.c) together with the properties of its
    five stages: coefficient selection, BRDF class resolution, the
    narrow-band loop, the QA classification and the broadband
    aggregation with its Lambertian rescue.

    Number model.  C [double] values are rationals ([Q]).  Sums and
    products are exact: one run of the code evaluates the same
    expressions in the same order as the embedding, so equal inputs
    give syntactically equal results.  The two quotients by the scale
    factor (lines 207-208) are the one place where the code converts
    a rounded [double] to an integer, and there the rounding decides
    the integer; these quotients are computed in IEEE binary64, with
    its rounding to nearest, ties to even, its subnormal numbers and
    its infinities ([quot]).  NaN does not arise, and the one zero of
    [Q] is the positive zero.  C [int] and [int16] values are integers
    ([Z]); a conversion from [double] to [int16] whose truncated value
    does not fit is undefined behaviour and is reported as such. *)

From Stdlib Require Import ZArith QArith Qround Qpower List Lia Lqa Bool.
Import ListNotations.
Local Open Scope Z_scope.

(** ** Numbers *)

Definition Qlt_bool (x y : Q) : bool := negb (Qle_bool y x).

(** C conversion of a [double] to an integer type truncates toward zero. *)
Definition Qtrunc (q : Q) : Z :=
  if Qle_bool 0 q then Qfloor q else Qceiling q.

Definition INT16_MIN : Z := -32768.
Definition INT16_MAX : Z := 32767.

(** [(int16) q]: defined only when the truncated value is representable. *)
Definition cast_int16 (q : Q) : option Z :=
  let z := Qtrunc q in
  if (INT16_MIN <=? z) && (z <=? INT16_MAX) then Some z else None.

(** *** Binary64 *)

Definition pow2 (k : Z) : Q := (2 ^ k)%Q.

(** For [0 < x], the exponent [e] with [2^e <= x < 2^(e+1)]. *)
Definition ilog2 (x : Q) : Z :=
  let e := Z.log2 (Qnum x) - Z.log2 (Z.pos (Qden x)) in
  if Qle_bool (pow2 e) x then e else e - 1.

(** The nearest integer, the even one of two that are equally near. *)
Definition rne (m : Q) : Z :=
  let f := Qfloor m in
  match (m - inject_Z f ?= 1 # 2)%Q with
  | Lt => f
  | Gt => f + 1
  | Eq => if Z.even f then f else f + 1
  end.

(** The exponent of the binade of [x]; the subnormal numbers share
    the exponent -1022. *)
Definition bexp (x : Q) : Z := Z.max (ilog2 x) (-1022).

(** [0 < x] rounded to 53 significant bits, or to a multiple of
    [2^-1074] below [2^-1022]. *)
Definition round_pos (x : Q) : Q :=
  let u := pow2 (bexp x - 52) in
  (inject_Z (rne (x / u)) * u)%Q.

(** Rounding to nearest, ties to even, with no bound on the exponent
    from above. *)
Definition round64 (x : Q) : Q :=
  match (x ?= 0)%Q with
  | Eq => 0%Q
  | Gt => round_pos x
  | Lt => (- round_pos (- x))%Q
  end.

(** A [double] that is not a NaN: a finite value or an infinity with
    its sign. *)
Inductive double : Type := Finite (q : Q) | Inf (neg : bool).

(** The [double] nearest to [x]; a rounded value of [2^1024] or more
    overflows to an infinity. *)
Definition to_double (x : Q) : double :=
  let y := round64 x in
  if Qle_bool (pow2 1024) y then Inf false
  else if Qle_bool y (- pow2 1024) then Inf true
  else Finite y.

(** [num / sf] as the code computes it, for a literal [num] above
    zero: the literal and the scale factor are read as the doubles
    nearest to them (a scale factor that is a double is read as it
    is), and the quotient of the two is rounded once.  A divisor that
    is zero gives an infinity, negative when the divisor stands for a
    negative number too small to be told from zero; an infinite
    divisor gives zero. *)
Definition quot (num sf : Q) : double :=
  match to_double sf with
  | Inf _ => Finite 0
  | Finite d =>
    if Qeq_bool d 0 then Inf (Qlt_bool sf 0)
    else to_double (round64 num / d)
  end.

(** [(double) r >= num / sf] for an integer [r]. *)
Definition ge_quot (r : Z) (num sf : Q) : bool :=
  match quot num sf with
  | Finite q => Qle_bool q (inject_Z r)
  | Inf neg => neg
  end.

(** [(int16) d] for a [double]: an infinity does not fit. *)
Definition cast_int16_double (d : double) : option Z :=
  match d with
  | Finite q => cast_int16 q
  | Inf _ => None
  end.

(** ** Arrays *)

(** Arrays reached through the sensor context or through a caller's
    pointer have no extent visible in this file: they are total maps
    from indices. *)
Definition upd {A} (f : Z -> A) (i : Z) (v : A) : Z -> A :=
  fun j => if j =? i then v else f j.

(** [a[i]] read from an array. *)
Definition slot {A} (f : Z -> A) (i : Z) : A := f i.

Definition upd2 {A} (f : Z -> Z -> A) (i j : Z) (v : A) : Z -> Z -> A :=
  fun i' j' => if (i' =? i) && (j' =? j) then v else f i' j'.

(** A local array of known length: reading outside it is undefined. *)
Definition local_at {A} (l : list A) (i : Z) : option A :=
  if i <? 0 then None else nth_error l (Z.to_nat i).

(** ** The sensor context *)

(** Modelled from the spec: [DIS_LANDSAT] is declared in
    [lndsr_albedo.h], which is not among the sources.  The record has
    the fields [CalculateAlbedo] reads or writes, with the types its
    uses of them imply: the reflectance raster holds [int16] values (it
    is cast to [double] and printed with [%d]), the BRDF parameters are
    real-valued (0.5 is added before the cast to [int16]), the purity
    counts are compared with a product of two constants. *)
Record DIS_LANDSAT := mkSensor {
  instrument    : Z;               (* sensor->scene.instrument *)
  nbands        : Z;
  lndSR_ScaFct  : Q;
  SR_fillValue  : Z;
  Cls_fillValue : Z;
  actu_ncls     : Z;
  Clsdata       : Z -> Z;          (* class raster of the current row *)
  pure_thrsh    : Z -> Q;          (* purity count per class *)
  BRDF_paras    : Z -> Z -> Z -> Q;  (* [class][band][kernel weight] *)
  OneRowlndSR   : Z -> Z -> Z;     (* [band][column], int16 *)
  SZA : Q; SAA : Q; pix_VZA : Q; pix_VAA : Q
}.

Definition set_OneRowlndSR (s : DIS_LANDSAT) (r : Z -> Z -> Z) : DIS_LANDSAT :=
  mkSensor (instrument s) (nbands s) (lndSR_ScaFct s) (SR_fillValue s)
           (Cls_fillValue s) (actu_ncls s) (Clsdata s) (pure_thrsh s)
           (BRDF_paras s) r (SZA s) (SAA s) (pix_VZA s) (pix_VAA s).

(** What [lndsr_albedo.h] declares and this file uses: the instrument
    codes, the status codes, the purity constants and the two
    collaborators.  [CalculateANratio] returns its status together
    with the two ratios it stores through its out-parameters, white-sky
    first. *)
Class lndsr_albedo_h := {
  _OLI_ : Z;
  MSI : Z;
  SUCCESS : Z;
  FAILURE : Z;
  PUREPIX_thredhold : Q;
  HIS_BIN : Q;
  getClosestCls : DIS_LANDSAT -> Z -> Z -> Z;
  CalculateANratio : Z * Z * Z -> Q -> Q -> Q -> Q -> Z * Q * Q
}.

(** ** Machine state *)

(** What the caller can observe: the sensor context, the output vector
    and the cell behind the [QA] pointer. *)
Record machine := mkMachine {
  sensor       : DIS_LANDSAT;
  lndPixAlbedo : Z -> Q;
  QA           : Z
}.

(** The six tallies [tmpQA[0..5]]. *)
Record tally := mkTally {
  tmpQA0 : Z; tmpQA1 : Z; tmpQA2 : Z; tmpQA3 : Z; tmpQA4 : Z; tmpQA5 : Z
}.

Record locals := mkLocals {
  tmpQA      : tally;
  lndSR_flag : Z
}.

Inductive outcome :=
| Return (ret : Z) (m : machine)      (* the function returned [ret] *)
| Exit (status : Z) (m : machine)     (* [exit (status)] *)
| Undefined.                          (* undefined behaviour *)

Inductive step :=
| Next (m : machine) (l : locals)
| Stop (o : outcome).

(** ** Coefficient tables *)

Definition TMBandIndx : list Z := [2; 3; 0; 1; 5; 6].

Definition ETM_coefficents_sw : list Q :=
  [0.3141; 0.000; 0.1607; 0.3694; 0.1160; 0.0456; -0.0057]%Q.
Definition ETM_coefficents_vis : list Q :=
  [0.5610; 0.2404; 0.2012; 0.000; 0.000; 0.000; -0.0026]%Q.
Definition ETM_coefficents_nir : list Q :=
  [0.000; 0.000; 0.000; 0.6668; 0.2861; 0.0572; -0.0042]%Q.

Definition _TM_coefficents_sw : list Q :=
  [0.3206; 0.000; 0.1572; 0.3666; 0.1162; 0.0457; -0.0063]%Q.
Definition TM_coefficents_vis : list Q :=
  [0.6000; 0.2204; 0.1828; 0.000; 0.000; 0.000; -0.0033]%Q.
Definition TM_coefficents_nir : list Q :=
  [0.000; 0.000; 0.000; 0.6646; 0.2859; 0.0566; -0.0037]%Q.

Definition LC8_n2b_lib : list Q :=
  [0.2453421; 0.050843; 0.1803945; 0.3080635; 0.1331847; 0.0521349;
   0.0011052]%Q.
Definition LC8_n2b_lib_snow : list Q :=
  [1.22416; -0.431845; -0.3446429; 0.3367926; 0.1834496; 0.2554519;
   -0.0052154]%Q.

Definition MSI_n2b_lib_sw : list Q :=
  [0.2687617; 0.0361839; 0.1501418; 0.3044542; 0.164433; 0.0356021;
   -0.0048673]%Q.
Definition MSI_n2b_lib_sw_snow : list Q :=
  [-0.1992158; 2.300191; -1.912122; 0.6714989; -2.272847; 1.934139;
   -0.0001144]%Q.

(** [tbl[i]] for a seven-entry table; every use below has [0 <= i <= 6]. *)
Definition coef (tbl : list Q) (i : Z) : Q := nth (Z.to_nat i) tbl 0%Q.

(** ** The program *)

Section Program.
Context {hdr : lndsr_albedo_h}.

(** *** Coefficient selection (lines 73, 91-114) *)

Definition select_sw (inst snow_flag : Z) : list Q :=
  if inst =? _OLI_ then
    if negb (snow_flag =? 0) then LC8_n2b_lib_snow else LC8_n2b_lib
  else if inst =? MSI then
    if negb (snow_flag =? 0) then MSI_n2b_lib_sw_snow else MSI_n2b_lib_sw
  else _TM_coefficents_sw.

(** The visible and near-infrared products always read
    [TM_coefficents_vis] and [TM_coefficents_nir]. *)
Definition select_vis (inst snow_flag : Z) : list Q := TM_coefficents_vis.
Definition select_nir (inst snow_flag : Z) : list Q := TM_coefficents_nir.

(** *** Class validation (lines 116-119) *)

Definition class_invalid (s : DIS_LANDSAT) (icls : Z) : bool :=
  (icls =? Cls_fillValue s) || (actu_ncls s <? icls) || (icls <? 0).

(** *** BRDF resolution (lines 143-171) *)

(** [tmpQA[k]++] for each of the six tallies. *)
Definition incr0 (t : tally) : tally :=
  mkTally (tmpQA0 t + 1) (tmpQA1 t) (tmpQA2 t) (tmpQA3 t) (tmpQA4 t) (tmpQA5 t).
Definition incr1 (t : tally) : tally :=
  mkTally (tmpQA0 t) (tmpQA1 t + 1) (tmpQA2 t) (tmpQA3 t) (tmpQA4 t) (tmpQA5 t).
Definition incr2 (t : tally) : tally :=
  mkTally (tmpQA0 t) (tmpQA1 t) (tmpQA2 t + 1) (tmpQA3 t) (tmpQA4 t) (tmpQA5 t).
Definition incr3 (t : tally) : tally :=
  mkTally (tmpQA0 t) (tmpQA1 t) (tmpQA2 t) (tmpQA3 t + 1) (tmpQA4 t) (tmpQA5 t).
Definition incr4 (t : tally) : tally :=
  mkTally (tmpQA0 t) (tmpQA1 t) (tmpQA2 t) (tmpQA3 t) (tmpQA4 t + 1) (tmpQA5 t).
Definition incr5 (t : tally) : tally :=
  mkTally (tmpQA0 t) (tmpQA1 t) (tmpQA2 t) (tmpQA3 t) (tmpQA4 t) (tmpQA5 t + 1).

(** [BRDFava_flg]: 1 when the three kernel weights are all exactly zero. *)
Definition BRDFava_flg (s : DIS_LANDSAT) (icls TM_Indx : Z) : Z :=
  if Qeq_bool (BRDF_paras s icls TM_Indx 0) 0
     && Qeq_bool (BRDF_paras s icls TM_Indx 1) 0
     && Qeq_bool (BRDF_paras s icls TM_Indx 2) 0
  then 1 else 0.

(** Lines 149-156: the purity tallies of a class that has its own BRDF. *)
Definition purity_tally (s : DIS_LANDSAT) (icls : Z) (t : tally) : tally :=
  let t1 := if Qlt_bool (PUREPIX_thredhold * HIS_BIN) (pure_thrsh s icls)
            then incr0 t else t in
  if Qeq_bool (pure_thrsh s icls) (PUREPIX_thredhold * HIS_BIN)
  then incr1 t1 else t1.

(** Lines 149-167: the class whose parameters are used and the tallies;
    [None] when the closest-class search answers -1. *)
Definition resolve_class (s : DIS_LANDSAT) (icls TM_Indx : Z) (t : tally)
  : option (Z * tally) :=
  if BRDFava_flg s icls TM_Indx =? 0 then Some (icls, purity_tally s icls t)
  else
    let BRDFcls := getClosestCls s icls TM_Indx in
    if BRDFcls =? -1 then None else Some (BRDFcls, incr2 t).

(** Lines 169-171. *)
Definition round_BRDF (s : DIS_LANDSAT) (BRDFcls TM_Indx : Z)
  : option (Z * Z * Z) :=
  match cast_int16 (BRDF_paras s BRDFcls TM_Indx 0 + 0.5),
        cast_int16 (BRDF_paras s BRDFcls TM_Indx 1 + 0.5),
        cast_int16 (BRDF_paras s BRDFcls TM_Indx 2 + 0.5) with
  | Some b0, Some b1, Some b2 => Some (b0, b1, b2)
  | _, _, _ => None
  end.

(** *** Narrow-band albedo of one band (lines 182-249) *)

(** Lines 204-208: the value left in [OneRowlndSR[iband][col]]. *)
Definition clamp_lndSR (sf : Q) (r : Z) : option Z :=
  let r1 := if r <? 0 then 0 else r in
  if ge_quot r1 1.2 sf then cast_int16_double (quot 0.99 sf) else Some r1.

(** Lines 211-230: the two narrow-band values and whether the
    Lambertian replacement was taken. *)
Definition narrow_pair (sf : Q) (r : Z) (bsa wsa : Q) : Q * Q * bool :=
  let a0 := (sf * inject_Z r * bsa)%Q in
  let a1 := (sf * inject_Z r * wsa)%Q in
  if Qlt_bool a0 0 || Qlt_bool a1 0
  then ((sf * inject_Z r)%Q, (sf * inject_Z r)%Q, true)
  else (a0, a1, false).

Definition set_lndSR (m : machine) (iband col r : Z) : machine :=
  mkMachine (set_OneRowlndSR (sensor m) (upd2 (OneRowlndSR (sensor m)) iband col r))
            (lndPixAlbedo m) (QA m).

Definition set_pair (m : machine) (iband : Z) (a0 a1 : Q) : machine :=
  mkMachine (sensor m)
            (upd (upd (lndPixAlbedo m) (iband * 2 + 0) a0) (iband * 2 + 1) a1)
            (QA m).

(** Lines 182-232. *)
Definition anisotropic_block (col iband : Z) (tmp_BRDF : Z * Z * Z)
           (m : machine) (l : locals) : step :=
  let s := sensor m in
  let '(b0, _, _) := tmp_BRDF in
  if negb (OneRowlndSR s iband col =? SR_fillValue s) && negb (b0 =? 0) then
    let '(status, tmp_ANR_wsa, tmp_ANR_bsa) :=
      CalculateANratio tmp_BRDF (SZA s) (SAA s) (pix_VZA s) (pix_VAA s) in
    if negb (status =? SUCCESS) then Stop (Exit 1 m)
    else
      match clamp_lndSR (lndSR_ScaFct s) (OneRowlndSR s iband col) with
      | None => Stop Undefined
      | Some r =>
        let '(a0, a1, neg) :=
          narrow_pair (lndSR_ScaFct s) r tmp_ANR_bsa tmp_ANR_wsa in
        Next (set_pair (set_lndSR m iband col r) iband a0 a1)
             (mkLocals (if neg then incr3 (tmpQA l) else tmpQA l) (lndSR_flag l))
      end
  else Next m l.

(** Lines 235-243. *)
Definition isotropic_block (col iband : Z) (tmp_BRDF : Z * Z * Z)
           (m : machine) (l : locals) : machine * locals :=
  let s := sensor m in
  let '(b0, _, _) := tmp_BRDF in
  if (b0 =? 0) && negb (OneRowlndSR s iband col =? SR_fillValue s) then
    let a := (lndSR_ScaFct s * inject_Z (OneRowlndSR s iband col))%Q in
    (set_pair m iband a a, mkLocals (incr4 (tmpQA l)) (lndSR_flag l))
  else (m, l).

(** Lines 245-249. *)
Definition nodata_block (col iband : Z) (m : machine) (l : locals) : locals :=
  if OneRowlndSR (sensor m) iband col =? SR_fillValue (sensor m)
  then mkLocals (incr5 (tmpQA l)) (lndSR_flag l + 1) else l.

(** The body of the band loop (lines 139-249). *)
Definition band_body (col icls iband : Z) (m : machine) (l : locals) : step :=
  match local_at TMBandIndx iband with
  | None => Stop Undefined
  | Some TM_Indx =>
    match resolve_class (sensor m) icls TM_Indx (tmpQA l) with
    | None => Stop (Return FAILURE m)
    | Some (BRDFcls, t) =>
      match round_BRDF (sensor m) BRDFcls TM_Indx with
      | None => Stop Undefined
      | Some tmp_BRDF =>
        match anisotropic_block col iband tmp_BRDF m (mkLocals t (lndSR_flag l)) with
        | Stop o => Stop o
        | Next m1 l1 =>
          let '(m2, l2) := isotropic_block col iband tmp_BRDF m1 l1 in
          Next m2 (nodata_block col iband m2 l2)
        end
      end
    end
  end.

(** [for (iband = i; iband < i + k; iband++)] over [band_body]. *)
Fixpoint band_loop (col icls : Z) (k : nat) (iband : Z)
         (m : machine) (l : locals) : step :=
  match k with
  | O => Next m l
  | S k' =>
    match band_body col icls iband m l with
    | Stop o => Stop o
    | Next m' l' => band_loop col icls k' (iband + 1) m' l'
    end
  end.

(** *** QA classification (lines 269-276) *)

Definition QA_classify (t : tally) (n : Z) (qa : Z) : Z :=
  if tmpQA0 t =? n then 0
  else if tmpQA0 t + tmpQA1 t =? n then 1
  else if tmpQA2 t + tmpQA0 t + tmpQA1 t =? n then 2
  else if 0 <? tmpQA3 t then 3
  else qa.

(** *** Broadband aggregation (lines 288-386) *)

(** One pass of the loop at lines 295-314. *)
Definition n2b_body (sw vis nir : list Q) (iband : Z) (a : Z -> Q) : Z -> Q :=
  let a := upd a 12 (slot a 12 + coef sw iband * slot a (iband * 2 + 0))%Q in
  let a := upd a 13 (slot a 13 + coef sw iband * slot a (iband * 2 + 1))%Q in
  let a := upd a 14 (slot a 14 + coef vis iband * slot a (iband * 2 + 0))%Q in
  let a := upd a 15 (slot a 15 + coef vis iband * slot a (iband * 2 + 1))%Q in
  let a := upd a 16 (slot a 16 + coef nir iband * slot a (iband * 2 + 0))%Q in
  upd a 17 (slot a 17 + coef nir iband * slot a (iband * 2 + 1))%Q.

Fixpoint n2b_loop (sw vis nir : list Q) (k : nat) (iband : Z) (a : Z -> Q)
  : Z -> Q :=
  match k with
  | O => a
  | S k' => n2b_loop sw vis nir k' (iband + 1) (n2b_body sw vis nir iband a)
  end.

(** Lines 288-324: the six accumulators before any rescue. *)
Definition n2b_sums (sw vis nir : list Q) (n : Z) (a : Z -> Q) : Z -> Q :=
  let a := upd a 12 0%Q in
  let a := upd a 13 0%Q in
  let a := upd a 14 0%Q in
  let a := upd a 15 0%Q in
  let a := upd a 16 0%Q in
  let a := upd a 17 0%Q in
  let a := n2b_loop sw vis nir (Z.to_nat n) 0 a in
  let a := upd a 12 (slot a 12 + coef sw 6)%Q in
  let a := upd a 13 (slot a 13 + coef sw 6)%Q in
  let a := upd a 14 (slot a 14 + coef vis 6)%Q in
  let a := upd a 15 (slot a 15 + coef vis 6)%Q in
  let a := upd a 16 (slot a 16 + coef nir 6)%Q in
  upd a 17 (slot a 17 + coef nir 6)%Q.

(** The loop inside a rescue block (lines 329-339 and its two copies):
    both slots [i] and [i + 1] receive the same addend. *)
Fixpoint lambert_loop (tbl : list Q) (s : DIS_LANDSAT) (col i : Z)
         (k : nat) (iband : Z) (a : Z -> Q) : Z -> Q :=
  match k with
  | O => a
  | S k' =>
    let d := (coef tbl iband * inject_Z (OneRowlndSR s iband col)
              * lndSR_ScaFct s)%Q in
    let a := upd a i (slot a i + d)%Q in
    let a := upd a (i + 1) (slot a (i + 1) + d)%Q in
    lambert_loop tbl s col i k' (iband + 1) a
  end.

(** One rescue block (lines 327-345, 348-366, 368-386) for the product
    stored in slots [i] and [i + 1]. *)
Definition rescue (tbl : list Q) (col i : Z) (m : machine) : machine :=
  let a := lndPixAlbedo m in
  if Qle_bool (slot a i) 0 || Qle_bool (slot a (i + 1)) 0 then
    let a := lambert_loop tbl (sensor m) col i
                          (Z.to_nat (nbands (sensor m))) 0 a in
    let a := upd a i (slot a i + coef tbl 6)%Q in
    let a := upd a (i + 1) (slot a (i + 1) + coef tbl 6)%Q in
    mkMachine (sensor m) a 4
  else m.

Definition broadband (sw vis nir : list Q) (col : Z) (m : machine) : machine :=
  let m := mkMachine (sensor m)
                     (n2b_sums sw vis nir (nbands (sensor m)) (lndPixAlbedo m))
                     (QA m) in
  let m := rescue sw col 12 m in
  let m := rescue vis col 14 m in
  rescue nir col 16 m.

(** *** The whole function *)

Definition tally0 : tally := mkTally 0 0 0 0 0 0.

Definition CalculateAlbedo (s : DIS_LANDSAT) (lndPixAlbedo0 : Z -> Q)
           (row col : Z) (QA0 : Z) (snow_flag : Z) : outcome :=
  let m := mkMachine s lndPixAlbedo0 QA0 in
  let TM_coefficents_sw := select_sw (instrument s) snow_flag in
  let icls := Clsdata s col in
  if class_invalid s icls then Return FAILURE m
  else
    match band_loop col icls (Z.to_nat (nbands s)) 0 m (mkLocals tally0 0) with
    | Stop o => o
    | Next m l =>
      if negb (lndSR_flag l =? 0)
      then Return FAILURE (mkMachine (sensor m) (lndPixAlbedo m) (-1))
      else
        let m := mkMachine (sensor m) (lndPixAlbedo m)
                           (QA_classify (tmpQA l) (nbands (sensor m)) (QA m)) in
        Return SUCCESS
               (broadband TM_coefficents_sw
                          (select_vis (instrument s) snow_flag)
                          (select_nir (instrument s) snow_flag) col m)
    end.

End Program.

(** ** Sample inputs *)

(** A header instance for concrete runs: sample status and instrument
    codes, a purity threshold of 15 pixels, a closest-class search that
    never finds a class and a ratio function that always succeeds with
    a white-sky ratio of 1.25 and a black-sky ratio of 0.75. *)
Definition sample_h : lndsr_albedo_h := {|
  _OLI_ := 8;
  MSI := 9;
  SUCCESS := 0;
  FAILURE := 1;
  PUREPIX_thredhold := 0.15%Q;
  HIS_BIN := 100%Q;
  getClosestCls := fun _ _ _ => -1;
  CalculateANratio := fun _ _ _ _ _ => (0, 1.25%Q, 0.75%Q)
|}.

(** A six-band scene of a legacy instrument (code 5) with scale factor
    0.0001 and fill value -9999; every pixel is of class 1, every class
    has [pure] pure pixels; the kernel weights of canonical band [b]
    are [w b 0], [w b 1], [w b 2] for every class, and the reflectance
    of band [b] is [r b] in every column. *)
Definition sample_sensor (pure : Q) (w : Z -> Z -> Q) (r : Z -> Z)
  : DIS_LANDSAT := {|
  instrument := 5;
  nbands := 6;
  lndSR_ScaFct := 0.0001%Q;
  SR_fillValue := -9999;
  Cls_fillValue := 255;
  actu_ncls := 10;
  Clsdata := fun _ => 1;
  pure_thrsh := fun _ => pure;
  BRDF_paras := fun _ b k => w b k;
  OneRowlndSR := fun b _ => r b;
  SZA := 30%Q; SAA := 120%Q; pix_VZA := 5%Q; pix_VAA := 90%Q
|}.

(** Kernel weights 0, 5, 3 at every band: not all zero, and rounded to
    0, 5, 3. *)
Definition weights_no_iso (b k : Z) : Q :=
  if k =? 0 then 0%Q else if k =? 1 then 5%Q else 3%Q.

(** Kernel weights 100, 20, 5 at every band. *)
Definition weights_plain (b k : Z) : Q :=
  if k =? 0 then 100%Q else if k =? 1 then 20%Q else 5%Q.

(** As [weights_plain], but all zero at canonical band 3, which is the
    band of [iband = 1]. *)
Definition weights_gap (b k : Z) : Q :=
  if b =? 3 then 0%Q else weights_plain b k.

Definition zero_vector : Z -> Q := fun _ => 0%Q.

(** ** Vocabulary of the statements *)

Section Vocabulary.
Context {hdr : lndsr_albedo_h}.

(** [m'] differs from [m] at most in the reflectance of band [i] at
    column [col], which then holds its clamped value, and in the two
    narrow-band slots of band [i]. *)
Definition band_frame (col i : Z) (m m' : machine) : Prop :=
  sensor m' = set_OneRowlndSR (sensor m) (OneRowlndSR (sensor m')) /\
  QA m' = QA m /\
  (forall b c,
      OneRowlndSR (sensor m') b c = OneRowlndSR (sensor m) b c \/
      (b = i /\ c = col /\
       clamp_lndSR (lndSR_ScaFct (sensor m)) (OneRowlndSR (sensor m) b c)
       = Some (OneRowlndSR (sensor m') b c))) /\
  (forall j, j <> i * 2 + 0 -> j <> i * 2 + 1 ->
             lndPixAlbedo m' j = lndPixAlbedo m j).

(** The same for a run of [k] passes starting at band [i]. *)
Definition loop_frame (col i : Z) (k : nat) (m m' : machine) : Prop :=
  sensor m' = set_OneRowlndSR (sensor m) (OneRowlndSR (sensor m')) /\
  QA m' = QA m /\
  (forall b c,
      OneRowlndSR (sensor m') b c = OneRowlndSR (sensor m) b c \/
      (i <= b < i + Z.of_nat k /\ c = col /\
       clamp_lndSR (lndSR_ScaFct (sensor m)) (OneRowlndSR (sensor m) b c)
       = Some (OneRowlndSR (sensor m') b c))) /\
  (forall j, j < i * 2 \/ (i + Z.of_nat k) * 2 <= j ->
             lndPixAlbedo m' j = lndPixAlbedo m j).

(** The four ways through the function. *)
Inductive path (s : DIS_LANDSAT) (a : Z -> Q) (col qa snow_flag : Z)
  : outcome -> Prop :=
| path_class :
    class_invalid s (Clsdata s col) = true ->
    path s a col qa snow_flag (Return FAILURE (mkMachine s a qa))
| path_stop o :
    class_invalid s (Clsdata s col) = false ->
    band_loop col (Clsdata s col) (Z.to_nat (nbands s)) 0
              (mkMachine s a qa) (mkLocals tally0 0) = Stop o ->
    path s a col qa snow_flag o
| path_nodata m l :
    class_invalid s (Clsdata s col) = false ->
    band_loop col (Clsdata s col) (Z.to_nat (nbands s)) 0
              (mkMachine s a qa) (mkLocals tally0 0) = Next m l ->
    lndSR_flag l <> 0 ->
    path s a col qa snow_flag
         (Return FAILURE (mkMachine (sensor m) (lndPixAlbedo m) (-1)))
| path_success m l :
    class_invalid s (Clsdata s col) = false ->
    band_loop col (Clsdata s col) (Z.to_nat (nbands s)) 0
              (mkMachine s a qa) (mkLocals tally0 0) = Next m l ->
    lndSR_flag l = 0 ->
    path s a col qa snow_flag
         (Return SUCCESS
            (broadband (select_sw (instrument s) snow_flag)
                       (select_vis (instrument s) snow_flag)
                       (select_nir (instrument s) snow_flag) col
                       (mkMachine (sensor m) (lndPixAlbedo m)
                          (QA_classify (tmpQA l) (nbands (sensor m)) (QA m))))).

End Vocabulary.

(** The rules of the classifier in their order of priority: each is a
    condition on the tallies and the band count [n], with its code. *)
Definition QA_rules (t : tally) (n : Z) : list (bool * Z) :=
  [ (tmpQA0 t =? n, 0);
    (tmpQA0 t + tmpQA1 t =? n, 1);
    (tmpQA2 t + tmpQA0 t + tmpQA1 t =? n, 2);
    (0 <? tmpQA3 t, 3) ].

(** The code of the first rule that holds, or [previous] when none does. *)
Fixpoint first_match (rules : list (bool * Z)) (previous : Z) : Z :=
  match rules with
  | [] => previous
  | (c, code) :: rest => if c then code else first_match rest previous
  end.


(** The Lambertian broadband value in the words of the rescue rule:
    the sum over the active bands of coefficient x scale factor x
    reflectance, plus the intercept. *)
Fixpoint lambert_terms (tbl : list Q) (s : DIS_LANDSAT) (col : Z)
         (k : nat) (iband : Z) : Q :=
  match k with
  | O => 0%Q
  | S k' =>
    (coef tbl iband * lndSR_ScaFct s * inject_Z (OneRowlndSR s iband col)
     + lambert_terms tbl s col k' (iband + 1))%Q
  end.

Definition lambert_value (tbl : list Q) (s : DIS_LANDSAT) (col : Z) : Q :=
  (lambert_terms tbl s col (Z.to_nat (nbands s)) 0 + coef tbl 6)%Q.

(** What a call may do to the sensor context: every field but the
    reflectance raster is as before, and an entry of the raster is as
    before or, for an active band at the pixel's column, the clamped
    value of what it held. *)
Definition sensor_frame (s : DIS_LANDSAT) (col : Z) (s' : DIS_LANDSAT) : Prop :=
  instrument s' = instrument s /\ nbands s' = nbands s /\
  lndSR_ScaFct s' = lndSR_ScaFct s /\ SR_fillValue s' = SR_fillValue s /\
  Cls_fillValue s' = Cls_fillValue s /\ actu_ncls s' = actu_ncls s /\
  Clsdata s' = Clsdata s /\ pure_thrsh s' = pure_thrsh s /\
  BRDF_paras s' = BRDF_paras s /\
  SZA s' = SZA s /\ SAA s' = SAA s /\
  pix_VZA s' = pix_VZA s /\ pix_VAA s' = pix_VAA s /\
  forall b c,
    OneRowlndSR s' b c = OneRowlndSR s b c \/
    (0 <= b < nbands s /\ c = col /\
     clamp_lndSR (lndSR_ScaFct s) (OneRowlndSR s b c)
     = Some (OneRowlndSR s' b c)).

(** Two sensor contexts with the same contents: every field other than
    the reflectance raster is identical and the rasters hold the same
    value at every index. *)
Definition sensor_eqv (s1 s2 : DIS_LANDSAT) : Prop :=
  s2 = set_OneRowlndSR s1 (OneRowlndSR s2) /\
  forall b c, OneRowlndSR s2 b c = OneRowlndSR s1 b c.

(** Two machines with the same contents. *)
Definition machine_eqv (m1 m2 : machine) : Prop :=
  sensor_eqv (sensor m1) (sensor m2) /\
  (forall j, lndPixAlbedo m2 j = lndPixAlbedo m1 j) /\
  QA m2 = QA m1.

(** The tallies of a second run against those of the first: the same
    count of bands without data, and the same tallies as long as that
    count is zero. *)
Definition tally_rel (l l2 : locals) : Prop :=
  lndSR_flag l2 = lndSR_flag l /\ 0 <= lndSR_flag l /\
  (lndSR_flag l = 0 -> tmpQA l2 = tmpQA l).

(** The machine [n] of a second run about to enter band [i], against
    the machine [m] the first run had there and the machine [E] the
    first run's loop ended in: [n] has caught up with [m] below band
    [i] and still holds what [E] holds from band [i] upward. *)
Definition replay_rel (col i : Z) (E m n : machine) : Prop :=
  (exists R, sensor n = set_OneRowlndSR (sensor m) R) /\
  (forall b c, b < i \/ c <> col ->
               OneRowlndSR (sensor n) b c = OneRowlndSR (sensor m) b c) /\
  (forall b, i <= b ->
             OneRowlndSR (sensor n) b col = OneRowlndSR (sensor E) b col) /\
  (forall j, j < i * 2 -> lndPixAlbedo n j = lndPixAlbedo m j) /\
  (forall j, i * 2 <= j < 12 -> lndPixAlbedo n j = lndPixAlbedo E j).

(** ** Further sample inputs *)

(** As [sample_h], but the ratio function always reports a failure
    (status 1, while [SUCCESS] is 0). *)
Definition failing_h : lndsr_albedo_h := {|
  _OLI_ := 8;
  MSI := 9;
  SUCCESS := 0;
  FAILURE := 1;
  PUREPIX_thredhold := 0.15%Q;
  HIS_BIN := 100%Q;
  getClosestCls := fun _ _ _ => -1;
  CalculateANratio := fun _ _ _ _ _ => (1, 0%Q, 0%Q)
|}.

(** As [sample_sensor], with the instrument code [inst], the
    reflectance fill value [fill] and the class [cls] of every pixel
    left open. *)
Definition sample_scene (inst fill cls : Z) (pure : Q) (w : Z -> Z -> Q)
           (r : Z -> Z) : DIS_LANDSAT := {|
  instrument := inst;
  nbands := 6;
  lndSR_ScaFct := 0.0001%Q;
  SR_fillValue := fill;
  Cls_fillValue := 255;
  actu_ncls := 10;
  Clsdata := fun _ => cls;
  pure_thrsh := fun _ => pure;
  BRDF_paras := fun _ b k => w b k;
  OneRowlndSR := fun b _ => r b;
  SZA := 30%Q; SAA := 120%Q; pix_VZA := 5%Q; pix_VAA := 90%Q
|}.

(** As [sample_sensor], with the scale factor left open. *)
Definition sample_scaled (sf : Q) (pure : Q) (w : Z -> Z -> Q)
           (r : Z -> Z) : DIS_LANDSAT := {|
  instrument := 5;
  nbands := 6;
  lndSR_ScaFct := sf;
  SR_fillValue := -9999;
  Cls_fillValue := 255;
  actu_ncls := 10;
  Clsdata := fun _ => 1;
  pure_thrsh := fun _ => pure;
  BRDF_paras := fun _ b k => w b k;
  OneRowlndSR := fun b _ => r b;
  SZA := 30%Q; SAA := 120%Q; pix_VZA := 5%Q; pix_VAA := 90%Q
|}.

(** ** Vocabulary of the further statements *)




(** The sum of the three BRDF tallies the classifier's first three
    rules compare with the band count. *)
Definition brdf_tally (t : tally) : Z := tmpQA2 t + tmpQA0 t + tmpQA1 t.

(** How far the tallies [t'] may be from the tallies [t] after [k]
    passes of the band loop: no tally has gone down, none has gone up
    by more than [k], and neither the three BRDF tallies together nor
    the isotropic and no-data tallies together have gone up by more
    than [k]. *)
Definition tally_within (k : Z) (t t' : tally) : Prop :=
  0 <= tmpQA0 t' - tmpQA0 t /\ 0 <= tmpQA1 t' - tmpQA1 t /\
  0 <= tmpQA2 t' - tmpQA2 t /\
  brdf_tally t' - brdf_tally t <= k /\
  0 <= tmpQA3 t' - tmpQA3 t <= k /\
  0 <= tmpQA4 t' - tmpQA4 t /\ 0 <= tmpQA5 t' - tmpQA5 t /\
  (tmpQA4 t' - tmpQA4 t) + (tmpQA5 t' - tmpQA5 t) <= k.

(** Two output vectors that agree everywhere but in the two shortwave
    broadband slots. *)
Definition agree_off_sw (a a' : Z -> Q) : Prop :=
  forall j, j <> 12 -> j <> 13 -> a j = a' j.
(** ** Elementary facts *)

Lemma upd_same {A} (f : Z -> A) i v : upd f i v i = v.
Proof. unfold upd. now rewrite Z.eqb_refl. Qed.

Lemma upd_other {A} (f : Z -> A) i j v : j <> i -> upd f i v j = f j.
Proof. unfold upd. intros H. apply Z.eqb_neq in H. now rewrite H. Qed.

Lemma upd2_same {A} (f : Z -> Z -> A) i j v : upd2 f i j v i j = v.
Proof. unfold upd2. now rewrite !Z.eqb_refl. Qed.

Lemma upd2_other {A} (f : Z -> Z -> A) i j i' j' v :
  i' <> i \/ j' <> j -> upd2 f i j v i' j' = f i' j'.
Proof.
  unfold upd2. intros [H | H]; apply Z.eqb_neq in H; rewrite H; trivial.
  now rewrite andb_false_r.
Qed.

Lemma Qlt_bool_iff x y : Qlt_bool x y = true <-> (x < y)%Q.
Proof.
  unfold Qlt_bool. rewrite negb_true_iff. split; intros H.
  - apply Qnot_le_lt. intros H'. apply Qle_bool_iff in H'. congruence.
  - destruct (Qle_bool y x) eqn:E; trivial.
    apply Qle_bool_iff in E. exfalso. exact (Qlt_not_le _ _ H E).
Qed.


(** ** Binary64 rounding *)

(** *** Powers of two *)

Lemma pow2_pos k : (0 < pow2 k)%Q.
Proof. unfold pow2. apply Qpower_0_lt. reflexivity. Qed.

Lemma pow2_add a b : (pow2 (a + b) == pow2 a * pow2 b)%Q.
Proof. unfold pow2. apply Qpower_plus. discriminate. Qed.

Lemma pow2_le a b : a <= b -> (pow2 a <= pow2 b)%Q.
Proof. intros H. unfold pow2. apply Qpower_le_compat_l; [exact H|discriminate]. Qed.

Lemma pow2_lt a b : a < b -> (pow2 a < pow2 b)%Q.
Proof. intros H. unfold pow2. apply Qpower_lt_compat_l; [exact H|reflexivity]. Qed.

Lemma pow2_lt_inv a b : (pow2 a < pow2 b)%Q -> a < b.
Proof.
  intros H. destruct (Z_lt_le_dec a b) as [Hlt|Hge]; trivial.
  apply pow2_le in Hge. lra.
Qed.

Lemma pow2_Z k : 0 <= k -> (pow2 k == inject_Z (2 ^ k))%Q.
Proof. intros H. unfold pow2. now rewrite Zpower_Qpower. Qed.

Lemma pow2_sub a b : (pow2 (a - b) == pow2 a / pow2 b)%Q.
Proof.
  assert (H := pow2_add (a - b) b). replace (a - b + b) with a in H by lia.
  assert (Hb := pow2_pos b). rewrite H. field. lra.
Qed.

(** *** The binary exponent *)

Lemma Qdiv_lt_cross a b c d :
  (0 < b)%Q -> (0 < d)%Q -> (a * d < c * b)%Q -> (a / b < c / d)%Q.
Proof.
  intros Hb Hd H. apply Qlt_shift_div_r; [exact Hb|].
  assert (E : (c / d * b == c * b / d)%Q) by (field; lra).
  rewrite E. apply Qlt_shift_div_l; [exact Hd|exact H].
Qed.

Lemma ilog2_spec x :
  (0 < x)%Q -> (pow2 (ilog2 x) <= x)%Q /\ (x < pow2 (ilog2 x + 1))%Q.
Proof.
  intros Hx. destruct x as [n d]. unfold ilog2. cbn [Qnum Qden].
  assert (Hn : 0 < n) by (unfold Qlt in Hx; simpl in Hx; lia).
  set (a := Z.log2 n). set (b := Z.log2 (Z.pos d)).
  destruct (Z.log2_spec n Hn) as (Ha1 & Ha2). fold a in Ha1, Ha2.
  destruct (Z.log2_spec (Z.pos d) (Pos2Z.is_pos d)) as (Hb1 & Hb2).
  fold b in Hb1, Hb2.
  assert (Ha0 : 0 <= a) by apply Z.log2_nonneg.
  assert (Hb0 : 0 <= b) by apply Z.log2_nonneg.
  assert (Ex : (n # d == inject_Z n / inject_Z (Z.pos d))%Q) by apply Qmake_Qdiv.
  assert (Hd : (0 < inject_Z (Z.pos d))%Q) by (unfold Qlt; simpl; lia).
  assert (Hpa : 0 < 2 ^ a) by (apply Z.pow_pos_nonneg; lia).
  assert (Hpb : 0 < 2 ^ b) by (apply Z.pow_pos_nonneg; lia).
  assert (Hsa : 2 ^ (a + 1) = 2 * 2 ^ a) by (rewrite Z.pow_add_r by lia; lia).
  assert (Hsb : 2 ^ (b + 1) = 2 * 2 ^ b) by (rewrite Z.pow_add_r by lia; lia).
  replace (Z.succ a) with (a + 1) in Ha2 by lia.
  replace (Z.succ b) with (b + 1) in Hb2 by lia.
  assert (Hlo : (pow2 (a - b - 1) < n # d)%Q).
  { rewrite Ex. replace (a - b - 1) with (a - (b + 1)) by lia.
    rewrite pow2_sub. rewrite (pow2_Z a), (pow2_Z (b + 1)) by lia.
    apply Qdiv_lt_cross; [rewrite <- (Zlt_Qlt 0); lia|exact Hd|].
    rewrite <- !inject_Z_mult, <- Zlt_Qlt. nia. }
  assert (Hhi : (n # d < pow2 (a - b + 1))%Q).
  { rewrite Ex. replace (a - b + 1) with (a + 1 - b) by lia.
    rewrite pow2_sub. rewrite (pow2_Z (a + 1)), (pow2_Z b) by lia.
    apply Qdiv_lt_cross; [exact Hd|rewrite <- (Zlt_Qlt 0); lia|].
    rewrite <- !inject_Z_mult, <- Zlt_Qlt. nia. }
  destruct (Qle_bool (pow2 (a - b)) (n # d)) eqn:E.
  - apply Qle_bool_iff in E. split; [exact E|exact Hhi].
  - assert (Hlt : (n # d < pow2 (a - b))%Q).
    { apply Qnot_le_lt. intros H. apply Qle_bool_iff in H. congruence. }
    replace (a - b - 1 + 1) with (a - b) by lia.
    split; [apply Qlt_le_weak; exact Hlo|exact Hlt].
Qed.

Lemma ilog2_unique x e :
  (pow2 e <= x)%Q -> (x < pow2 (e + 1))%Q -> ilog2 x = e.
Proof.
  intros H1 H2.
  assert (Hx : (0 < x)%Q) by (assert (H := pow2_pos e); lra).
  destruct (ilog2_spec x Hx) as (S1 & S2).
  assert (A : ilog2 x < e + 1) by (apply pow2_lt_inv; lra).
  assert (B : e < ilog2 x + 1) by (apply pow2_lt_inv; lra).
  lia.
Qed.

Lemma ilog2_mono x y : (0 < x)%Q -> (x <= y)%Q -> ilog2 x <= ilog2 y.
Proof.
  intros Hx Hxy.
  destruct (ilog2_spec x Hx) as (S1 & _).
  destruct (ilog2_spec y) as (_ & T2); [lra|].
  assert (A : ilog2 x < ilog2 y + 1) by (apply pow2_lt_inv; lra).
  lia.
Qed.

(** *** Rounding to the nearest integer, ties to even *)

Lemma Qcompare_Lt p q : (p < q)%Q -> (p ?= q)%Q = Lt.
Proof. intros H. now apply Qlt_alt. Qed.

Lemma Qcompare_Gt p q : (q < p)%Q -> (p ?= q)%Q = Gt.
Proof. intros H. now apply Qgt_alt. Qed.

Lemma Qcompare_Eq p q : (p == q)%Q -> (p ?= q)%Q = Eq.
Proof. intros H. now apply Qeq_alt. Qed.

Lemma rne_bounds m : Qfloor m <= rne m <= Qfloor m + 1.
Proof.
  unfold rne. cbv zeta. destruct (_ ?= _)%Q; [destruct (Z.even _)| |]; lia.
Qed.

Lemma rne_Z n : rne (inject_Z n) = n.
Proof.
  unfold rne. cbv zeta. rewrite Qfloor_Z.
  assert (H : (inject_Z n - inject_Z n < 1 # 2)%Q) by lra.
  now rewrite (Qcompare_Lt _ _ H).
Qed.

Lemma rne_mono m1 m2 : (m1 <= m2)%Q -> rne m1 <= rne m2.
Proof.
  intros H.
  assert (Hf : Qfloor m1 <= Qfloor m2) by now apply Qfloor_resp_le.
  destruct (Z.eq_dec (Qfloor m1) (Qfloor m2)) as [E|N].
  - unfold rne. cbv zeta. rewrite <- E.
    destruct (m1 - inject_Z (Qfloor m1) ?= 1 # 2)%Q eqn:C1;
      destruct (m2 - inject_Z (Qfloor m1) ?= 1 # 2)%Q eqn:C2;
      try (destruct (Z.even (Qfloor m1)); lia); try lia; exfalso;
      repeat match goal with
             | H : (_ ?= _)%Q = Eq |- _ => apply Qeq_alt in H
             | H : (_ ?= _)%Q = Lt |- _ => apply Qlt_alt in H
             | H : (_ ?= _)%Q = Gt |- _ => apply Qgt_alt in H
             end; lra.
  - assert (B1 := rne_bounds m1). assert (B2 := rne_bounds m2). lia.
Qed.

Lemma rne_lower n m : (inject_Z n <= m)%Q -> n <= rne m.
Proof. intros H. rewrite <- (rne_Z n). now apply rne_mono. Qed.

Lemma rne_upper n m : (m <= inject_Z n)%Q -> rne m <= n.
Proof. intros H. rewrite <- (rne_Z n). now apply rne_mono. Qed.

Lemma rne_eq m1 m2 : (m1 == m2)%Q -> rne m1 = rne m2.
Proof.
  intros H. apply Z.le_antisymm; apply rne_mono; rewrite H; apply Qle_refl.
Qed.

(** *** Rounding a positive number *)

Lemma round_pos_unfold x :
  round_pos x = (inject_Z (rne (x / pow2 (bexp x - 52))) * pow2 (bexp x - 52))%Q.
Proof. reflexivity. Qed.

Lemma bexp_mono x y : (0 < x)%Q -> (x <= y)%Q -> bexp x <= bexp y.
Proof.
  intros Hx Hxy. unfold bexp. assert (H := ilog2_mono x y Hx Hxy). lia.
Qed.

Lemma round_pos_nonneg x : (0 < x)%Q -> (0 <= round_pos x)%Q.
Proof.
  intros Hx. rewrite round_pos_unfold.
  assert (Hu := pow2_pos (bexp x - 52)).
  apply Qmult_le_0_compat; [|lra].
  rewrite <- (Zle_Qle 0). apply rne_lower.
  apply Qle_shift_div_l; [exact Hu|]. change (inject_Z 0) with 0%Q. lra.
Qed.

(** Below the next power of two. *)
Lemma round_pos_upper x : (0 < x)%Q -> (round_pos x <= pow2 (bexp x + 1))%Q.
Proof.
  intros Hx. rewrite round_pos_unfold.
  set (e := bexp x). assert (Hu := pow2_pos (e - 52)).
  destruct (ilog2_spec x Hx) as (_ & H2).
  assert (He : (x <= pow2 (e + 1))%Q).
  { apply Qle_trans with (pow2 (ilog2 x + 1)); [lra|].
    apply pow2_le. unfold e, bexp. lia. }
  assert (Hs : (pow2 (e + 1) == inject_Z (2 ^ 53) * pow2 (e - 52))%Q).
  { rewrite <- (pow2_Z 53) by lia. rewrite <- pow2_add.
    now replace (53 + (e - 52)) with (e + 1) by lia. }
  rewrite Hs. apply Qmult_le_compat_r; [|lra].
  rewrite <- Zle_Qle. apply rne_upper.
  apply Qle_shift_div_r; [exact Hu|]. rewrite <- Hs. exact He.
Qed.

(** At least the power of two at or below, in the normal range. *)
Lemma round_pos_lower x :
  (0 < x)%Q -> -1022 <= ilog2 x -> (pow2 (bexp x) <= round_pos x)%Q.
Proof.
  intros Hx Hn. rewrite round_pos_unfold.
  set (e := bexp x). assert (Hu := pow2_pos (e - 52)).
  destruct (ilog2_spec x Hx) as (H1 & _).
  assert (Ee : e = ilog2 x) by (unfold e, bexp; lia).
  assert (Hs : (pow2 e == inject_Z (2 ^ 52) * pow2 (e - 52))%Q).
  { rewrite <- (pow2_Z 52) by lia. rewrite <- pow2_add.
    now replace (52 + (e - 52)) with e by lia. }
  rewrite Hs at 1. apply Qmult_le_compat_r; [|lra].
  rewrite <- Zle_Qle. apply rne_lower.
  apply Qle_shift_div_l; [exact Hu|]. rewrite <- Hs. rewrite Ee. exact H1.
Qed.

Lemma round_pos_mono x y :
  (0 < x)%Q -> (x <= y)%Q -> (round_pos x <= round_pos y)%Q.
Proof.
  intros Hx Hxy. assert (Hy : (0 < y)%Q) by lra.
  assert (He := bexp_mono x y Hx Hxy).
  destruct (Z.eq_dec (bexp x) (bexp y)) as [E|N].
  - rewrite !round_pos_unfold. rewrite E.
    assert (Hu := pow2_pos (bexp y - 52)).
    apply Qmult_le_compat_r; [|lra].
    rewrite <- Zle_Qle. apply rne_mono.
    apply Qmult_le_compat_r; [exact Hxy|].
    apply Qlt_le_weak. now apply Qinv_lt_0_compat.
  - apply Qle_trans with (pow2 (bexp x + 1)); [now apply round_pos_upper|].
    apply Qle_trans with (pow2 (bexp y)); [apply pow2_le; lia|].
    apply round_pos_lower; [exact Hy|]. unfold bexp in *. lia.
Qed.

(** *** Rounding any number *)

Lemma round64_pos x : (0 < x)%Q -> round64 x = round_pos x.
Proof. intros H. unfold round64. now rewrite (Qcompare_Gt _ _ H). Qed.

Lemma round64_neg x : (x < 0)%Q -> round64 x = (- round_pos (- x))%Q.
Proof. intros H. unfold round64. now rewrite (Qcompare_Lt _ _ H). Qed.

Lemma round64_zero x : (x == 0)%Q -> round64 x = 0%Q.
Proof. intros H. unfold round64. now rewrite (Qcompare_Eq _ _ H). Qed.

Lemma round64_nonneg x : (0 <= x)%Q -> (0 <= round64 x)%Q.
Proof.
  intros H. destruct (Qle_lt_or_eq _ _ H) as [Hp|Hz].
  - rewrite round64_pos by exact Hp. now apply round_pos_nonneg.
  - rewrite round64_zero by (now symmetry). apply Qle_refl.
Qed.

Lemma round64_nonpos x : (x <= 0)%Q -> (round64 x <= 0)%Q.
Proof.
  intros H. destruct (Qle_lt_or_eq _ _ H) as [Hp|Hz].
  - rewrite round64_neg by exact Hp.
    assert (H0 : (0 <= round_pos (- x))%Q) by (apply round_pos_nonneg; lra). lra.
  - rewrite round64_zero by exact Hz. apply Qle_refl.
Qed.

Lemma round64_mono x y : (x <= y)%Q -> (round64 x <= round64 y)%Q.
Proof.
  intros H. destruct (Q_dec x 0) as [[Hx|Hx]|Hx].
  - destruct (Q_dec y 0) as [[Hy|Hy]|Hy].
    + rewrite (round64_neg x Hx), (round64_neg y Hy).
      assert (M : (round_pos (- y) <= round_pos (- x))%Q)
        by (apply round_pos_mono; lra).
      lra.
    + apply Qle_trans with 0%Q; [apply round64_nonpos|apply round64_nonneg]; lra.
    + apply Qle_trans with 0%Q; [apply round64_nonpos|apply round64_nonneg]; lra.
  - assert (Hy : (0 < y)%Q) by lra.
    rewrite (round64_pos x Hx), (round64_pos y Hy). now apply round_pos_mono.
  - apply Qle_trans with 0%Q; [apply round64_nonpos|apply round64_nonneg]; lra.
Qed.

Lemma round64_eq x y : (x == y)%Q -> (round64 x == round64 y)%Q.
Proof.
  intros H. apply Qle_antisym; apply round64_mono; rewrite H; apply Qle_refl.
Qed.

(** *** Doubles *)

Lemma to_double_nonneg x :
  (0 <= x)%Q ->
  (to_double x = Inf false /\ (pow2 1024 <= round64 x)%Q) \/
  (to_double x = Finite (round64 x) /\
   (0 <= round64 x)%Q /\ (round64 x < pow2 1024)%Q).
Proof.
  intros H. assert (H0 := round64_nonneg x H). assert (Hp := pow2_pos 1024).
  unfold to_double. cbv zeta.
  destruct (Qle_bool (pow2 1024) (round64 x)) eqn:E1.
  - left. apply Qle_bool_iff in E1. auto.
  - right.
    assert (Hlt : (round64 x < pow2 1024)%Q).
    { apply Qnot_le_lt. intros C. apply Qle_bool_iff in C. congruence. }
    destruct (Qle_bool (round64 x) (- pow2 1024)) eqn:E2.
    + apply Qle_bool_iff in E2. exfalso. lra.
    + auto.
Qed.

Lemma to_double_nonpos x :
  (x <= 0)%Q ->
  (to_double x = Inf true /\ (round64 x <= - pow2 1024)%Q) \/
  (to_double x = Finite (round64 x) /\
   (round64 x <= 0)%Q /\ (- pow2 1024 < round64 x)%Q).
Proof.
  intros H. assert (H0 := round64_nonpos x H). assert (Hp := pow2_pos 1024).
  unfold to_double. cbv zeta.
  destruct (Qle_bool (pow2 1024) (round64 x)) eqn:E1.
  - apply Qle_bool_iff in E1. exfalso. lra.
  - destruct (Qle_bool (round64 x) (- pow2 1024)) eqn:E2.
    + left. apply Qle_bool_iff in E2. auto.
    + right. split; [reflexivity|]. split; [exact H0|].
      apply Qnot_le_lt. intros C. apply Qle_bool_iff in C. congruence.
Qed.

Lemma Qeq_bool_false_pos d : (0 <= d)%Q -> Qeq_bool d 0 = false -> (0 < d)%Q.
Proof.
  intros H E. apply Qeq_bool_neq in E.
  destruct (Qle_lt_or_eq _ _ H) as [Hp|Hz]; [exact Hp|].
  exfalso. apply E. now symmetry.
Qed.

Lemma Qeq_bool_false_neg d : (d <= 0)%Q -> Qeq_bool d 0 = false -> (d < 0)%Q.
Proof.
  intros H E. apply Qeq_bool_neq in E.
  destruct (Qle_lt_or_eq _ _ H) as [Hp|Hz]; [exact Hp|].
  exfalso. apply E. exact Hz.
Qed.

Lemma Qlt_bool_true x y : (x < y)%Q -> Qlt_bool x y = true.
Proof.
  intros H. unfold Qlt_bool. destruct (Qle_bool y x) eqn:E; trivial.
  apply Qle_bool_iff in E. exfalso. lra.
Qed.

Lemma Qlt_bool_nonneg x y : (y <= x)%Q -> Qlt_bool x y = false.
Proof.
  intros H. unfold Qlt_bool. apply Qle_bool_iff in H. now rewrite H.
Qed.

Lemma Qdiv_nonneg a d : (0 <= a)%Q -> (0 < d)%Q -> (0 <= a / d)%Q.
Proof.
  intros Ha Hd. apply Qle_shift_div_l; [exact Hd|]. lra.
Qed.

Lemma Qdiv_nonpos a d : (0 <= a)%Q -> (d < 0)%Q -> (a / d <= 0)%Q.
Proof.
  intros Ha Hd.
  assert (H : (0 <= a / - d)%Q) by (apply Qdiv_nonneg; lra).
  assert (E : (a / - d == - (a / d))%Q) by (field; lra).
  rewrite E in H. lra.
Qed.

Lemma Qdiv_le_num a b d : (a <= b)%Q -> (0 < d)%Q -> (a / d <= b / d)%Q.
Proof.
  intros H Hd. unfold Qdiv. apply Qmult_le_compat_r; [exact H|].
  apply Qlt_le_weak. now apply Qinv_lt_0_compat.
Qed.

Lemma Qdiv_le_den a d0 d : (0 <= a)%Q -> (0 < d0)%Q -> (d0 <= d)%Q -> (a / d <= a / d0)%Q.
Proof.
  intros Ha H0 H.
  apply Qle_shift_div_r; [lra|].
  assert (E : (a / d0 * d == a * (d / d0))%Q) by (field; lra).
  rewrite E.
  assert (H1 : (1 <= d / d0)%Q)
    by (apply Qle_shift_div_l; [exact H0|lra]).
  rewrite <- (Qmult_1_r a) at 1.
  destruct (Qle_lt_or_eq _ _ Ha) as [Hp|Hz].
  - apply Qmult_le_l; assumption.
  - rewrite <- Hz. lra.
Qed.

(** The sign of a quotient is the sign of the scale factor. *)
Lemma quot_nonneg num sf :
  (0 <= num)%Q -> (0 <= sf)%Q ->
  (exists q, quot num sf = Finite q /\ (0 <= q)%Q) \/ quot num sf = Inf false.
Proof.
  intros Hn Hs. unfold quot.
  destruct (to_double_nonneg sf Hs) as [(E & _)|(E & H0 & _)]; rewrite E.
  - left. exists 0%Q. split; [reflexivity|apply Qle_refl].
  - destruct (Qeq_bool (round64 sf) 0) eqn:Ez.
    + right. now rewrite Qlt_bool_nonneg.
    + assert (Hd := Qeq_bool_false_pos _ H0 Ez).
      assert (Ha : (0 <= round64 num / round64 sf)%Q)
        by (apply Qdiv_nonneg; [now apply round64_nonneg|exact Hd]).
      destruct (to_double_nonneg _ Ha) as [(E' & _)|(E' & H' & _)]; rewrite E'.
      * now right.
      * left. eexists. split; [reflexivity|exact H'].
Qed.

Lemma quot_nonpos num sf :
  (0 <= num)%Q -> (sf < 0)%Q ->
  (exists q, quot num sf = Finite q /\ (q <= 0)%Q) \/ quot num sf = Inf true.
Proof.
  intros Hn Hs. unfold quot.
  destruct (to_double_nonpos sf) as [(E & _)|(E & H0 & _)]; [lra| |]; rewrite E.
  - left. exists 0%Q. split; [reflexivity|apply Qle_refl].
  - destruct (Qeq_bool (round64 sf) 0) eqn:Ez.
    + right. now rewrite Qlt_bool_true.
    + assert (Hd := Qeq_bool_false_neg _ H0 Ez).
      assert (Ha : (round64 num / round64 sf <= 0)%Q)
        by (apply Qdiv_nonpos; [now apply round64_nonneg|exact Hd]).
      destruct (to_double_nonpos _ Ha) as [(E' & _)|(E' & H' & _)]; rewrite E'.
      * now right.
      * left. eexists. split; [reflexivity|exact H'].
Qed.

(** A smaller dividend gives a quotient that is not larger. *)
Lemma quot_mono_num n1 n2 sf q2 :
  (0 <= sf)%Q -> (0 <= n1)%Q -> (n1 <= n2)%Q ->
  quot n2 sf = Finite q2 ->
  exists q1, quot n1 sf = Finite q1 /\ (0 <= q1)%Q /\ (q1 <= q2)%Q.
Proof.
  intros Hs H1 H12. unfold quot.
  destruct (to_double_nonneg sf Hs) as [(E & _)|(E & H0 & _)]; rewrite E.
  - intros H. inversion H. exists 0%Q. repeat split; apply Qle_refl.
  - destruct (Qeq_bool (round64 sf) 0) eqn:Ez; [discriminate|].
    assert (Hd := Qeq_bool_false_pos _ H0 Ez).
    assert (Hr : (round64 n1 <= round64 n2)%Q) by now apply round64_mono.
    assert (Hr1 : (0 <= round64 n1)%Q) by now apply round64_nonneg.
    assert (Ha1 : (0 <= round64 n1 / round64 sf)%Q) by now apply Qdiv_nonneg.
    assert (Ha2 : (0 <= round64 n2 / round64 sf)%Q)
      by (apply Qdiv_nonneg; [lra|exact Hd]).
    assert (Hm : (round64 (round64 n1 / round64 sf)
                  <= round64 (round64 n2 / round64 sf))%Q)
      by (apply round64_mono; now apply Qdiv_le_num).
    destruct (to_double_nonneg _ Ha2) as [(E2 & _)|(E2 & _ & L2)]; rewrite E2;
      [discriminate|].
    intros H. inversion H. subst q2.
    destruct (to_double_nonneg _ Ha1) as [(E1 & G1)|(E1 & P1 & _)]; rewrite E1.
    + exfalso. lra.
    + eexists. split; [reflexivity|]. split; assumption.
Qed.

(** A larger positive scale factor gives a quotient that is not larger. *)
Lemma quot_anti_sf num sf0 sf q0 :
  (0 <= num)%Q -> (0 < sf0)%Q -> (sf0 <= sf)%Q ->
  quot num sf0 = Finite q0 ->
  exists q, quot num sf = Finite q /\ (0 <= q)%Q /\ (q <= q0)%Q.
Proof.
  intros Hn H0 Hs Hq0.
  assert (Hq0' : (0 <= q0)%Q).
  { destruct (quot_nonneg num sf0 Hn) as [(q & E & Hq)|E]; [lra| |congruence].
    rewrite Hq0 in E. inversion E. subst q. exact Hq. }
  assert (Hm : (round64 sf0 <= round64 sf)%Q) by now apply round64_mono.
  revert Hq0. unfold quot.
  destruct (to_double_nonneg sf0) as [(E0 & G0)|(E0 & P0 & L0)]; [lra| |];
    rewrite E0;
    (destruct (to_double_nonneg sf) as [(E & G)|(E & P & L)]; [lra| |]);
    rewrite E.
  - intros H. inversion H. exists 0%Q. repeat split; apply Qle_refl.
  - exfalso. lra.
  - intros _. exists 0%Q. repeat split; [apply Qle_refl|exact Hq0'].
  - destruct (Qeq_bool (round64 sf0) 0) eqn:Ez0; [discriminate|].
    assert (Hd0 := Qeq_bool_false_pos _ P0 Ez0).
    assert (Ez : Qeq_bool (round64 sf) 0 = false).
    { destruct (Qeq_bool (round64 sf) 0) eqn:Ez; trivial.
      apply Qeq_bool_iff in Ez. exfalso. lra. }
    rewrite Ez.
    assert (Hr : (0 <= round64 num)%Q) by now apply round64_nonneg.
    assert (Ha : (0 <= round64 num / round64 sf)%Q)
      by (apply Qdiv_nonneg; [exact Hr|lra]).
    assert (Ha0 : (0 <= round64 num / round64 sf0)%Q)
      by (apply Qdiv_nonneg; [exact Hr|lra]).
    assert (Hmm : (round64 (round64 num / round64 sf)
                   <= round64 (round64 num / round64 sf0))%Q)
      by (apply round64_mono; now apply Qdiv_le_den).
    destruct (to_double_nonneg _ Ha0) as [(E2 & _)|(E2 & _ & L2)]; rewrite E2;
      [discriminate|].
    intros H. inversion H. subst q0.
    destruct (to_double_nonneg _ Ha) as [(E1 & G1)|(E1 & P1 & _)]; rewrite E1.
    + exfalso. lra.
    + eexists. split; [reflexivity|]. split; assumption.
Qed.

(** *** Numbers that are doubles *)

Lemma rne_below_half n m : (m < inject_Z n + (1 # 2))%Q -> rne m <= n.
Proof.
  intros H. assert (Hf : (inject_Z (Qfloor m) <= m)%Q) by apply Qfloor_le.
  assert (Hfn : Qfloor m <= n).
  { assert (Hlt : (inject_Z (Qfloor m) < inject_Z (n + 1))%Q).
    { rewrite inject_Z_plus. change (inject_Z 1) with 1%Q. lra. }
    rewrite <- Zlt_Qlt in Hlt. lia. }
  destruct (Z.eq_dec (Qfloor m) n) as [E|N].
  - unfold rne. cbv zeta. rewrite E.
    assert (C : (m - inject_Z n < 1 # 2)%Q) by lra.
    now rewrite (Qcompare_Lt _ _ C).
  - assert (B := rne_bounds m). lia.
Qed.

(** A number with at most 53 significant bits and an exponent in range
    is left as it is. *)
Lemma round64_dyadic n k :
  0 < n < 2 ^ 53 -> -1074 <= k ->
  (round64 (inject_Z n * pow2 k) == inject_Z n * pow2 k)%Q.
Proof.
  intros Hn Hk. set (y := (inject_Z n * pow2 k)%Q).
  assert (Hpk := pow2_pos k).
  assert (Hn0 : (0 < inject_Z n)%Q) by (rewrite <- (Zlt_Qlt 0); lia).
  assert (Hy : (0 < y)%Q) by (unfold y; apply Qmult_lt_0_compat; assumption).
  rewrite (round64_pos y Hy), round_pos_unfold.
  destruct (ilog2_spec y Hy) as (S1 & _).
  assert (Hlt : (y < pow2 (k + 53))%Q).
  { unfold y. rewrite Z.add_comm, pow2_add, (pow2_Z 53) by lia.
    apply Qmult_lt_compat_r; [exact Hpk|]. rewrite <- Zlt_Qlt. lia. }
  assert (He : bexp y <= k + 52).
  { assert (ilog2 y < k + 53) by (apply pow2_lt_inv; lra).
    unfold bexp. lia. }
  set (e := bexp y) in *. set (j := k + 52 - e).
  assert (Hj : 0 <= j) by (unfold j; lia).
  assert (Hu := pow2_pos (e - 52)).
  assert (Em : (y / pow2 (e - 52) == inject_Z (n * 2 ^ j))%Q).
  { rewrite inject_Z_mult, <- (pow2_Z j) by exact Hj. unfold y.
    assert (Ek : (pow2 k == pow2 j * pow2 (e - 52))%Q).
    { rewrite <- pow2_add. now replace (j + (e - 52)) with k by (unfold j; lia). }
    rewrite Ek. field. lra. }
  rewrite (rne_eq _ _ Em), rne_Z.
  rewrite inject_Z_mult, <- (pow2_Z j) by exact Hj. unfold y.
  assert (Ek : (pow2 k == pow2 j * pow2 (e - 52))%Q).
  { rewrite <- pow2_add. now replace (j + (e - 52)) with k by (unfold j; lia). }
  rewrite Ek. ring.
Qed.

Lemma round64_below_dyadic n k x :
  0 < n < 2 ^ 53 -> -1074 <= k ->
  (x <= inject_Z n * pow2 k)%Q -> (round64 x <= inject_Z n * pow2 k)%Q.
Proof.
  intros Hn Hk H. rewrite <- (round64_dyadic n k Hn Hk). now apply round64_mono.
Qed.

(** Less than half a unit in the last place above an integer rounds no
    higher than the integer. *)
Lemma round64_half_ulp N x :
  1 <= N < 2 ^ 53 ->
  (x < inject_Z N + pow2 (Z.log2 N - 53))%Q -> (round64 x <= inject_Z N)%Q.
Proof.
  intros HN Hx. set (e := Z.log2 N).
  assert (He : 0 <= e) by apply Z.log2_nonneg.
  destruct (Z.log2_spec N) as (L1 & L2); [lia|]. fold e in L1, L2.
  replace (Z.succ e) with (e + 1) in L2 by lia.
  assert (He52 : e <= 52).
  { assert (2 ^ e < 2 ^ 53) by lia.
    apply Z.pow_lt_mono_r_iff in H; lia. }
  destruct (Qlt_le_dec x (inject_Z N)) as [Hlow|Hhigh].
  - assert (E : (inject_Z N == inject_Z N * pow2 0)%Q)
      by (unfold pow2; simpl; ring).
    rewrite E. apply round64_below_dyadic; [lia|lia|]. rewrite <- E. lra.
  - assert (HN0 : (0 < inject_Z N)%Q) by (rewrite <- (Zlt_Qlt 0); lia).
    assert (Hx0 : (0 < x)%Q) by lra.
    rewrite (round64_pos x Hx0), round_pos_unfold.
    assert (Hh := pow2_pos (e - 53)).
    assert (Hh1 : (pow2 (e - 53) < 1)%Q).
    { change 1%Q with (pow2 0). apply pow2_lt. lia. }
    assert (Il : ilog2 x = e).
    { apply ilog2_unique.
      - rewrite pow2_Z by lia. apply Qle_trans with (inject_Z N); [|exact Hhigh].
        rewrite <- Zle_Qle. exact L1.
      - rewrite pow2_Z by lia.
        assert (Hle : (inject_Z N + 1 <= inject_Z (2 ^ (e + 1)))%Q).
        { change 1%Q with (inject_Z 1). rewrite <- inject_Z_plus, <- Zle_Qle. lia. }
        fold e in Hx. lra. }
    assert (Eb : bexp x = e) by (unfold bexp; rewrite Il; lia).
    rewrite Eb. assert (Hu := pow2_pos (e - 52)).
    set (j := 52 - e). assert (Hj : 0 <= j) by (unfold j; lia).
    assert (EN : (inject_Z N == inject_Z (N * 2 ^ j) * pow2 (e - 52))%Q).
    { rewrite inject_Z_mult, <- (pow2_Z j) by exact Hj.
      rewrite <- Qmult_assoc, <- pow2_add.
      replace (j + (e - 52)) with 0 by (unfold j; lia).
      unfold pow2; simpl; ring. }
    rewrite EN. apply Qmult_le_compat_r; [|lra].
    rewrite <- Zle_Qle. apply rne_below_half.
    apply Qlt_shift_div_r; [exact Hu|].
    rewrite Qmult_plus_distr_l, <- EN.
    assert (Eh : ((1 # 2) * pow2 (e - 52) == pow2 (e - 53))%Q).
    { replace (e - 52) with (1 + (e - 53)) by lia. rewrite pow2_add.
      unfold pow2 at 1. simpl. field. }
    rewrite Eh. fold e in Hx. exact Hx.
Qed.

(** *** Rounding twice *)

Lemma round_pos_mantissa x :
  (0 < x)%Q -> 0 <= rne (x / pow2 (bexp x - 52)) <= 2 ^ 53.
Proof.
  intros Hx. set (e := bexp x). assert (Hu := pow2_pos (e - 52)). split.
  - apply rne_lower. apply Qle_shift_div_l; [exact Hu|].
    change (inject_Z 0) with 0%Q. lra.
  - apply rne_upper. apply Qle_shift_div_r; [exact Hu|].
    destruct (ilog2_spec x Hx) as (_ & H2).
    rewrite <- (pow2_Z 53) by lia. rewrite <- pow2_add.
    replace (53 + (e - 52)) with (e + 1) by lia.
    apply Qle_trans with (pow2 (ilog2 x + 1)); [lra|].
    apply pow2_le. unfold e, bexp. lia.
Qed.

Lemma round_pos_idem x : (0 < x)%Q -> (round64 (round_pos x) == round_pos x)%Q.
Proof.
  intros Hx. rewrite round_pos_unfold.
  assert (Hm := round_pos_mantissa x Hx).
  set (n := rne (x / pow2 (bexp x - 52))) in *.
  assert (Hk : -1074 <= bexp x - 52) by (unfold bexp; lia).
  destruct (Z.eq_dec n 0) as [E0|N0].
  - rewrite E0. rewrite round64_zero; [ring|]. ring.
  - destruct (Z.eq_dec n (2 ^ 53)) as [E1|N1].
    + assert (E : (inject_Z n * pow2 (bexp x - 52)
                   == inject_Z 1 * pow2 (bexp x + 1))%Q).
      { rewrite E1. rewrite <- (pow2_Z 53) by lia. rewrite <- pow2_add.
        replace (53 + (bexp x - 52)) with (bexp x + 1) by lia.
        change (inject_Z 1) with 1%Q. ring. }
      rewrite (round64_eq _ _ E), E. apply round64_dyadic; lia.
    + apply round64_dyadic; lia.
Qed.

(** A double is left as it is: rounding twice is rounding once. *)
Lemma round64_idem x : (round64 (round64 x) == round64 x)%Q.
Proof.
  destruct (Q_dec x 0) as [[Hx|Hx]|Hx].
  - rewrite (round64_neg x Hx).
    assert (H0 : (0 <= round_pos (- x))%Q) by (apply round_pos_nonneg; lra).
    destruct (Qle_lt_or_eq _ _ H0) as [Hp|Hz].
    + assert (I := round_pos_idem (- x) ltac:(lra)).
      set (y := round_pos (- x)) in *.
      rewrite round64_neg by lra.
      assert (A : (round_pos (- - y) == y)%Q).
      { rewrite <- (round64_pos (- - y)) by lra.
        rewrite (round64_eq (- - y) y) by ring. exact I. }
      now rewrite A.
    + rewrite round64_zero by (rewrite <- Hz; ring). rewrite <- Hz. ring.
  - rewrite (round64_pos x Hx). now apply round_pos_idem.
  - rewrite (round64_zero x Hx). now rewrite round64_zero.
Qed.

(** *** The error of rounding *)

Lemma rne_err_low m : (m - (1 # 2) <= inject_Z (rne m))%Q.
Proof.
  assert (Hf : (m < inject_Z (Qfloor m + 1))%Q) by apply Qlt_floor.
  rewrite inject_Z_plus in Hf. change (inject_Z 1) with 1%Q in Hf.
  unfold rne. cbv zeta.
  destruct (m - inject_Z (Qfloor m) ?= 1 # 2)%Q eqn:C.
  - apply Qeq_alt in C. destruct (Z.even (Qfloor m)).
    + lra.
    + rewrite inject_Z_plus. change (inject_Z 1) with 1%Q. lra.
  - apply Qlt_alt in C. lra.
  - rewrite inject_Z_plus. change (inject_Z 1) with 1%Q. lra.
Qed.

(** Rounding lowers a positive number by at most half a unit in its
    last place. *)
Lemma round_pos_err x :
  (0 < x)%Q -> (x - pow2 (bexp x - 53) <= round_pos x)%Q.
Proof.
  intros Hx. rewrite round_pos_unfold.
  assert (Hu := pow2_pos (bexp x - 52)).
  assert (Eh : (pow2 (bexp x - 53) == (1 # 2) * pow2 (bexp x - 52))%Q).
  { replace (bexp x - 52) with (1 + (bexp x - 53)) by lia. rewrite pow2_add.
    unfold pow2 at 2. simpl. field. }
  assert (E : (x - pow2 (bexp x - 53)
               == (x / pow2 (bexp x - 52) - (1 # 2)) * pow2 (bexp x - 52))%Q).
  { rewrite Eh. field. lra. }
  rewrite E. apply Qmult_le_compat_r; [apply rne_err_low|lra].
Qed.

Lemma ilog2_lt x k : (0 < x)%Q -> (x < pow2 k)%Q -> ilog2 x < k.
Proof.
  intros Hx H. destruct (ilog2_spec x Hx) as (S1 & _).
  apply pow2_lt_inv. lra.
Qed.

Lemma round64_err x k :
  (0 < x)%Q -> (x < pow2 k)%Q -> -1021 <= k ->
  (x - pow2 (k - 54) <= round64 x)%Q.
Proof.
  intros Hx Hk Hr. rewrite (round64_pos x Hx).
  assert (Hi := ilog2_lt x k Hx Hk).
  assert (Hb : bexp x - 53 <= k - 54) by (unfold bexp; lia).
  assert (Hp := pow2_le _ _ Hb).
  assert (He := round_pos_err x Hx). lra.
Qed.

(** *** The two quotients over the 16-bit range *)

Lemma round64_1_2 : (round64 1.2 == 1.2 - (4 # 10) * pow2 (-53))%Q.
Proof. vm_compute. reflexivity. Qed.

Lemma round64_0_99 : (round64 0.99 <= 0.99)%Q.
Proof. vm_compute. discriminate. Qed.

Lemma pow2_m53_small : (pow2 (-53) < 1 # 32768)%Q.
Proof. vm_compute. reflexivity. Qed.

(** For a reflectance [N] of the 16-bit range, with [s] the double
    nearest to [1.2 / N]: the double nearest to 1.2, divided by [s],
    is less than half a unit in the last place above [N], and the
    double nearest to 0.99, divided by [s], is at most [N - 1/8]. *)
Lemma cap_certificate N :
  1 <= N <= INT16_MAX ->
  let s := round64 (1.2 / inject_Z N) in
  (0 < s)%Q /\
  (round64 1.2 < (inject_Z N + pow2 (Z.log2 N - 53)) * s)%Q /\
  (round64 0.99 <= (inject_Z (8 * N - 1) * pow2 (-3)) * s)%Q.
Proof.
  intros HN. cbv zeta. unfold INT16_MAX in HN.
  set (e := Z.log2 N). set (P := 2 ^ e).
  assert (He : 0 <= e) by apply Z.log2_nonneg.
  destruct (Z.log2_spec N) as (L1 & L2); [lia|]. fold e in L1, L2. fold P in L1.
  replace (Z.succ e) with (e + 1) in L2 by lia.
  assert (HP2 : 2 ^ (e + 1) = 2 * P) by (unfold P; rewrite Z.pow_add_r by lia; lia).
  rewrite HP2 in L2.
  assert (HP0 : 0 < P) by (unfold P; apply Z.pow_pos_nonneg; lia).
  assert (He14 : e <= 14).
  { assert (H : 2 ^ e < 2 ^ 15) by (change (2 ^ 15) with 32768; fold P; lia).
    apply Z.pow_lt_mono_r_iff in H; lia. }
  set (n := inject_Z N). set (p := inject_Z P). set (eps := pow2 (-53)).
  assert (Hn : (1 <= n)%Q) by (unfold n; rewrite <- (Zle_Qle 1); lia).
  assert (Hp : (1 <= p)%Q) by (unfold p; rewrite <- (Zle_Qle 1); lia).
  assert (Hpn : (p <= n)%Q) by (unfold p, n; rewrite <- Zle_Qle; lia).
  assert (Hn2p : (n + 1 <= 2 * p)%Q).
  { unfold p, n. change 1%Q with (inject_Z 1). change 2%Q with (inject_Z 2).
    rewrite <- inject_Z_plus, <- inject_Z_mult, <- Zle_Qle. lia. }
  assert (Hp14 : (p <= 16384)%Q).
  { unfold p. change 16384%Q with (inject_Z (2 ^ 14)). rewrite <- Zle_Qle.
    unfold P. apply Z.pow_le_mono_r; lia. }
  assert (Heps : (0 < eps)%Q) by apply pow2_pos.
  assert (Heps' : (eps < 1 # 32768)%Q) by apply pow2_m53_small.
  assert (Ep : (pow2 e == p)%Q) by (unfold p, P; now rewrite pow2_Z).
  assert (Epm : (pow2 (- e) == / p)%Q).
  { assert (H := pow2_add (- e) e). replace (- e + e) with 0 in H by lia.
    rewrite Ep in H. change (pow2 0) with 1%Q in H.
    apply Qmult_inj_r with p; [lra|]. rewrite <- H. field. lra. }
  assert (Eh : (pow2 (e - 53) == p * eps)%Q).
  { replace (e - 53) with (e + -53) by lia. rewrite pow2_add, Ep. reflexivity. }
  assert (Eu1 : (pow2 (- e - 53) == eps / p)%Q).
  { replace (- e - 53) with (- e + -53) by lia. rewrite pow2_add, Epm.
    unfold eps. field. lra. }
  assert (Eu2 : (pow2 (- e - 54) == eps / (2 * p))%Q).
  { replace (- e - 54) with (-1 + (- e - 53)) by lia. rewrite pow2_add, Eu1.
    change (pow2 (-1)) with (/ 2)%Q. field. lra. }
  set (x := (1.2 / n)%Q).
  assert (Hx : (0 < x)%Q) by (unfold x; apply Qlt_shift_div_l; lra).
  assert (Hxn : (x * n == 1.2)%Q) by (unfold x; field; lra).
  (* the number rounded is below 2 / p, and below 1 / p for N > 1.2 P *)
  assert (Hx1 : (x < pow2 (1 - e))%Q).
  { replace (1 - e) with (1 + - e) by lia. rewrite pow2_add, Epm.
    change (pow2 1) with 2%Q. unfold x.
    apply Qdiv_lt_cross; lra. }
  assert (S1 : (x - eps / p <= round64 x)%Q).
  { assert (H := round64_err x (1 - e) Hx Hx1 ltac:(lia)).
    replace (1 - e - 54) with (- e - 53) in H by lia.
    rewrite Eu1 in H. exact H. }
  assert (Hep : (0 < eps / p)%Q) by (apply Qlt_shift_div_l; lra).
  assert (Hepn : (eps / p <= 2 * eps / n)%Q).
  { apply Qle_shift_div_r; [lra|].
    assert (E : (2 * eps / n * p == 2 * eps * (p / n))%Q) by (field; lra).
    rewrite E.
    assert (Hq : (1 # 2 <= p / n)%Q) by (apply Qle_shift_div_l; lra).
    assert (Hm : (2 * eps * (1 # 2) <= 2 * eps * (p / n))%Q)
      by (apply Qmult_le_l; lra).
    lra. }
  assert (S0 : ((1.2 - 2 * eps) / n <= round64 x)%Q).
  { assert (E : ((1.2 - 2 * eps) / n == x - 2 * eps / n)%Q)
      by (unfold x; field; lra).
    rewrite E. lra. }
  assert (Hs0 : (0 < round64 x)%Q).
  { apply Qlt_le_trans with ((1.2 - 2 * eps) / n)%Q; [|exact S0].
    apply Qlt_shift_div_l; lra. }
  split; [exact Hs0|]. split.
  - rewrite round64_1_2, Eh. fold eps.
    (* t = N / P and w = P / N *)
    set (t := (n / p)%Q). set (w := (p / n)%Q).
    assert (Ht1 : (1 <= t)%Q) by (unfold t; apply Qle_shift_div_l; lra).
    assert (Hw1 : (1 # 2 < w)%Q) by (unfold w; apply Qlt_shift_div_l; lra).
    assert (Hnp : (0 < n + p * eps)%Q).
    { assert (0 < p * eps)%Q by (apply Qmult_lt_0_compat; lra). lra. }
    destruct (Z_le_gt_dec (5 * N) (6 * P)) as [HA|HB].
    + (* N <= 1.2 P *)
      assert (Ht : (t <= 12 # 10)%Q).
      { unfold t. apply Qle_shift_div_r; [lra|].
        assert (H5 : (5 * n <= 6 * p)%Q).
        { unfold n, p. change 5%Q with (inject_Z 5). change 6%Q with (inject_Z 6).
          rewrite <- !inject_Z_mult, <- Zle_Qle. exact HA. }
        lra. }
      assert (Hw : (10 # 12 <= w)%Q).
      { unfold w. apply Qle_shift_div_l; [lra|].
        assert (H5 : (5 * n <= 6 * p)%Q).
        { unfold n, p. change 5%Q with (inject_Z 5). change 6%Q with (inject_Z 6).
          rewrite <- !inject_Z_mult, <- Zle_Qle. exact HA. }
        lra. }
      apply Qlt_le_trans with ((n + p * eps) * (x - eps / p))%Q.
      * assert (E : ((n + p * eps) * (x - eps / p)
                     == 1.2 - (4 # 10) * eps
                        + eps * ((12 # 10) * w - t + (4 # 10) - eps))%Q)
          by (unfold x, t, w; field; lra).
        rewrite E.
        assert (Hd : (0 < eps * ((12 # 10) * w - t + (4 # 10) - eps))%Q)
          by (apply Qmult_lt_0_compat; lra).
        lra.
      * apply Qmult_le_l; [exact Hnp|exact S1].
    + (* N > 1.2 P *)
      assert (Hx2 : (x < pow2 (- e))%Q).
      { rewrite Epm. unfold x.
        assert (E1 : (/ p == 1 / p)%Q) by (field; lra). rewrite E1.
        apply Qdiv_lt_cross; [lra|lra|].
        assert (H5 : (6 * p < 5 * n)%Q).
        { unfold n, p. change 5%Q with (inject_Z 5). change 6%Q with (inject_Z 6).
          rewrite <- !inject_Z_mult, <- Zlt_Qlt. lia. }
        lra. }
      assert (S2 : (x - eps / (2 * p) <= round64 x)%Q).
      { assert (H := round64_err x (- e) Hx Hx2 ltac:(lia)).
        rewrite Eu2 in H. exact H. }
      assert (Ht : (t <= 2 - / p)%Q).
      { unfold t. apply Qle_shift_div_r; [lra|].
        assert (E : ((2 - / p) * p == 2 * p - 1)%Q) by (field; lra).
        rewrite E. lra. }
      assert (Hip : (1 # 16384 <= / p)%Q).
      { assert (E1 : (/ p == 1 / p)%Q) by (field; lra). rewrite E1.
        apply Qle_shift_div_l; lra. }
      apply Qlt_le_trans with ((n + p * eps) * (x - eps / (2 * p)))%Q.
      * assert (E : ((n + p * eps) * (x - eps / (2 * p))
                     == 1.2 - (4 # 10) * eps
                        + eps * ((12 # 10) * w - (1 # 2) * t + (4 # 10)
                                 - (1 # 2) * eps))%Q)
          by (unfold x, t, w; field; lra).
        rewrite E.
        assert (Hd : (0 < eps * ((12 # 10) * w - (1 # 2) * t + (4 # 10)
                                 - (1 # 2) * eps))%Q)
          by (apply Qmult_lt_0_compat; lra).
        lra.
      * apply Qmult_le_l; [exact Hnp|exact S2].
  - assert (E8 : (pow2 (-3) == 1 # 8)%Q) by reflexivity.
    replace (8 * N - 1) with (8 * N + -1) by lia.
    rewrite inject_Z_plus, inject_Z_mult, E8. fold n.
    change (inject_Z 8) with 8%Q. change (inject_Z (-1)) with (-1)%Q.
    assert (Hy : (0 < (8 * n + -1) * (1 # 8))%Q) by lra.
    apply Qle_trans with (((8 * n + -1) * (1 # 8)) * ((1.2 - 2 * eps) / n))%Q.
    + assert (E : (((8 * n + -1) * (1 # 8)) * ((1.2 - 2 * eps) / n)
                   == (1.2 - 2 * eps) * (1 - (1 # 8) / n))%Q) by (field; lra).
      rewrite E.
      assert (Hin : ((1 # 8) / n <= 1 # 8)%Q)
        by (apply Qle_shift_div_r; lra).
      assert (Hm : ((1.2 - 2 * eps) * (7 # 8)
                    <= (1.2 - 2 * eps) * (1 - (1 # 8) / n))%Q)
        by (apply Qmult_le_l; lra).
      assert (H99 := round64_0_99). lra.
    + apply Qmult_le_l; [exact Hy|exact S0].
Qed.

Lemma local_at_TMBandIndx i v :
  local_at TMBandIndx i = Some v -> 0 <= i < 6.
Proof.
  unfold local_at. destruct (i <? 0) eqn:E; [discriminate|].
  apply Z.ltb_ge in E. intros H.
  assert (Hl : (Z.to_nat i < length TMBandIndx)%nat).
  { apply nth_error_Some. congruence. }
  simpl in Hl. lia.
Qed.


(** ** What one pass of the band loop may touch *)

Section Frame.
Context {hdr : lndsr_albedo_h}.

Lemma set_OneRowlndSR_id s : s = set_OneRowlndSR s (OneRowlndSR s).
Proof. now destruct s. Qed.

Lemma band_frame_refl col i m : band_frame col i m m.
Proof.
  repeat split; auto using set_OneRowlndSR_id.
Qed.

Lemma set_pair_frame col i m a0 a1 : band_frame col i m (set_pair m i a0 a1).
Proof.
  repeat split; simpl; auto using set_OneRowlndSR_id.
  intros j H0 H1. now rewrite !upd_other.
Qed.

Lemma anisotropic_block_frame col i tmp m l m' l' :
  anisotropic_block col i tmp m l = Next m' l' -> band_frame col i m m'.
Proof.
  unfold anisotropic_block. destruct tmp as [[b0 b1] b2].
  destruct (negb _ && negb _); [|intros H; inversion H; apply band_frame_refl].
  destruct (CalculateANratio _ _ _ _ _) as [[status wsa] bsa].
  destruct (negb (status =? SUCCESS)); [discriminate|].
  destruct (clamp_lndSR _ _) as [r|] eqn:Hc; [|discriminate].
  destruct (narrow_pair _ _ _ _) as [[a0 a1] neg].
  intros H; inversion H; subst; clear H.
  repeat split; simpl; auto.
  - intros b c. destruct (Z.eq_dec b i) as [->|Hb];
      [destruct (Z.eq_dec c col) as [->|Hcol]|].
    + right. now rewrite upd2_same.
    + left. apply upd2_other; auto.
    + left. apply upd2_other; auto.
  - intros j H0 H1. now rewrite !upd_other.
Qed.

Lemma isotropic_block_frame col i tmp m l m' l' :
  isotropic_block col i tmp m l = (m', l') -> band_frame col i m m'.
Proof.
  unfold isotropic_block. destruct tmp as [[b0 b1] b2].
  destruct (_ && _); intros H; inversion H; subst.
  - apply set_pair_frame.
  - apply band_frame_refl.
Qed.

Lemma band_frame_trans col i m1 m2 m3 :
  band_frame col i m1 m2 -> m3 = m2 \/ (exists a0 a1, m3 = set_pair m2 i a0 a1) ->
  band_frame col i m1 m3.
Proof.
  intros H [->|(a0 & a1 & ->)]; trivial.
  destruct H as (Hs & Hq & Hr & Ha). repeat split; simpl; auto.
  intros j H0 H1. rewrite !upd_other by trivial. auto.
Qed.

Lemma isotropic_block_shape col i tmp m l m' l' :
  isotropic_block col i tmp m l = (m', l') ->
  m' = m \/ (exists a0 a1, m' = set_pair m i a0 a1).
Proof.
  unfold isotropic_block. destruct tmp as [[b0 b1] b2].
  destruct (_ && _); intros H; inversion H; subst; eauto.
Qed.

(** The pieces of a pass that runs to its end. *)
Lemma band_body_Next col icls i m l m' l' :
  band_body col icls i m l = Next m' l' ->
  exists TM_Indx BRDFcls t tmp m1 l1 l2,
    local_at TMBandIndx i = Some TM_Indx /\
    resolve_class (sensor m) icls TM_Indx (tmpQA l) = Some (BRDFcls, t) /\
    round_BRDF (sensor m) BRDFcls TM_Indx = Some tmp /\
    anisotropic_block col i tmp m (mkLocals t (lndSR_flag l)) = Next m1 l1 /\
    isotropic_block col i tmp m1 l1 = (m', l2) /\
    l' = nodata_block col i m' l2.
Proof.
  unfold band_body.
  destruct (local_at TMBandIndx i) as [TM_Indx|] eqn:Hx; [|discriminate].
  destruct (resolve_class _ _ _ _) as [[BRDFcls t]|] eqn:Hc; [|discriminate].
  destruct (round_BRDF _ _ _) as [tmp|] eqn:Hr; [|discriminate].
  destruct (anisotropic_block _ _ _ _ _) as [m1 l1|] eqn:Ha; [|discriminate].
  destruct (isotropic_block _ _ _ _ _) as [m2 l2] eqn:Hi.
  intros H; inversion H; subst.
  exists TM_Indx, BRDFcls, t, tmp, m1, l1, l2. repeat split; trivial.
Qed.

Lemma anisotropic_block_Stop col i tmp m l o :
  anisotropic_block col i tmp m l = Stop o -> o = Exit 1 m \/ o = Undefined.
Proof.
  unfold anisotropic_block. destruct tmp as [[b0 b1] b2].
  destruct (negb _ && negb _); [|discriminate].
  destruct (CalculateANratio _ _ _ _ _) as [[status wsa] bsa].
  destruct (negb (status =? SUCCESS)); [intros H; inversion H; auto|].
  destruct (clamp_lndSR _ _) as [r|]; [|intros H; inversion H; auto].
  destruct (narrow_pair _ _ _ _) as [[a0 a1] neg]. discriminate.
Qed.

(** A pass that leaves the loop early leaves the machine as it found it. *)
Lemma band_body_Stop col icls i m l o :
  band_body col icls i m l = Stop o ->
  o = Return FAILURE m \/ o = Exit 1 m \/ o = Undefined.
Proof.
  unfold band_body.
  destruct (local_at TMBandIndx i) as [TM_Indx|]; [|intros H; inversion H; auto].
  destruct (resolve_class _ _ _ _) as [[BRDFcls t]|]; [|intros H; inversion H; auto].
  destruct (round_BRDF _ _ _) as [tmp|]; [|intros H; inversion H; auto].
  destruct (anisotropic_block _ _ _ _ _) as [m1 l1|] eqn:Ha.
  - destruct (isotropic_block _ _ _ _ _). discriminate.
  - intros H; inversion H; subst.
    destruct (anisotropic_block_Stop _ _ _ _ _ _ Ha); auto.
Qed.

Lemma band_body_frame col icls i m l m' l' :
  band_body col icls i m l = Next m' l' ->
  0 <= i < 6 /\ band_frame col i m m'.
Proof.
  intros H. apply band_body_Next in H.
  destruct H as (idx & cls & t & tmp & m1 & l1 & l2 & Hi & _ & _ & Ha & Hb & _).
  split; [eapply local_at_TMBandIndx; eauto|].
  eapply band_frame_trans.
  - eapply anisotropic_block_frame; eauto.
  - eapply isotropic_block_shape; eauto.
Qed.


Lemma loop_frame_refl col i k m : loop_frame col i k m m.
Proof. repeat split; auto using set_OneRowlndSR_id. Qed.

Lemma loop_frame_step col i k m m1 m' :
  band_frame col i m m1 -> loop_frame col (i + 1) k m1 m' ->
  loop_frame col i (S k) m m'.
Proof.
  intros (Hs & Hq & Hr & Ha) (Hs' & Hq' & Hr' & Ha').
  assert (Hsf : lndSR_ScaFct (sensor m1) = lndSR_ScaFct (sensor m))
    by (rewrite Hs; reflexivity).
  split; [|split; [|split]].
  - rewrite Hs', Hs. reflexivity.
  - congruence.
  - intros b c. destruct (Hr' b c) as [E'|(Hb' & Hc' & E')];
      destruct (Hr b c) as [E|(Hb & Hc & E)].
    + left. congruence.
    + right. rewrite E'. repeat split; trivial; lia.
    + right. rewrite <- E, <- Hsf. repeat split; trivial; lia.
    + lia.
  - intros j Hj. rewrite Ha' by lia. apply Ha; lia.
Qed.

Lemma band_loop_frame col icls k : forall i m l m' l',
  band_loop col icls k i m l = Next m' l' ->
  (k = O \/ (0 <= i /\ i + Z.of_nat k <= 6)) /\ loop_frame col i k m m'.
Proof.
  induction k as [|k IH]; simpl; intros i m l m' l' H.
  - inversion H; subst. split; auto using loop_frame_refl.
  - destruct (band_body col icls i m l) as [m1 l1|] eqn:Hb; [|discriminate].
    apply band_body_frame in Hb. destruct Hb as (Hi & Hf).
    apply IH in H. destruct H as (Hk & Hl).
    split; [right; lia|]. eapply loop_frame_step; eauto.
Qed.

(** A loop that ends early ends with a failure return, an exit or
    undefined behaviour, and the machine it leaves is the one it
    reached before the pass that ended it. *)
Lemma band_loop_Stop col icls k : forall i m l o,
  band_loop col icls k i m l = Stop o ->
  exists (j : nat) m1 l1,
    (j < k)%nat /\ band_loop col icls j i m l = Next m1 l1 /\
    band_body col icls (i + Z.of_nat j) m1 l1 = Stop o /\
    (o = Return FAILURE m1 \/ o = Exit 1 m1 \/ o = Undefined).
Proof.
  induction k as [|k IH]; simpl; intros i m l o H; [discriminate|].
  destruct (band_body col icls i m l) as [m1 l1|] eqn:Hb.
  - apply IH in H. destruct H as (j & m2 & l2 & Hj & Hl & Hs & Ho).
    exists (S j), m2, l2.
    replace (i + Z.of_nat (S j)) with (i + 1 + Z.of_nat j) by lia.
    split; [lia|]. split; [simpl; now rewrite Hb|]. split; assumption.
  - inversion H; subst. exists O, m, l. rewrite Z.add_0_r.
    split; [lia|]. split; [reflexivity|]. split; [assumption|].
    eapply band_body_Stop; eauto.
Qed.

End Frame.

(** ** The paths through [CalculateAlbedo] *)

Section Paths.
Context {hdr : lndsr_albedo_h}.

Lemma CalculateAlbedo_path s a row col qa snow_flag :
  path s a col qa snow_flag (CalculateAlbedo s a row col qa snow_flag).
Proof.
  unfold CalculateAlbedo.
  destruct (class_invalid s (Clsdata s col)) eqn:Hc; [now apply path_class|].
  destruct (band_loop _ _ _ _ _ _) as [m l|o] eqn:Hl; [|now apply path_stop].
  destruct (lndSR_flag l =? 0) eqn:Hf; cbn [negb].
  - apply Z.eqb_eq in Hf. exact (path_success s a col qa snow_flag m l Hc Hl Hf).
  - apply Z.eqb_neq in Hf. exact (path_nodata s a col qa snow_flag m l Hc Hl Hf).
Qed.

(** The success path: the classifier runs on the caller's quality code
    and the sensor's band count, then the broadband stage. *)
Lemma CalculateAlbedo_success s a row col qa snow_flag m l :
  class_invalid s (Clsdata s col) = false ->
  band_loop col (Clsdata s col) (Z.to_nat (nbands s)) 0
            (mkMachine s a qa) (mkLocals tally0 0) = Next m l ->
  lndSR_flag l = 0 ->
  CalculateAlbedo s a row col qa snow_flag
  = Return SUCCESS
      (broadband (select_sw (instrument s) snow_flag)
                 (select_vis (instrument s) snow_flag)
                 (select_nir (instrument s) snow_flag) col
                 (mkMachine (sensor m) (lndPixAlbedo m)
                            (QA_classify (tmpQA l) (nbands s) qa))).
Proof.
  intros Hc Hl Hf. unfold CalculateAlbedo. rewrite Hc, Hl.
  apply Z.eqb_eq in Hf. rewrite Hf. cbn [negb].
  apply band_loop_frame in Hl. destruct Hl as (_ & Hs & Hq & _).
  simpl in Hs, Hq. rewrite Hq, Hs. reflexivity.
Qed.

End Paths.

(** ** Coefficient selection *)

Section Selection.
Context {hdr : lndsr_albedo_h}.

(** C10.  With distinct codes for the two recognised instruments, the
    shortwave table is a total function of the instrument and the
    snow flag: the operational land imager reads [LC8_n2b_lib], or
    [LC8_n2b_lib_snow] under a nonzero snow flag; the multispectral
    imager reads [MSI_n2b_lib_sw], or [MSI_n2b_lib_sw_snow] under a
    nonzero snow flag; every other instrument value reads the legacy
    TM table.  The visible and near-infrared tables are the same for
    both values of the snow flag. *)
Theorem C10_coefficient_selection (inst snow_flag : Z) :
  _OLI_ <> MSI ->
  (inst = _OLI_ ->
   select_sw inst snow_flag
   = if snow_flag =? 0 then LC8_n2b_lib else LC8_n2b_lib_snow) /\
  (inst = MSI ->
   select_sw inst snow_flag
   = if snow_flag =? 0 then MSI_n2b_lib_sw else MSI_n2b_lib_sw_snow) /\
  (inst <> _OLI_ -> inst <> MSI ->
   select_sw inst snow_flag = _TM_coefficents_sw) /\
  (forall snow_flag', select_vis inst snow_flag = select_vis inst snow_flag') /\
  (forall snow_flag', select_nir inst snow_flag = select_nir inst snow_flag').
Proof.
  intros Hcodes. unfold select_sw. repeat split.
  - intros ->. rewrite Z.eqb_refl. now destruct (snow_flag =? 0).
  - intros ->. assert (E : (MSI =? _OLI_) = false) by (apply Z.eqb_neq; auto).
    rewrite E, Z.eqb_refl. now destruct (snow_flag =? 0).
  - intros H1 H2. apply Z.eqb_neq in H1, H2. now rewrite H1, H2.
Qed.

End Selection.

Lemma C10_coefficient_selection_witness :
  select_sw (hdr := sample_h) 8 1 = LC8_n2b_lib_snow /\
  select_sw (hdr := sample_h) 9 0 = MSI_n2b_lib_sw /\
  select_sw (hdr := sample_h) 5 1 = _TM_coefficents_sw.
Proof.
  assert (Hcodes : @_OLI_ sample_h <> @MSI sample_h) by (simpl; lia).
  split; [|split].
  - apply (proj1 (C10_coefficient_selection (hdr := sample_h) 8 1 Hcodes)).
    reflexivity.
  - apply (proj1 (proj2 (C10_coefficient_selection (hdr := sample_h) 9 0 Hcodes))).
    reflexivity.
  - apply (proj1 (proj2 (proj2 (C10_coefficient_selection (hdr := sample_h) 5 1 Hcodes))));
      simpl; lia.
Defined.

(** ** QA classification *)

Section Classifier.
Context {hdr : lndsr_albedo_h}.

Lemma QA_classify_first_match t n qa :
  QA_classify t n qa = first_match (QA_rules t n) qa.
Proof. reflexivity. Qed.

(** C6.  When the class is valid, the band loop runs to its end and no
    band was fill, the quality code handed to the broadband stage is
    the code of the first rule, in priority order, that the tallies
    and the band count satisfy, and the caller's previous value of the
    quality code when no rule is satisfied. *)
Theorem C6_QA_first_matching_rule s a row col qa snow_flag m l :
  class_invalid s (Clsdata s col) = false ->
  band_loop col (Clsdata s col) (Z.to_nat (nbands s)) 0
            (mkMachine s a qa) (mkLocals tally0 0) = Next m l ->
  lndSR_flag l = 0 ->
  CalculateAlbedo s a row col qa snow_flag
  = Return SUCCESS
      (broadband (select_sw (instrument s) snow_flag)
                 (select_vis (instrument s) snow_flag)
                 (select_nir (instrument s) snow_flag) col
                 (mkMachine (sensor m) (lndPixAlbedo m)
                    (first_match (QA_rules (tmpQA l) (nbands s)) qa))).
Proof.
  intros Hc Hl Hf. rewrite (CalculateAlbedo_success s a row col qa snow_flag m l Hc Hl Hf).
  reflexivity.
Qed.

End Classifier.

Lemma C6_QA_first_matching_rule_witness :
  exists m l,
    lndSR_flag l = 0 /\
    first_match (QA_rules (tmpQA l) 6) 7 = 0 /\
    CalculateAlbedo (hdr := sample_h)
      (sample_sensor 20 weights_plain (fun _ => 100)) zero_vector 0 0 7 0
    = Return 0
        (broadband _TM_coefficents_sw TM_coefficents_vis
                   TM_coefficents_nir 0
                   (mkMachine (sensor m) (lndPixAlbedo m)
                              (first_match (QA_rules (tmpQA l) 6) 7))).
Proof.
  eexists. eexists.
  assert (Hl : band_loop (hdr := sample_h) 0 1 6 0
                 (mkMachine (sample_sensor 20 weights_plain (fun _ => 100))
                            zero_vector 7)
                 (mkLocals tally0 0) = Next _ _) by (vm_compute; reflexivity).
  split; [|split].
  3: exact (C6_QA_first_matching_rule (hdr := sample_h)
              (sample_sensor 20 weights_plain (fun _ => 100)) zero_vector
              0 0 7 0 _ _ eq_refl Hl eq_refl).
  all: reflexivity.
Defined.

(** ** The broadband rescue *)

Lemma lambert_loop_slots tbl s col i k : forall iband a,
  let a' := lambert_loop tbl s col i k iband a in
  (slot a' i == slot a i + lambert_terms tbl s col k iband)%Q /\
  (slot a' (i + 1) == slot a (i + 1) + lambert_terms tbl s col k iband)%Q /\
  (forall j, j <> i -> j <> i + 1 -> a' j = a j).
Proof.
  induction k as [|k IH]; intros iband a; simpl.
  - unfold slot. repeat split; ring.
  - unfold slot in *. destruct (IH (iband + 1)
      (upd (upd a i (a i + coef tbl iband * inject_Z (OneRowlndSR s iband col) * lndSR_ScaFct s)%Q)
           (i + 1)
           (upd a i (a i + coef tbl iband * inject_Z (OneRowlndSR s iband col) * lndSR_ScaFct s)%Q (i + 1)
            + coef tbl iband * inject_Z (OneRowlndSR s iband col) * lndSR_ScaFct s)%Q))
      as (H0 & H1 & H2).
    split; [|split].
    + rewrite H0. rewrite upd_other by lia. rewrite upd_same. ring.
    + rewrite H1. rewrite upd_same. rewrite upd_other by lia. ring.
    + intros j Hj Hj'. rewrite H2 by trivial. now rewrite !upd_other.
Qed.

(** A rescue that fires does not start from zero: each of the two
    slots ends as its value before the rescue plus the Lambertian
    value. *)
Lemma rescue_fired tbl col i m :
  Qle_bool (lndPixAlbedo m i) 0 || Qle_bool (lndPixAlbedo m (i + 1)) 0 = true ->
  let m' := rescue tbl col i m in
  QA m' = 4 /\ sensor m' = sensor m /\
  (lndPixAlbedo m' i == lndPixAlbedo m i + lambert_value tbl (sensor m) col)%Q /\
  (lndPixAlbedo m' (i + 1)
   == lndPixAlbedo m (i + 1) + lambert_value tbl (sensor m) col)%Q /\
  (forall j, j <> i -> j <> i + 1 -> lndPixAlbedo m' j = lndPixAlbedo m j).
Proof.
  intros H. unfold rescue, slot. rewrite H. simpl.
  destruct (lambert_loop_slots tbl (sensor m) col i
              (Z.to_nat (nbands (sensor m))) 0 (lndPixAlbedo m)) as (H0 & H1 & H2).
  unfold lambert_value. unfold slot in H0, H1. repeat split.
  - rewrite upd_other by lia. rewrite upd_same. rewrite H0. ring.
  - rewrite upd_same. rewrite upd_other by lia. rewrite H1. ring.
  - intros j Hj Hj'. rewrite !upd_other by trivial. now apply H2.
Qed.


Lemma rescue_QA tbl col i m :
  QA (rescue tbl col i m) = QA m \/ QA (rescue tbl col i m) = 4.
Proof.
  unfold rescue. destruct (_ || _); auto.
Qed.

Lemma rescue_sensor tbl col i m : sensor (rescue tbl col i m) = sensor m.
Proof. unfold rescue. destruct (_ || _); auto. Qed.

(** C1, against the code.  A rescue that fires sets the quality code to
    4 but leaves in each of its two slots the accumulator it found
    plus the Lambertian value, not the Lambertian value alone.  On the
    failing input, a legacy-instrument pixel whose six bands all have
    reflectance 0 and kernel weights 100, 20, 5, every narrow-band
    value is 0, both shortwave accumulators are the intercept -0.0063
    before the rescue and the Lambertian value is -0.0063 as well, yet
    slots 12 and 13 end at -0.0126. *)
Theorem C1_rescue_adds_to_the_accumulator :
  (forall tbl col i m,
      Qle_bool (lndPixAlbedo m i) 0 || Qle_bool (lndPixAlbedo m (i + 1)) 0
      = true ->
      QA (rescue tbl col i m) = 4 /\
      (lndPixAlbedo (rescue tbl col i m) i
       == lndPixAlbedo m i + lambert_value tbl (sensor m) col)%Q /\
      (lndPixAlbedo (rescue tbl col i m) (i + 1)
       == lndPixAlbedo m (i + 1) + lambert_value tbl (sensor m) col)%Q) /\
  let s := sample_sensor 20 weights_plain (fun _ => 0) in
  match CalculateAlbedo (hdr := sample_h) s zero_vector 0 0 7 0 with
  | Return r m =>
    r = 0 /\ QA m = 4 /\
    (n2b_sums _TM_coefficents_sw TM_coefficents_vis TM_coefficents_nir 6
              (lndPixAlbedo m) 12 == -0.0063)%Q /\
    (n2b_sums _TM_coefficents_sw TM_coefficents_vis TM_coefficents_nir 6
              (lndPixAlbedo m) 13 == -0.0063)%Q /\
    (lambert_value _TM_coefficents_sw s 0 == -0.0063)%Q /\
    (lndPixAlbedo m 12 == -0.0126)%Q /\
    (lndPixAlbedo m 13 == -0.0126)%Q /\
    ~ (lndPixAlbedo m 12 == lambert_value _TM_coefficents_sw s 0)%Q
  | _ => False
  end.
Proof.
  split.
  - intros tbl col i m Hfire.
    destruct (rescue_fired tbl col i m Hfire) as (Hq & _ & H0 & H1 & _).
    auto.
  - vm_compute. repeat split; try reflexivity. discriminate.
Qed.

(** ** Early failure of the closest-class search *)

Section Search.
Context {hdr : lndsr_albedo_h}.

Lemma band_loop_split col icls j k : forall i m l,
  band_loop col icls (j + k) i m l
  = match band_loop col icls j i m l with
    | Next m1 l1 => band_loop col icls k (i + Z.of_nat j) m1 l1
    | Stop o => Stop o
    end.
Proof.
  induction j as [|j IH]; intros i m l.
  - simpl. now rewrite Z.add_0_r.
  - cbn [band_loop Nat.add].
    destruct (band_body col icls i m l) as [m1 l1|o]; trivial.
    rewrite IH. replace (i + 1 + Z.of_nat j) with (i + Z.of_nat (S j)) by lia.
    reflexivity.
Qed.

Lemma resolve_class_search_fails s icls TM_Indx t :
  BRDFava_flg s icls TM_Indx <> 0 ->
  getClosestCls s icls TM_Indx = -1 ->
  resolve_class s icls TM_Indx t = None.
Proof.
  intros Hf Hc. unfold resolve_class.
  apply Z.eqb_neq in Hf. rewrite Hf, Hc. reflexivity.
Qed.

(** C9, as the code has it.  When the call reaches band [j] in machine
    state [m1], the class has no BRDF parameters of its own at that
    band and the closest-class search answers -1, the call returns
    FAILURE at once with the machine in state [m1]: the quality code
    is the caller's, the output slots of band [j] and above (the
    broadband slots among them) and the reflectance of band [j] and
    above are as before the call.  The slots of the bands below [j]
    keep what those bands wrote. *)
Theorem C9_search_failure_returns_at_once
        s a row col qa snow_flag (j : nat) m1 l1 TM_Indx :
  class_invalid s (Clsdata s col) = false ->
  (j < Z.to_nat (nbands s))%nat ->
  band_loop col (Clsdata s col) j 0 (mkMachine s a qa) (mkLocals tally0 0)
  = Next m1 l1 ->
  local_at TMBandIndx (Z.of_nat j) = Some TM_Indx ->
  BRDFava_flg (sensor m1) (Clsdata s col) TM_Indx <> 0 ->
  getClosestCls (sensor m1) (Clsdata s col) TM_Indx = -1 ->
  CalculateAlbedo s a row col qa snow_flag = Return FAILURE m1 /\
  QA m1 = qa /\
  (forall i, Z.of_nat j * 2 <= i -> lndPixAlbedo m1 i = a i) /\
  (forall b c, Z.of_nat j <= b -> OneRowlndSR (sensor m1) b c = OneRowlndSR s b c).
Proof.
  intros Hc Hj Hl Hi Hf Hs.
  assert (Hb : band_body col (Clsdata s col) (Z.of_nat j) m1 l1
               = Stop (Return FAILURE m1)).
  { unfold band_body. rewrite Hi.
    now rewrite (resolve_class_search_fails _ _ _ _ Hf Hs). }
  split.
  - unfold CalculateAlbedo. rewrite Hc.
    replace (Z.to_nat (nbands s)) with (j + S (Z.to_nat (nbands s) - S j))%nat by lia.
    rewrite band_loop_split, Hl. cbn [band_loop Z.add]. now rewrite Hb.
  - apply band_loop_frame in Hl. destruct Hl as (_ & _ & Hq & Hr & Ha).
    simpl in *. repeat split; trivial.
    + intros i Hi'. apply Ha. lia.
    + intros b c Hb'. destruct (Hr b c) as [E|(Hlt & _)]; [trivial|lia].
Qed.

End Search.

(** The search fails at the second band of a pixel whose first band has
    BRDF parameters. *)
Lemma C9_search_failure_returns_at_once_witness :
  exists m1,
    CalculateAlbedo (hdr := sample_h)
      (sample_sensor 20 weights_gap (fun _ => 100)) zero_vector 0 0 7 0
    = Return 1 m1 /\
    QA m1 = 7 /\
    (forall i, 2 <= i -> lndPixAlbedo m1 i = 0%Q) /\
    (forall b c, 1 <= b -> OneRowlndSR (sensor m1) b c = 100).
Proof.
  eexists.
  assert (Hl : band_loop (hdr := sample_h) 0 1 1 0
                 (mkMachine (sample_sensor 20 weights_gap (fun _ => 100))
                            zero_vector 7)
                 (mkLocals tally0 0) = Next _ _) by (vm_compute; reflexivity).
  refine (C9_search_failure_returns_at_once (hdr := sample_h)
            (sample_sensor 20 weights_gap (fun _ => 100)) zero_vector
            0 0 7 0 1 _ _ 3 eq_refl _ Hl eq_refl _ eq_refl).
  - simpl. lia.
  - vm_compute. discriminate.
Defined.

(** C9 as stated fails: on that pixel the search fails at the second
    band and the call returns FAILURE, but slot 0 of the output vector,
    zero before the call, holds the black-sky albedo 0.0075 of the
    first band. *)
Lemma C9_output_vector_changed :
  let s := sample_sensor 20 weights_gap (fun _ => 100) in
  BRDFava_flg s 1 3 = 1 /\
  getClosestCls (lndsr_albedo_h := sample_h) s 1 3 = -1 /\
  match CalculateAlbedo (hdr := sample_h) s zero_vector 0 0 7 0 with
  | Return r m =>
    r = 1 /\ QA m = 7 /\ (lndPixAlbedo m 0 == 0.0075)%Q /\
    ~ (lndPixAlbedo m 0 == zero_vector 0)%Q
  | _ => False
  end.
Proof.
  vm_compute. repeat split; try reflexivity. discriminate.
Qed.

(** ** Bands without data *)

Section NoData.
Context {hdr : lndsr_albedo_h}.

Lemma anisotropic_block_flag col i tmp m l m' l' :
  anisotropic_block col i tmp m l = Next m' l' ->
  lndSR_flag l' = lndSR_flag l /\
  (OneRowlndSR (sensor m) i col = SR_fillValue (sensor m) -> m' = m).
Proof.
  unfold anisotropic_block. destruct tmp as [[b0 b1] b2].
  destruct (OneRowlndSR (sensor m) i col =? SR_fillValue (sensor m)) eqn:E.
  - simpl. intros H; inversion H; auto.
  - apply Z.eqb_neq in E.
    destruct (negb false && negb (b0 =? 0)).
    + destruct (CalculateANratio _ _ _ _ _) as [[status wsa] bsa].
      destruct (negb (status =? SUCCESS)); [discriminate|].
      destruct (clamp_lndSR _ _) as [r|]; [|discriminate].
      destruct (narrow_pair _ _ _ _) as [[a0 a1] neg].
      intros H; inversion H; subst. simpl. split; [trivial|contradiction].
    + intros H; inversion H; subst. split; [trivial|contradiction].
Qed.

Lemma isotropic_block_flag col i tmp m l m' l' :
  isotropic_block col i tmp m l = (m', l') ->
  lndSR_flag l' = lndSR_flag l /\
  sensor m' = sensor m.
Proof.
  unfold isotropic_block. destruct tmp as [[b0 b1] b2].
  destruct (_ && _); intros H; inversion H; subst; auto.
Qed.

Lemma nodata_block_flag col i m l :
  lndSR_flag l <= lndSR_flag (nodata_block col i m l) /\
  (OneRowlndSR (sensor m) i col = SR_fillValue (sensor m) ->
   lndSR_flag (nodata_block col i m l) = lndSR_flag l + 1).
Proof.
  unfold nodata_block.
  destruct (OneRowlndSR (sensor m) i col =? SR_fillValue (sensor m)) eqn:E;
    simpl; split; lia.
Qed.

Lemma band_body_flag col icls i m l m' l' :
  band_body col icls i m l = Next m' l' ->
  lndSR_flag l <= lndSR_flag l' /\
  (OneRowlndSR (sensor m) i col = SR_fillValue (sensor m) ->
   lndSR_flag l' = lndSR_flag l + 1).
Proof.
  intros H. apply band_body_Next in H.
  destruct H as (idx & cls & t & tmp & m1 & l1 & l2 & _ & _ & _ & Ha & Hb & ->).
  apply anisotropic_block_flag in Ha. destruct Ha as (Ha & Hm).
  apply isotropic_block_flag in Hb. destruct Hb as (Hb & Hs).
  simpl in Ha.
  destruct (nodata_block_flag col i m' l2) as (Hn & Hn').
  split; [lia|]. intros Hfill. rewrite Hn'; [lia|].
  rewrite Hs, (Hm Hfill). exact Hfill.
Qed.

Lemma band_loop_flag col icls k : forall i m l m' l',
  band_loop col icls k i m l = Next m' l' ->
  lndSR_flag l <= lndSR_flag l' /\
  (forall b, i <= b < i + Z.of_nat k ->
             OneRowlndSR (sensor m) b col = SR_fillValue (sensor m) ->
             lndSR_flag l < lndSR_flag l').
Proof.
  induction k as [|k IH]; simpl; intros i m l m' l' H.
  - inversion H; subst. split; [lia|]. intros b Hb. lia.
  - destruct (band_body col icls i m l) as [m1 l1|] eqn:Hb; [|discriminate].
    destruct (band_body_flag _ _ _ _ _ _ _ Hb) as (Hle & Hfill).
    apply band_body_frame in Hb. destruct Hb as (_ & Hs & _ & Hr & _).
    apply IH in H. destruct H as (Hle' & Hfill').
    split; [lia|]. intros b Hb Hf.
    destruct (Z.eq_dec b i) as [->|Hne].
    + rewrite (Hfill Hf) in Hle'. lia.
    + assert (lndSR_flag l1 < lndSR_flag l'); [|lia].
      apply (Hfill' b); [lia|].
      destruct (Hr b col) as [E|(Hbi & _)]; [|contradiction].
      rewrite E, Hs. exact Hf.
Qed.

(** C4, as the code has it.  When some active band has fill
    reflectance, a call that returns returns FAILURE, and neither a
    return nor an exit writes a slot from 12 upward; when moreover the
    class is valid and the band loop runs to its end, the call returns
    FAILURE with the quality code -1. *)
Theorem C4_fill_band_fails s a row col qa snow_flag b :
  0 <= b < nbands s ->
  OneRowlndSR s b col = SR_fillValue s ->
  match CalculateAlbedo s a row col qa snow_flag with
  | Return r m' =>
    r = FAILURE /\ forall j, 12 <= j -> lndPixAlbedo m' j = a j
  | Exit _ m' => forall j, 12 <= j -> lndPixAlbedo m' j = a j
  | Undefined => True
  end /\
  (forall m l,
      class_invalid s (Clsdata s col) = false ->
      band_loop col (Clsdata s col) (Z.to_nat (nbands s)) 0
                (mkMachine s a qa) (mkLocals tally0 0) = Next m l ->
      CalculateAlbedo s a row col qa snow_flag
      = Return FAILURE (mkMachine (sensor m) (lndPixAlbedo m) (-1))).
Proof.
  intros Hb Hfill.
  assert (Hflag : forall m l,
             band_loop col (Clsdata s col) (Z.to_nat (nbands s)) 0
                       (mkMachine s a qa) (mkLocals tally0 0) = Next m l ->
             lndSR_flag l <> 0).
  { intros m l Hl. apply band_loop_flag in Hl. destruct Hl as (_ & Hl).
    specialize (Hl b). simpl in Hl. assert (0 < lndSR_flag l); [|lia].
    apply Hl; [lia|exact Hfill]. }
  split.
  - destruct (CalculateAlbedo_path s a row col qa snow_flag)
      as [Hc|o Hc Hl|m l Hc Hl Hf|m l Hc Hl Hf].
    + split; trivial.
    + apply band_loop_Stop in Hl.
      destruct Hl as (j & m1 & l1 & Hj & Hl & _ & Ho).
      apply band_loop_frame in Hl. destruct Hl as (Hk & _ & _ & _ & Ha).
      simpl in Ha.
      assert (Ha' : forall i, 12 <= i -> lndPixAlbedo m1 i = a i)
        by (intros i Hi; apply Ha; lia).
      destruct Ho as [->|[->| ->]]; auto.
    + apply band_loop_frame in Hl. destruct Hl as (Hk & _ & _ & _ & Ha).
      simpl in *. split; trivial. intros j Hj. apply Ha. lia.
    + exfalso. exact (Hflag m l Hl Hf).
  - intros m l Hc Hl. unfold CalculateAlbedo. rewrite Hc, Hl.
    specialize (Hflag m l Hl). apply Z.eqb_neq in Hflag. now rewrite Hflag.
Qed.

End NoData.

(** A pixel with fill reflectance in its first band. *)
Lemma C4_fill_band_fails_witness :
  exists m,
    CalculateAlbedo (hdr := sample_h)
      (sample_sensor 20 weights_plain (fun b => if b =? 0 then -9999 else 100))
      zero_vector 0 0 7 0
    = Return 1 (mkMachine (sensor m) (lndPixAlbedo m) (-1)).
Proof.
  pose (s := sample_sensor 20 weights_plain
                           (fun b => if b =? 0 then -9999 else 100)).
  assert (Hl : exists m l,
             band_loop (hdr := sample_h) 0 (Clsdata s 0)
                       (Z.to_nat (nbands s)) 0
                       (mkMachine s zero_vector 7) (mkLocals tally0 0)
             = Next m l) by (vm_compute; eauto).
  destruct Hl as (m & l & Hl).
  assert (H0 : 0 <= 0 < nbands s) by (simpl; lia).
  exists m.
  destruct (C4_fill_band_fails (hdr := sample_h) s zero_vector
              0 0 7 0 0 H0 eq_refl) as [_ H].
  exact (H m l eq_refl Hl).
Defined.

(** C4 as stated fails: the first band is fill, but the closest-class
    search fails at the second band and the call returns FAILURE with
    the caller's quality code 7 in place, not -1. *)
Lemma C4_quality_code_not_set :
  let s := sample_sensor 20 weights_gap
                         (fun b => if b =? 0 then -9999 else 100) in
  OneRowlndSR s 0 0 = SR_fillValue s /\
  match CalculateAlbedo (hdr := sample_h) s zero_vector 0 0 7 0 with
  | Return r m => r = 1 /\ QA m = 7 /\ QA m <> -1
  | _ => False
  end.
Proof.
  vm_compute. repeat split; discriminate.
Qed.

(** ** Writes to the sensor context *)

Section SensorWrites.
Context {hdr : lndsr_albedo_h}.

Lemma loop_frame_sensor col (k : nat) s a qa m' :
  Z.of_nat k <= Z.max 0 (nbands s) ->
  loop_frame col 0 k (mkMachine s a qa) m' ->
  sensor_frame s col (sensor m').
Proof.
  intros Hk (Hs & _ & Hr & _). simpl in *.
  rewrite Hs. unfold sensor_frame. simpl.
  repeat (split; [reflexivity|]).
  intros b c. destruct (Hr b c) as [E|(Hb & Hc & E)]; [left|right].
  - rewrite <- E, Hs. reflexivity.
  - rewrite Hs in E. simpl in E. repeat split; trivial; lia.
Qed.

Lemma broadband_sensor sw vis nir col m :
  sensor (broadband sw vis nir col m) = sensor m.
Proof. unfold broadband. now rewrite !rescue_sensor. Qed.

(** C7, as the code has it.  Whatever way a call ends, every field of
    the sensor context other than the reflectance raster is what it
    was, and the raster differs at most at the pixel's column in the
    rows of the active bands, where an entry may have been replaced by
    its clamped value. *)
Theorem C7_only_the_reflectance_is_written s a row col qa snow_flag :
  match CalculateAlbedo s a row col qa snow_flag with
  | Return _ m' => sensor_frame s col (sensor m')
  | Exit _ m' => sensor_frame s col (sensor m')
  | Undefined => True
  end.
Proof.
  assert (Hid : sensor_frame s col s).
  { unfold sensor_frame. repeat (split; [reflexivity|]). auto. }
  destruct (CalculateAlbedo_path s a row col qa snow_flag)
    as [Hc|o Hc Hl|m l Hc Hl Hf|m l Hc Hl Hf].
  - exact Hid.
  - apply band_loop_Stop in Hl.
    destruct Hl as (j & m1 & l1 & Hj & Hl & _ & Ho).
    apply band_loop_frame in Hl. destruct Hl as (_ & Hl).
    apply loop_frame_sensor in Hl; [|lia].
    destruct Ho as [->|[->| ->]]; trivial.
  - apply band_loop_frame in Hl. destruct Hl as (_ & Hl).
    apply loop_frame_sensor in Hl; [exact Hl|lia].
  - apply band_loop_frame in Hl. destruct Hl as (_ & Hl).
    apply loop_frame_sensor in Hl; [|lia].
    now rewrite broadband_sensor.
Qed.

End SensorWrites.

(** C7 as stated fails: with reflectance -5 in every band and BRDF
    parameters available, the call succeeds and leaves 0 where the
    raster held -5. *)
Lemma C7_reflectance_raster_written :
  let s := sample_sensor 20 weights_plain (fun _ => -5) in
  match CalculateAlbedo (hdr := sample_h) s zero_vector 0 0 7 0 with
  | Return r m =>
    r = 0 /\ OneRowlndSR s 0 0 = -5 /\ OneRowlndSR (sensor m) 0 0 = 0 /\
    OneRowlndSR (sensor m) 0 0 <> OneRowlndSR s 0 0
  | _ => False
  end.
Proof.
  vm_compute. repeat split; discriminate.
Qed.

(** The value written on saturation is the truncated double quotient:
    at the scale factor 0.00004 a call on reflectances of 30000 leaves
    24749 in the raster, where the exact quotient is 24750. *)
Lemma saturated_reflectance_written :
  match CalculateAlbedo (hdr := sample_h)
          (sample_scaled 0.00004 20 weights_plain (fun _ => 30000))
          zero_vector 0 0 7 0 with
  | Return r m =>
    r = 0 /\
    OneRowlndSR (sensor m) 0 0 = 24749 /\ OneRowlndSR (sensor m) 5 0 = 24749 /\
    Qtrunc (0.99 / 0.00004) = 24750
  | _ => False
  end.
Proof.
  vm_compute. repeat split.
Qed.

(** ** The two narrow-band branches *)

Section Branches.
Context {hdr : lndsr_albedo_h}.

Lemma anisotropic_block_taken col i b0 b1 b2 m l m1 l1 :
  OneRowlndSR (sensor m) i col <> SR_fillValue (sensor m) -> b0 <> 0 ->
  anisotropic_block col i (b0, b1, b2) m l = Next m1 l1 ->
  let s := sensor m in
  let ratio :=
    CalculateANratio (b0, b1, b2) (SZA s) (SAA s) (pix_VZA s) (pix_VAA s) in
  fst (fst ratio) = SUCCESS /\
  exists r',
    clamp_lndSR (lndSR_ScaFct s) (OneRowlndSR s i col) = Some r' /\
    let np := narrow_pair (lndSR_ScaFct s) r' (snd ratio) (snd (fst ratio)) in
    m1 = set_pair (set_lndSR m i col r') i (fst (fst np)) (snd (fst np)) /\
    l1 = mkLocals (if snd np then incr3 (tmpQA l) else tmpQA l) (lndSR_flag l).
Proof.
  intros Hr Hb. unfold anisotropic_block.
  apply Z.eqb_neq in Hr, Hb. rewrite Hr, Hb. cbn [negb andb].
  destruct (CalculateANratio _ _ _ _ _) as [[status wsa] bsa].
  destruct (status =? SUCCESS) eqn:Hs; [|discriminate]. cbn [negb].
  destruct (clamp_lndSR _ _) as [r'|]; [|discriminate].
  destruct (narrow_pair _ _ _ _) as [[a0 a1] neg] eqn:Hn.
  intros H; inversion H; subst. simpl. split; [now apply Z.eqb_eq|].
  exists r'. rewrite Hn. auto.
Qed.

Lemma anisotropic_block_skipped col i b0 b1 b2 m l :
  OneRowlndSR (sensor m) i col = SR_fillValue (sensor m) \/ b0 = 0 ->
  anisotropic_block col i (b0, b1, b2) m l = Next m l.
Proof.
  intros H. unfold anisotropic_block.
  destruct H as [H|H]; apply Z.eqb_eq in H; rewrite H; trivial.
  now rewrite andb_false_r.
Qed.

Lemma isotropic_block_taken col i b1 b2 m l :
  OneRowlndSR (sensor m) i col <> SR_fillValue (sensor m) ->
  isotropic_block col i (0, b1, b2) m l
  = (set_pair m i
       (lndSR_ScaFct (sensor m) * inject_Z (OneRowlndSR (sensor m) i col))%Q
       (lndSR_ScaFct (sensor m) * inject_Z (OneRowlndSR (sensor m) i col))%Q,
     mkLocals (incr4 (tmpQA l)) (lndSR_flag l)).
Proof.
  intros Hr. unfold isotropic_block. apply Z.eqb_neq in Hr. now rewrite Hr.
Qed.

Lemma isotropic_block_skipped col i b0 b1 b2 m l :
  b0 <> 0 \/ OneRowlndSR (sensor m) i col = SR_fillValue (sensor m) ->
  isotropic_block col i (b0, b1, b2) m l = (m, l).
Proof.
  intros H. unfold isotropic_block.
  destruct H as [H|H].
  - apply Z.eqb_neq in H. now rewrite H.
  - apply Z.eqb_eq in H. rewrite H. now rewrite andb_false_r.
Qed.

Lemma resolve_class_tally s icls TM_Indx t cls t' :
  resolve_class s icls TM_Indx t = Some (cls, t') ->
  tmpQA3 t' = tmpQA3 t /\ tmpQA4 t' = tmpQA4 t /\ tmpQA5 t' = tmpQA5 t.
Proof.
  unfold resolve_class, purity_tally.
  destruct (BRDFava_flg s icls TM_Indx =? 0).
  - intros H; inversion H; subst.
    destruct (Qlt_bool _ _), (Qeq_bool _ _); simpl; auto.
  - destruct (getClosestCls s icls TM_Indx =? -1); [discriminate|].
    intros H; inversion H; subst. simpl; auto.
Qed.

Lemma nodata_block_tally col i m l :
  tmpQA3 (tmpQA (nodata_block col i m l)) = tmpQA3 (tmpQA l) /\
  tmpQA4 (tmpQA (nodata_block col i m l)) = tmpQA4 (tmpQA l).
Proof. unfold nodata_block. destruct (_ =? _); simpl; auto. Qed.

(** What a pass does to a band with data whose first rounded weight is
    not zero. *)
Lemma band_body_anisotropic col icls i m l m' l' TM_Indx BRDFcls t b0 b1 b2 :
  band_body col icls i m l = Next m' l' ->
  local_at TMBandIndx i = Some TM_Indx ->
  resolve_class (sensor m) icls TM_Indx (tmpQA l) = Some (BRDFcls, t) ->
  round_BRDF (sensor m) BRDFcls TM_Indx = Some (b0, b1, b2) ->
  OneRowlndSR (sensor m) i col <> SR_fillValue (sensor m) ->
  b0 <> 0 ->
  let s := sensor m in
  let ratio :=
    CalculateANratio (b0, b1, b2) (SZA s) (SAA s) (pix_VZA s) (pix_VAA s) in
  fst (fst ratio) = SUCCESS /\
  exists r',
    clamp_lndSR (lndSR_ScaFct s) (OneRowlndSR s i col) = Some r' /\
    let np := narrow_pair (lndSR_ScaFct s) r' (snd ratio) (snd (fst ratio)) in
    m' = set_pair (set_lndSR m i col r') i (fst (fst np)) (snd (fst np)) /\
    l' = nodata_block col i m'
           (mkLocals (if snd np then incr3 t else t) (lndSR_flag l)).
Proof.
  intros H Hi Hc Hr Hfill Hb. unfold band_body in H. rewrite Hi, Hc, Hr in H.
  destruct (anisotropic_block _ _ _ _ _) as [m1 l1|] eqn:Ha; [|discriminate].
  destruct (anisotropic_block_taken _ _ _ _ _ _ _ _ _ Hfill Hb Ha)
    as (Hs & r' & Hcl & Hm & Hl).
  rewrite (isotropic_block_skipped col i b0 b1 b2 m1 l1) in H by auto.
  inversion H; subst m' l'. split; [exact Hs|].
  exists r'. split; [exact Hcl|]. cbv zeta. rewrite <- Hm.
  split; [reflexivity|]. rewrite Hl. reflexivity.
Qed.

(** What a pass does to a band with data whose first rounded weight is
    zero. *)
Lemma band_body_isotropic col icls i m l m' l' TM_Indx BRDFcls t b1 b2 :
  band_body col icls i m l = Next m' l' ->
  local_at TMBandIndx i = Some TM_Indx ->
  resolve_class (sensor m) icls TM_Indx (tmpQA l) = Some (BRDFcls, t) ->
  round_BRDF (sensor m) BRDFcls TM_Indx = Some (0, b1, b2) ->
  OneRowlndSR (sensor m) i col <> SR_fillValue (sensor m) ->
  let a := (lndSR_ScaFct (sensor m)
            * inject_Z (OneRowlndSR (sensor m) i col))%Q in
  m' = set_pair m i a a /\
  l' = mkLocals (incr4 t) (lndSR_flag l).
Proof.
  intros H Hi Hc Hr Hfill. unfold band_body in H. rewrite Hi, Hc, Hr in H.
  rewrite anisotropic_block_skipped in H by auto.
  rewrite isotropic_block_taken in H by exact Hfill.
  inversion H; subst m'. split; [reflexivity|].
  unfold nodata_block. cbn [sensor set_pair tmpQA lndSR_flag].
  apply Z.eqb_neq in Hfill. now rewrite Hfill.
Qed.

End Branches.

(** ** Truncation and the clamp *)

Lemma Qtrunc_nonneg q : (0 <= q)%Q -> 0 <= Qtrunc q.
Proof.
  intros H. unfold Qtrunc.
  assert (E : Qle_bool 0 q = true) by now apply Qle_bool_iff.
  rewrite E. change 0 with (Qfloor 0). now apply Qfloor_resp_le.
Qed.

Lemma Qtrunc_le q : (0 <= q)%Q -> (inject_Z (Qtrunc q) <= q)%Q.
Proof.
  intros H. unfold Qtrunc.
  assert (E : Qle_bool 0 q = true) by now apply Qle_bool_iff.
  rewrite E. apply Qfloor_le.
Qed.

Lemma inject_Z_lt_inv x y : (inject_Z x < inject_Z y)%Q -> x < y.
Proof. intros H. now rewrite Zlt_Qlt. Qed.

(** Truncation gives zero exactly on the open interval from -1 to 1. *)
Lemma Qtrunc_zero_iff q : Qtrunc q = 0 <-> (-1 < q /\ q < 1)%Q.
Proof.
  unfold Qtrunc. destruct (Qle_bool 0 q) eqn:E.
  - apply Qle_bool_iff in E. split.
    + intros H. split.
      * apply Qlt_le_trans with 0%Q; [reflexivity|exact E].
      * generalize (Qlt_floor q). rewrite H. trivial.
    + intros (_ & H1).
      assert (Hlo : 0 <= Qfloor q)
        by (change 0 with (Qfloor 0); now apply Qfloor_resp_le).
      assert (Hhi : Qfloor q < 1).
      { apply inject_Z_lt_inv. apply Qle_lt_trans with q; [apply Qfloor_le|exact H1]. }
      lia.
  - assert (Hneg : (q < 0)%Q).
    { apply Qnot_le_lt. intros H. apply Qle_bool_iff in H. congruence. }
    split.
    + intros H. split.
      * generalize (Qceiling_lt q). rewrite H. trivial.
      * apply Qlt_trans with 0%Q; [exact Hneg|reflexivity].
    + intros (H1 & _).
      assert (Hhi : Qceiling q <= 0).
      { change 0 with (Qceiling 0). apply Qceiling_resp_le. now apply Qlt_le_weak. }
      assert (Hlo : -1 < Qceiling q).
      { apply inject_Z_lt_inv. apply Qlt_le_trans with q; [exact H1|apply Qle_ceiling]. }
      lia.
Qed.

Lemma cast_int16_Some q z : cast_int16 q = Some z -> z = Qtrunc q.
Proof.
  unfold cast_int16. destruct (_ && _); [|discriminate]. congruence.
Qed.

(** *** The comparison and the clamp *)

Lemma ge_quot_true r num sf :
  ge_quot r num sf = true ->
  (exists q, quot num sf = Finite q /\ (q <= inject_Z r)%Q) \/
  quot num sf = Inf true.
Proof.
  unfold ge_quot. destruct (quot num sf) as [q|neg].
  - intros H. left. exists q. split; [reflexivity|now apply Qle_bool_iff].
  - intros ->. now right.
Qed.

Lemma ge_quot_false r num sf :
  ge_quot r num sf = false ->
  (exists q, quot num sf = Finite q /\ (inject_Z r < q)%Q) \/
  quot num sf = Inf false.
Proof.
  unfold ge_quot. destruct (quot num sf) as [q|neg].
  - intros H. left. exists q. split; [reflexivity|].
    apply Qnot_le_lt. intros C. apply Qle_bool_iff in C. congruence.
  - intros ->. now right.
Qed.

Lemma ge_quot_finite r num sf q :
  quot num sf = Finite q -> (q <= inject_Z r)%Q -> ge_quot r num sf = true.
Proof. intros E H. unfold ge_quot. rewrite E. now apply Qle_bool_iff. Qed.

Lemma Qtrunc_nonpos q : (q <= 0)%Q -> Qtrunc q <= 0.
Proof.
  intros H. unfold Qtrunc. destruct (Qle_bool 0 q) eqn:E.
  - apply Qle_bool_iff in E. change 0 with (Qfloor 0).
    apply Qfloor_resp_le. exact H.
  - change 0 with (Qceiling 0). now apply Qceiling_resp_le.
Qed.

Lemma clamped_nonneg r : 0 <= (if r <? 0 then 0 else r).
Proof. destruct (r <? 0) eqn:E; [lia|]. now apply Z.ltb_ge in E. Qed.

Lemma pow2_1024_large N : N <= INT16_MAX -> (inject_Z N < pow2 1024)%Q.
Proof.
  intros H. apply Qlt_le_trans with (pow2 15).
  - rewrite pow2_Z by lia. rewrite <- Zlt_Qlt. unfold INT16_MAX in H.
    change (2 ^ 15) with 32768. lia.
  - apply pow2_le. lia.
Qed.

(** At a positive scale factor that is [1.2 / N] or more, for a
    reflectance [N] of the 16-bit range, the first quotient is at most
    [N] and the second is below [N]. *)
Lemma cap_bound sf N :
  (0 < sf)%Q -> 1 <= N <= INT16_MAX -> (1.2 / sf <= inject_Z N)%Q ->
  (exists q, quot 1.2 sf = Finite q /\ (0 <= q)%Q /\ (q <= inject_Z N)%Q) /\
  (exists c, quot 0.99 sf = Finite c /\ (0 <= c)%Q /\ (c < inject_Z N)%Q).
Proof.
  intros Hs HN Hge.
  assert (HN0 : (0 < inject_Z N)%Q) by (rewrite <- (Zlt_Qlt 0); lia).
  assert (Hsf0 : (1.2 / inject_Z N <= sf)%Q).
  { apply Qle_shift_div_r; [exact HN0|].
    assert (E : (1.2 == 1.2 / sf * sf)%Q) by (field; lra).
    assert (H1 : (1.2 / sf * sf <= inject_Z N * sf)%Q)
      by (apply Qmult_le_compat_r; [exact Hge|lra]).
    rewrite <- E in H1. lra. }
  destruct (cap_certificate N HN) as (Hs0 & H12 & H99).
  set (s := round64 (1.2 / inject_Z N)) in *.
  assert (Hd : (s <= round64 sf)%Q) by (apply round64_mono; exact Hsf0).
  assert (H0N : (0 <= inject_Z N)%Q) by lra.
  assert (Hbig := pow2_1024_large N (proj2 HN)).
  assert (Hc12 : (0 <= round64 1.2)%Q) by (apply round64_nonneg; discriminate).
  assert (Hc99 : (0 <= round64 0.99)%Q) by (apply round64_nonneg; discriminate).
  unfold quot.
  destruct (to_double_nonneg sf) as [(E & _)|(E & _ & _)]; [lra| |]; rewrite E.
  - split; exists 0%Q; repeat split; try apply Qle_refl; lra.
  - assert (Ez : Qeq_bool (round64 sf) 0 = false).
    { destruct (Qeq_bool (round64 sf) 0) eqn:Ez; trivial.
      apply Qeq_bool_iff in Ez. exfalso. lra. }
    rewrite Ez.
    assert (Hdp : (0 < round64 sf)%Q) by lra.
    split.
    + assert (Hx : (round64 1.2 / round64 sf
                    < inject_Z N + pow2 (Z.log2 N - 53))%Q).
      { apply Qle_lt_trans with (round64 1.2 / s)%Q.
        - now apply Qdiv_le_den.
        - apply Qlt_shift_div_r; [exact Hs0|exact H12]. }
      assert (Hr : (round64 (round64 1.2 / round64 sf) <= inject_Z N)%Q).
      { apply round64_half_ulp; [|exact Hx]. unfold INT16_MAX in HN. lia. }
      assert (Ha : (0 <= round64 1.2 / round64 sf)%Q) by now apply Qdiv_nonneg.
      destruct (to_double_nonneg _ Ha) as [(E' & G)|(E' & P & _)]; rewrite E'.
      * exfalso. lra.
      * eexists. repeat split; [exact P|exact Hr].
    + set (y := (inject_Z (8 * N - 1) * pow2 (-3))%Q) in *.
      assert (Hy : (y < inject_Z N)%Q).
      { unfold y. replace (8 * N - 1) with (8 * N + -1) by lia.
        rewrite inject_Z_plus, inject_Z_mult.
        assert (E8 : (pow2 (-3) == 1 # 8)%Q) by reflexivity.
        rewrite E8. change (inject_Z 8) with 8%Q.
        change (inject_Z (-1)) with (-1)%Q. lra. }
      assert (Hx : (round64 0.99 / round64 sf <= y)%Q).
      { apply Qle_trans with (round64 0.99 / s)%Q.
        - now apply Qdiv_le_den.
        - apply Qle_shift_div_r; [exact Hs0|exact H99]. }
      assert (Hr : (round64 (round64 0.99 / round64 sf) <= y)%Q).
      { apply round64_below_dyadic; [|lia|exact Hx]. unfold INT16_MAX in HN. lia. }
      assert (Ha : (0 <= round64 0.99 / round64 sf)%Q) by now apply Qdiv_nonneg.
      destruct (to_double_nonneg _ Ha) as [(E' & G)|(E' & P & _)]; rewrite E'.
      * exfalso. lra.
      * eexists. repeat split; [exact P|lra].
Qed.

(** With a scale factor that is not negative the clamp gives no
    negative value. *)
Lemma clamp_lndSR_nonneg sf r r' :
  (0 <= sf)%Q -> clamp_lndSR sf r = Some r' -> 0 <= r'.
Proof.
  intros Hs. unfold clamp_lndSR. cbv zeta.
  destruct (ge_quot _ _ _).
  - destruct (quot_nonneg 0.99 sf) as [(q & E & Hq)|E];
      [discriminate|exact Hs| |]; rewrite E; cbn [cast_int16_double].
    + intros H. apply cast_int16_Some in H. subst r'. now apply Qtrunc_nonneg.
    + discriminate.
  - intros H. inversion H. apply clamped_nonneg.
Qed.


(** The clamp leaves a clamped value as it is. *)
Lemma clamp_lndSR_idempotent sf r p :
  clamp_lndSR sf r = Some p -> clamp_lndSR sf p = Some p.
Proof.
  unfold clamp_lndSR. cbv zeta.
  destruct (ge_quot (if r <? 0 then 0 else r) 1.2 sf) eqn:Eg.
  - intros Hc.
    destruct (ge_quot (if p <? 0 then 0 else p) 1.2 sf) eqn:Eg'; [exact Hc|].
    destruct (p <? 0) eqn:Ep; [|reflexivity]. exfalso.
    apply Z.ltb_lt in Ep.
    destruct (Qlt_le_dec sf 0) as [Hneg|Hpos].
    + destruct (quot_nonpos 1.2 sf) as [(q & E & Hq)|E];
        [discriminate|exact Hneg| |].
      * rewrite (ge_quot_finite 0 1.2 sf q E) in Eg'; [discriminate|].
        exact Hq.
      * unfold ge_quot in Eg'. rewrite E in Eg'. discriminate.
    + destruct (quot_nonneg 0.99 sf) as [(q & E & Hq)|E];
        [discriminate|exact Hpos| |]; rewrite E in Hc; cbn in Hc.
      * apply cast_int16_Some in Hc. subst p.
        assert (H0 := Qtrunc_nonneg q Hq). lia.
      * discriminate.
  - intros H. inversion H. subst p.
    assert (H0 := clamped_nonneg r).
    destruct ((if r <? 0 then 0 else r) <? 0) eqn:E;
      [apply Z.ltb_lt in E; lia|].
    now rewrite Eg.
Qed.

(** With a positive scale factor and a reflectance of the 16-bit
    range, the clamp is defined and its result is in the 16-bit range,
    not negative and below the exact [1.2 / sf]. *)
Lemma clamp_lndSR_int16 sf r :
  (0 < sf)%Q -> r <= INT16_MAX ->
  exists r', clamp_lndSR sf r = Some r' /\
             0 <= r' <= INT16_MAX /\ (inject_Z r' < 1.2 / sf)%Q.
Proof.
  intros Hs Hr.
  assert (H12 : (0 < 1.2 / sf)%Q).
  { apply Qlt_shift_div_l; [exact Hs|]. lra. }
  unfold clamp_lndSR. cbv zeta.
  set (r1 := if r <? 0 then 0 else r).
  assert (Hr1 : 0 <= r1 <= INT16_MAX).
  { unfold r1, INT16_MAX in *. destruct (r <? 0) eqn:E; [lia|].
    apply Z.ltb_ge in E. lia. }
  assert (Hlow : forall N, 0 <= N ->
            ~ (1.2 / sf <= inject_Z N)%Q -> (inject_Z N < 1.2 / sf)%Q)
    by (intros N _ C; now apply Qnot_le_lt).
  assert (Hpos : forall N, 0 <= N -> (1.2 / sf <= inject_Z N)%Q -> 1 <= N).
  { intros N HN C. assert (HZ : (inject_Z 0 < inject_Z N)%Q).
    { change (inject_Z 0) with 0%Q. lra. }
    rewrite <- Zlt_Qlt in HZ. lia. }
  destruct (ge_quot r1 1.2 sf) eqn:Eg.
  - destruct (ge_quot_true _ _ _ Eg) as [(q12 & E12 & Hq12)|E12].
    2:{ destruct (quot_nonneg 1.2 sf) as [(q & E & _)|E];
          [discriminate|lra| |]; congruence. }
    destruct (quot_mono_num 0.99 1.2 sf q12) as (q99 & E99 & H0 & Hle);
      [lra|discriminate|discriminate|exact E12|].
    rewrite E99. cbn [cast_int16_double].
    assert (Ht0 := Qtrunc_nonneg q99 H0).
    assert (Htq := Qtrunc_le q99 H0).
    assert (Htr : Qtrunc q99 <= r1).
    { assert (HZ : (inject_Z (Qtrunc q99) <= inject_Z r1)%Q) by lra.
      now rewrite <- Zle_Qle in HZ. }
    exists (Qtrunc q99). split; [|split; [lia|]].
    + unfold cast_int16. cbv zeta.
      assert (E : (INT16_MIN <=? Qtrunc q99) && (Qtrunc q99 <=? INT16_MAX)
                  = true).
      { apply andb_true_iff. split; apply Z.leb_le; unfold INT16_MIN; lia. }
      now rewrite E.
    + apply Hlow; [exact Ht0|]. intros C.
      assert (Hp := Hpos _ Ht0 C).
      destruct (cap_bound sf (Qtrunc q99) Hs) as (_ & c & Ec & _ & Hc);
        [lia|exact C|].
      rewrite E99 in Ec. inversion Ec. subst c. lra.
  - exists r1. split; [reflexivity|]. split; [exact Hr1|].
    apply Hlow; [lia|]. intros C.
    assert (Hp := Hpos _ (proj1 Hr1) C).
    destruct (cap_bound sf r1 Hs) as ((q & Eq & _ & Hq) & _); [lia|exact C|].
    rewrite (ge_quot_finite r1 1.2 sf q Eq Hq) in Eg. discriminate.
Qed.

(** With a positive scale factor the clamp replaces a negative value
    by 0, replaces a value that compares at or above the first
    quotient by the truncation of the second, and keeps every other
    value; its result is not negative and, for a reflectance of the
    16-bit range, below the exact [1.2 / sf]. *)
Lemma clamp_lndSR_pos sf r r' :
  (0 < sf)%Q -> clamp_lndSR sf r = Some r' ->
  (r < 0 -> r' = 0) /\
  (0 <= r -> ge_quot r 1.2 sf = true ->
   exists c, quot 0.99 sf = Finite c /\ r' = Qtrunc c) /\
  (0 <= r -> ge_quot r 1.2 sf = false -> r' = r) /\
  0 <= r' /\
  (r <= INT16_MAX -> (inject_Z r' < 1.2 / sf)%Q).
Proof.
  intros Hs Hc.
  assert (H0 : 0 <= r') by (apply (clamp_lndSR_nonneg sf r); [lra|exact Hc]).
  split; [|split; [|split; [|split]]].
  - intros Hr. revert Hc. unfold clamp_lndSR. cbv zeta.
    apply Z.ltb_lt in Hr. rewrite Hr.
    destruct (ge_quot 0 1.2 sf) eqn:Eg; [|intros H; now inversion H].
    destruct (ge_quot_true _ _ _ Eg) as [(q12 & E12 & Hq12)|E12].
    2:{ destruct (quot_nonneg 1.2 sf) as [(q & E & _)|E];
          [discriminate|lra| |]; congruence. }
    destruct (quot_mono_num 0.99 1.2 sf q12) as (q99 & E99 & Hq0 & Hle);
      [lra|discriminate|discriminate|exact E12|].
    rewrite E99. cbn [cast_int16_double]. intros H.
    apply cast_int16_Some in H. subst r'.
    change (inject_Z 0) with 0%Q in Hq12.
    assert (Hz : (q99 <= 0)%Q) by lra.
    assert (Hn := Qtrunc_nonpos q99 Hz). lia.
  - intros Hr Eg. revert Hc. unfold clamp_lndSR. cbv zeta.
    apply Z.ltb_ge in Hr. rewrite Hr, Eg.
    destruct (quot 0.99 sf) as [c|neg]; cbn [cast_int16_double];
      [|discriminate].
    intros H. apply cast_int16_Some in H. exists c. auto.
  - intros Hr Eg. revert Hc. unfold clamp_lndSR. cbv zeta.
    apply Z.ltb_ge in Hr. rewrite Hr, Eg. intros H. now inversion H.
  - exact H0.
  - intros Hr.
    destruct (clamp_lndSR_int16 sf r Hs Hr) as (r2 & E2 & _ & Hlt).
    rewrite Hc in E2. inversion E2. subst r2. exact Hlt.
Qed.

(** With a negative scale factor the cap applies to every value and
    is not positive. *)
Lemma clamp_lndSR_neg sf r :
  (sf < 0)%Q ->
  clamp_lndSR sf r = cast_int16_double (quot 0.99 sf) /\
  forall r', clamp_lndSR sf r = Some r' -> r' <= 0.
Proof.
  intros Hs.
  assert (E : clamp_lndSR sf r = cast_int16_double (quot 0.99 sf)).
  { unfold clamp_lndSR. cbv zeta.
    assert (H0 := clamped_nonneg r).
    set (r1 := if r <? 0 then 0 else r) in *.
    assert (Hr1 : (0 <= inject_Z r1)%Q) by (rewrite <- (Zle_Qle 0); exact H0).
    destruct (quot_nonpos 1.2 sf) as [(q & Eq & Hq)|Eq];
      [discriminate|exact Hs| |].
    - rewrite (ge_quot_finite r1 1.2 sf q Eq); [reflexivity|lra].
    - unfold ge_quot. now rewrite Eq. }
  split; [exact E|]. intros r'. rewrite E.
  destruct (quot_nonpos 0.99 sf) as [(q & Eq & Hq)|Eq];
    [discriminate|exact Hs| |]; rewrite Eq; cbn [cast_int16_double].
  - intros H. apply cast_int16_Some in H. subst r'. now apply Qtrunc_nonpos.
  - discriminate.
Qed.

(** With a scale factor of zero the first quotient is the positive
    infinity and the cap never applies. *)
Lemma clamp_lndSR_zero sf r :
  (sf == 0)%Q -> clamp_lndSR sf r = Some (Z.max r 0).
Proof.
  intros Hs. unfold clamp_lndSR, ge_quot, quot. cbv zeta.
  destruct (to_double_nonneg sf) as [(E & G)|(E & _ & _)]; [lra| |].
  - exfalso. rewrite (round64_zero sf Hs) in G.
    assert (Hp := pow2_pos 1024). lra.
  - rewrite E, (round64_zero sf Hs).
    assert (Ez : Qeq_bool 0 0 = true) by reflexivity. rewrite Ez.
    rewrite Qlt_bool_nonneg by lra.
    f_equal. destruct (r <? 0) eqn:Er;
      [apply Z.ltb_lt in Er|apply Z.ltb_ge in Er]; lia.
Qed.

(** A reflectance of the 16-bit range that is at or above the exact
    [1.2 / sf] compares at or above the first quotient. *)
Lemma ge_quot_exact sf r :
  (0 < sf)%Q -> r <= INT16_MAX -> (1.2 / sf <= inject_Z r)%Q ->
  ge_quot r 1.2 sf = true.
Proof.
  intros Hs Hr Hge.
  assert (H12 : (0 < 1.2 / sf)%Q) by (apply Qlt_shift_div_l; [exact Hs|lra]).
  assert (Hp : 1 <= r).
  { assert (HZ : (inject_Z 0 < inject_Z r)%Q)
      by (change (inject_Z 0) with 0%Q; lra).
    rewrite <- Zlt_Qlt in HZ. lia. }
  destruct (cap_bound sf r Hs) as ((q & Eq & _ & Hq) & _); [lia|exact Hge|].
  exact (ge_quot_finite r 1.2 sf q Eq Hq).
Qed.

(** The values a run stores at the scale factors 0.00004 and 0.0001,
    given as decimals or as the doubles nearest to them; the exact
    quotients truncate to 24750 and 9900. *)
Lemma clamp_lndSR_samples :
  clamp_lndSR 0.00004 30000 = Some 24749 /\
  clamp_lndSR (5902958103587057 # 147573952589676412928) 30000 = Some 24749 /\
  clamp_lndSR 0.0001 13000 = Some 9900 /\
  clamp_lndSR (7378697629483821 # 73786976294838206464) 13000 = Some 9900 /\
  Qtrunc (0.99 / 0.00004) = 24750 /\
  Qtrunc (0.99 / 0.0001) = 9900.
Proof. vm_compute. repeat split. Qed.

(** ** Clamping and the choice of branch *)

Section NarrowBand.
Context {hdr : lndsr_albedo_h}.

(** C2, as the code has it.  For a band with data and a positive scale
    factor, with both quotients by the scale factor computed in
    double arithmetic as the code computes them: in the
    anisotropy-corrected branch a negative reflectance is replaced by
    0; a reflectance that compares at or above the quotient
    1.2 / scale factor (as every reflectance of the 16-bit range at or
    above the exact quotient does) is replaced by the quotient
    0.99 / scale factor truncated to an integer; every other
    reflectance (those between the two quotients among them) is kept;
    the value so obtained is not negative and, for a reflectance of
    the 16-bit range, below the exact 1.2 / scale factor; it is stored
    in the raster, and both narrow-band values, ratio-scaled or
    Lambertian, are computed from it.  The isotropic branch computes
    both values from the reflectance as it is. *)
Theorem C2_reflectance_used_by_each_branch
        col icls i m l m' l' TM_Indx BRDFcls t b0 b1 b2 :
  band_body col icls i m l = Next m' l' ->
  local_at TMBandIndx i = Some TM_Indx ->
  resolve_class (sensor m) icls TM_Indx (tmpQA l) = Some (BRDFcls, t) ->
  round_BRDF (sensor m) BRDFcls TM_Indx = Some (b0, b1, b2) ->
  OneRowlndSR (sensor m) i col <> SR_fillValue (sensor m) ->
  (0 < lndSR_ScaFct (sensor m))%Q ->
  let s := sensor m in
  let sf := lndSR_ScaFct s in
  let r := OneRowlndSR s i col in
  let r' := OneRowlndSR (sensor m') i col in
  let ratio :=
    CalculateANratio (b0, b1, b2) (SZA s) (SAA s) (pix_VZA s) (pix_VAA s) in
  (b0 <> 0 ->
   (r < 0 -> r' = 0) /\
   (0 <= r -> ge_quot r 1.2 sf = true ->
    exists c, quot 0.99 sf = Finite c /\ r' = Qtrunc c) /\
   (0 <= r -> ge_quot r 1.2 sf = false -> r' = r) /\
   (r <= INT16_MAX -> (1.2 / sf <= inject_Z r)%Q ->
    ge_quot r 1.2 sf = true) /\
   0 <= r' /\
   (r <= INT16_MAX -> (inject_Z r' < 1.2 / sf)%Q) /\
   ((lndPixAlbedo m' (i * 2 + 0) = (sf * inject_Z r' * snd ratio)%Q /\
     lndPixAlbedo m' (i * 2 + 1) = (sf * inject_Z r' * snd (fst ratio))%Q) \/
    (lndPixAlbedo m' (i * 2 + 0) = (sf * inject_Z r')%Q /\
     lndPixAlbedo m' (i * 2 + 1) = (sf * inject_Z r')%Q))) /\
  (b0 = 0 ->
   r' = r /\
   lndPixAlbedo m' (i * 2 + 0) = (sf * inject_Z r)%Q /\
   lndPixAlbedo m' (i * 2 + 1) = (sf * inject_Z r)%Q).
Proof.
  intros H Hi Hc Hr Hfill Hsf. cbv zeta. split.
  - intros Hb.
    destruct (band_body_anisotropic _ _ _ _ _ _ _ _ _ _ _ _ _ H Hi Hc Hr Hfill Hb)
      as (_ & r' & Hcl & Hm & _).
    assert (Er : OneRowlndSR (sensor m') i col = r').
    { rewrite Hm. simpl. apply upd2_same. }
    rewrite Er.
    destruct (clamp_lndSR_pos _ _ _ Hsf Hcl) as (H1 & H2 & H3 & H4 & H5).
    split; [exact H1|]. split; [exact H2|]. split; [exact H3|].
    split; [intros Hmax Hge; now apply ge_quot_exact|].
    split; [exact H4|]. split; [exact H5|].
    rewrite Hm. simpl. rewrite upd_same.
    rewrite upd_other by lia. rewrite upd_same.
    unfold narrow_pair. destruct (_ || _); simpl; auto.
  - intros ->.
    destruct (band_body_isotropic _ _ _ _ _ _ _ _ _ _ _ _ H Hi Hc Hr Hfill)
      as (Hm & _).
    rewrite Hm. simpl. rewrite upd_same.
    rewrite upd_other by lia. rewrite upd_same. auto.
Qed.

(** C3, as the code has it.  For a band with data, the branch is
    chosen by the first kernel weight alone, converted by adding 0.5
    and truncating toward zero: the conversion gives zero exactly for
    a weight strictly between -1.5 and 0.5.  When it is not zero the
    ratio function is called and the anisotropy-corrected values are
    stored; when it is zero the isotropic values are stored and the
    isotropic tally goes up by one, whatever the other two weights. *)
Theorem C3_branch_follows_first_weight
        col icls i m l m' l' TM_Indx BRDFcls t b0 b1 b2 :
  band_body col icls i m l = Next m' l' ->
  local_at TMBandIndx i = Some TM_Indx ->
  resolve_class (sensor m) icls TM_Indx (tmpQA l) = Some (BRDFcls, t) ->
  round_BRDF (sensor m) BRDFcls TM_Indx = Some (b0, b1, b2) ->
  OneRowlndSR (sensor m) i col <> SR_fillValue (sensor m) ->
  let s := sensor m in
  let sf := lndSR_ScaFct s in
  let r := OneRowlndSR s i col in
  let w0 := BRDF_paras s BRDFcls TM_Indx 0 in
  let ratio :=
    CalculateANratio (b0, b1, b2) (SZA s) (SAA s) (pix_VZA s) (pix_VAA s) in
  (b0 = 0 <-> (-1.5 < w0 /\ w0 < 0.5)%Q) /\
  (b0 <> 0 ->
   fst (fst ratio) = SUCCESS /\
   (exists r',
       clamp_lndSR sf r = Some r' /\
       (lndPixAlbedo m' (i * 2 + 0), lndPixAlbedo m' (i * 2 + 1))
       = fst (narrow_pair sf r' (snd ratio) (snd (fst ratio)))) /\
   tmpQA4 (tmpQA l') = tmpQA4 (tmpQA l)) /\
  (b0 = 0 ->
   lndPixAlbedo m' (i * 2 + 0) = (sf * inject_Z r)%Q /\
   lndPixAlbedo m' (i * 2 + 1) = (sf * inject_Z r)%Q /\
   tmpQA4 (tmpQA l') = tmpQA4 (tmpQA l) + 1).
Proof.
  intros H Hi Hc Hr Hfill. cbv zeta.
  destruct (resolve_class_tally _ _ _ _ _ _ Hc) as (_ & Ht4 & _).
  split; [|split].
  - unfold round_BRDF in Hr.
    destruct (cast_int16 (BRDF_paras (sensor m) BRDFcls TM_Indx 0 + 0.5))
      as [z0|] eqn:E0; [|discriminate].
    destruct (cast_int16 (BRDF_paras (sensor m) BRDFcls TM_Indx 1 + 0.5));
      [|discriminate].
    destruct (cast_int16 (BRDF_paras (sensor m) BRDFcls TM_Indx 2 + 0.5));
      [|discriminate].
    inversion Hr; subst. apply cast_int16_Some in E0. rewrite E0.
    rewrite Qtrunc_zero_iff. split; intros (Ha & Hb); split; lra.
  - intros Hb.
    destruct (band_body_anisotropic _ _ _ _ _ _ _ _ _ _ _ _ _ H Hi Hc Hr Hfill Hb)
      as (Hs & r' & Hcl & Hm & Hl).
    split; [exact Hs|]. split.
    + exists r'. split; [exact Hcl|]. rewrite Hm. simpl. rewrite upd_same.
      rewrite upd_other by lia. rewrite upd_same.
      now destruct (narrow_pair _ _ _ _) as [[a0 a1] neg].
    + rewrite Hl.
      rewrite (proj2 (nodata_block_tally col i m' _)). simpl.
      destruct (snd (narrow_pair _ _ _ _)); simpl; exact Ht4.
  - intros ->.
    destruct (band_body_isotropic _ _ _ _ _ _ _ _ _ _ _ _ H Hi Hc Hr Hfill)
      as (Hm & Hl).
    rewrite Hm, Hl. simpl. rewrite upd_same.
    rewrite upd_other by lia. rewrite upd_same. rewrite Ht4. auto.
Qed.

End NarrowBand.

(** At the scale factor 0.00004 a reflectance of 30000 in the
    anisotropy-corrected branch is replaced by 24749, the truncation
    of the double quotient; the exact quotient is 24750. *)
Lemma C2_reflectance_used_by_each_branch_witness :
  exists m' l',
    band_body (hdr := sample_h) 0 1 0
      (mkMachine (sample_scaled 0.00004 20 weights_plain (fun _ => 30000))
                 zero_vector 7)
      (mkLocals tally0 0) = Next m' l' /\
    OneRowlndSR (sensor m') 0 0 = 24749 /\
    (0.99 / 0.00004 == 24750)%Q.
Proof.
  pose (s := sample_scaled 0.00004 20 weights_plain (fun _ => 30000)).
  assert (Hb : exists m' l',
             band_body (hdr := sample_h) 0 1 0 (mkMachine s zero_vector 7)
                       (mkLocals tally0 0) = Next m' l')
    by (vm_compute; eauto).
  destruct Hb as (m' & l' & Hb). exists m', l'. split; [exact Hb|].
  assert (Hc : resolve_class (hdr := sample_h) s 1 2 tally0
               = Some (1, incr0 tally0)) by (vm_compute; reflexivity).
  assert (Hr : round_BRDF s 1 2 = Some (100, 20, 5)) by reflexivity.
  assert (Hfill : (30000 : Z) <> -9999) by lia.
  assert (Hsf : (0 < lndSR_ScaFct s)%Q) by reflexivity.
  destruct (C2_reflectance_used_by_each_branch (hdr := sample_h)
              0 1 0 (mkMachine s zero_vector 7) (mkLocals tally0 0) m' l'
              2 1 (incr0 tally0) 100 20 5 Hb eq_refl Hc Hr Hfill Hsf)
    as (Ha & _).
  destruct Ha as (_ & Hcap & _); [lia|].
  destruct Hcap as (c & Ec & Hc'); [simpl; lia|vm_compute; reflexivity|].
  split; [|reflexivity].
  rewrite Hc'.
  assert (E : quot 0.99 (lndSR_ScaFct s)
              = Finite (6803228196863999 # 274877906944))
    by (vm_compute; reflexivity).
  change (quot 0.99 (lndSR_ScaFct s) = Finite c) in Ec.
  rewrite E in Ec. inversion Ec. vm_compute. reflexivity.
Defined.

(** C2 as stated fails in both branches.  With scale factor 0.0001 the
    saturation cap is 9900: a reflectance of 10500 goes through the
    anisotropy-corrected branch as it is (black-sky ratio 0.75), and a
    reflectance of -100 goes through the isotropic branch as it is. *)
Lemma C2_unclamped_reflectance_used :
  (0.99 / 0.0001 < inject_Z 10500)%Q /\
  match CalculateAlbedo (hdr := sample_h)
          (sample_sensor 20 weights_plain (fun _ => 10500))
          zero_vector 0 0 7 0 with
  | Return _ m =>
    OneRowlndSR (sensor m) 0 0 = 10500 /\
    (lndPixAlbedo m 0 == 0.0001 * inject_Z 10500 * 0.75)%Q /\
    ~ (lndPixAlbedo m 0 <= 0.0001 * (0.99 / 0.0001) * 0.75)%Q
  | _ => False
  end /\
  match CalculateAlbedo (hdr := sample_h)
          (sample_sensor 20 weights_no_iso (fun _ => -100))
          zero_vector 0 0 7 0 with
  | Return _ m =>
    (lndPixAlbedo m 0 == 0.0001 * inject_Z (-100))%Q /\
    (lndPixAlbedo m 0 < 0)%Q
  | _ => False
  end.
Proof.
  vm_compute. repeat split; try reflexivity; try discriminate.
  intros H. apply H. reflexivity.
Qed.

(** The rounded weights 100, 20, 5 take the anisotropy-corrected
    branch: the isotropic tally stays at zero. *)
Lemma C3_branch_follows_first_weight_witness :
  exists m' l',
    band_body (hdr := sample_h) 0 1 0
      (mkMachine (sample_sensor 20 weights_plain (fun _ => 100))
                 zero_vector 7)
      (mkLocals tally0 0) = Next m' l' /\
    tmpQA4 (tmpQA l') = 0.
Proof.
  eexists. eexists.
  assert (Hb : band_body (hdr := sample_h) 0 1 0
                 (mkMachine (sample_sensor 20 weights_plain (fun _ => 100))
                            zero_vector 7)
                 (mkLocals tally0 0) = Next _ _) by (vm_compute; reflexivity).
  split; [exact Hb|].
  assert (Hc : resolve_class (hdr := sample_h)
                 (sample_sensor 20 weights_plain (fun _ => 100)) 1 2 tally0
               = Some (1, _)) by (vm_compute; reflexivity).
  assert (Hfill : (100 : Z) <> -9999) by lia.
  assert (Hb0 : (100 : Z) <> 0) by lia.
  exact (proj2 (proj2 (proj1 (proj2
           (C3_branch_follows_first_weight (hdr := sample_h)
              0 1 0 _ _ _ _ 2 1 _ 100 20 5 Hb eq_refl Hc eq_refl Hfill))
           Hb0))).
Defined.

(** C3 as stated fails: the weights 0, 5, 3 are usable and round to
    0, 5, 3, which is not the zero triple, yet every band takes the
    isotropic branch: slot 0 holds 0.0001 x 100 and not the
    ratio-scaled 0.0001 x 100 x 0.75. *)
Lemma C3_isotropic_with_nonzero_triple :
  let s := sample_sensor 20 weights_no_iso (fun _ => 100) in
  BRDFava_flg s 1 2 = 0 /\
  round_BRDF s 1 2 = Some (0, 5, 3) /\
  (0, 5, 3) <> (0, 0, 0) /\
  match CalculateAlbedo (hdr := sample_h) s zero_vector 0 0 7 0 with
  | Return r m =>
    r = 0 /\ (lndPixAlbedo m 0 == 0.0001 * inject_Z 100)%Q /\
    ~ (lndPixAlbedo m 0 == 0.0001 * inject_Z 100 * 0.75)%Q
  | _ => False
  end.
Proof.
  vm_compute. repeat split; try reflexivity; discriminate.
Qed.

(** ** The all-good pixel *)


Section AllGood.
Context {hdr : lndsr_albedo_h}.



End AllGood.

(** ** Slots the broadband stage leaves alone *)

Lemma n2b_body_low sw vis nir iband a j :
  j < 12 \/ 17 < j -> n2b_body sw vis nir iband a j = a j.
Proof.
  intros H. unfold n2b_body. now rewrite !upd_other by lia.
Qed.

Lemma n2b_loop_low sw vis nir k : forall iband a j,
  j < 12 \/ 17 < j -> n2b_loop sw vis nir k iband a j = a j.
Proof.
  induction k as [|k IH]; intros iband a j H; simpl; trivial.
  rewrite IH by trivial. now apply n2b_body_low.
Qed.

Lemma n2b_sums_low sw vis nir n a j :
  j < 12 \/ 17 < j -> n2b_sums sw vis nir n a j = a j.
Proof.
  intros H. unfold n2b_sums. rewrite !upd_other by lia.
  rewrite n2b_loop_low by trivial. now rewrite !upd_other by lia.
Qed.

Lemma rescue_low tbl col i m j :
  j <> i -> j <> i + 1 ->
  lndPixAlbedo (rescue tbl col i m) j = lndPixAlbedo m j.
Proof.
  intros H0 H1. unfold rescue. destruct (_ || _); trivial. simpl.
  rewrite !upd_other by trivial.
  now apply (lambert_loop_slots tbl (sensor m) col i).
Qed.

Lemma broadband_low sw vis nir col m j :
  j < 12 \/ 17 < j ->
  lndPixAlbedo (broadband sw vis nir col m) j = lndPixAlbedo m j.
Proof.
  intros H. unfold broadband. rewrite !rescue_low by lia. simpl.
  now apply n2b_sums_low.
Qed.

Lemma broadband_QA sw vis nir col m :
  QA (broadband sw vis nir col m) = QA m \/
  QA (broadband sw vis nir col m) = 4.
Proof.
  unfold broadband.
  set (m0 := mkMachine _ _ _).
  destruct (rescue_QA nir col 16 (rescue vis col 14 (rescue sw col 12 m0)))
    as [E|E]; [|now right].
  destruct (rescue_QA vis col 14 (rescue sw col 12 m0)) as [E'|E'];
    [|right; congruence].
  destruct (rescue_QA sw col 12 m0) as [E''|E''];
    [left|right]; rewrite E, E', E''; reflexivity.
Qed.

Section AllGoodLoop.
Context {hdr : lndsr_albedo_h}.



End AllGoodLoop.



(** ** Running the call a second time *)

Section Replay.
Context {hdr : lndsr_albedo_h}.

(** The closest-class search does not read the reflectance raster. *)
Hypothesis search_ignores_reflectance :
  forall s R icls TM_Indx,
    getClosestCls (set_OneRowlndSR s R) icls TM_Indx
    = getClosestCls s icls TM_Indx.

Lemma resolve_class_static s R icls TM_Indx t :
  resolve_class (set_OneRowlndSR s R) icls TM_Indx t
  = resolve_class s icls TM_Indx t.
Proof.
  unfold resolve_class. now rewrite search_ignores_reflectance.
Qed.

Lemma resolve_class_other_tally s icls TM_Indx t cls t' t2 :
  resolve_class s icls TM_Indx t = Some (cls, t') ->
  exists t2',
    resolve_class s icls TM_Indx t2 = Some (cls, t2') /\
    (t2 = t -> t2' = t').
Proof.
  unfold resolve_class. destruct (BRDFava_flg s icls TM_Indx =? 0).
  - intros H; inversion H; subst. eexists. split; [reflexivity|].
    now intros ->.
  - destruct (getClosestCls s icls TM_Indx =? -1); [discriminate|].
    intros H; inversion H; subst. eexists. split; [reflexivity|].
    now intros ->.
Qed.

Lemma resolve_class_none_any_tally s icls TM_Indx t t2 :
  resolve_class s icls TM_Indx t = None ->
  resolve_class s icls TM_Indx t2 = None.
Proof.
  unfold resolve_class. destruct (BRDFava_flg s icls TM_Indx =? 0);
    [discriminate|].
  now destruct (getClosestCls s icls TM_Indx =? -1).
Qed.

(** What a pass computes, case by case. *)
Lemma band_body_at_nodata col icls i m l TM_Indx BRDFcls t tmp :
  local_at TMBandIndx i = Some TM_Indx ->
  resolve_class (sensor m) icls TM_Indx (tmpQA l) = Some (BRDFcls, t) ->
  round_BRDF (sensor m) BRDFcls TM_Indx = Some tmp ->
  OneRowlndSR (sensor m) i col = SR_fillValue (sensor m) ->
  band_body col icls i m l
  = Next m (mkLocals (incr5 t) (lndSR_flag l + 1)).
Proof.
  intros Hi Hc Hr Hfill. unfold band_body. rewrite Hi, Hc, Hr.
  destruct tmp as [[b0 b1] b2].
  rewrite anisotropic_block_skipped by auto.
  rewrite isotropic_block_skipped by auto.
  unfold nodata_block. apply Z.eqb_eq in Hfill. now rewrite Hfill.
Qed.

Lemma band_body_at_isotropic col icls i m l TM_Indx BRDFcls t b1 b2 :
  local_at TMBandIndx i = Some TM_Indx ->
  resolve_class (sensor m) icls TM_Indx (tmpQA l) = Some (BRDFcls, t) ->
  round_BRDF (sensor m) BRDFcls TM_Indx = Some (0, b1, b2) ->
  OneRowlndSR (sensor m) i col <> SR_fillValue (sensor m) ->
  band_body col icls i m l
  = Next (set_pair m i
            (lndSR_ScaFct (sensor m) * inject_Z (OneRowlndSR (sensor m) i col))%Q
            (lndSR_ScaFct (sensor m) * inject_Z (OneRowlndSR (sensor m) i col))%Q)
         (mkLocals (incr4 t) (lndSR_flag l)).
Proof.
  intros Hi Hc Hr Hfill. unfold band_body. rewrite Hi, Hc, Hr.
  rewrite anisotropic_block_skipped by auto.
  rewrite isotropic_block_taken by exact Hfill.
  unfold nodata_block. cbn [sensor set_pair tmpQA lndSR_flag].
  apply Z.eqb_neq in Hfill. now rewrite Hfill.
Qed.

Lemma band_body_at_anisotropic col icls i m l TM_Indx BRDFcls t b0 b1 b2 p :
  local_at TMBandIndx i = Some TM_Indx ->
  resolve_class (sensor m) icls TM_Indx (tmpQA l) = Some (BRDFcls, t) ->
  round_BRDF (sensor m) BRDFcls TM_Indx = Some (b0, b1, b2) ->
  OneRowlndSR (sensor m) i col <> SR_fillValue (sensor m) ->
  b0 <> 0 ->
  let s := sensor m in
  let ratio :=
    CalculateANratio (b0, b1, b2) (SZA s) (SAA s) (pix_VZA s) (pix_VAA s) in
  fst (fst ratio) = SUCCESS ->
  clamp_lndSR (lndSR_ScaFct s) (OneRowlndSR s i col) = Some p ->
  let np := narrow_pair (lndSR_ScaFct s) p (snd ratio) (snd (fst ratio)) in
  let m' := set_pair (set_lndSR m i col p) i (fst (fst np)) (snd (fst np)) in
  band_body col icls i m l
  = Next m' (nodata_block col i m'
               (mkLocals (if snd np then incr3 t else t) (lndSR_flag l))).
Proof.
  intros Hi Hc Hr Hfill Hb0. cbv zeta. intros Hs Hcl.
  unfold band_body. rewrite Hi, Hc, Hr.
  unfold anisotropic_block.
  apply Z.eqb_neq in Hfill, Hb0. rewrite Hfill, Hb0. cbn [negb andb].
  destruct (CalculateANratio _ _ _ _ _) as [[status wsa] bsa].
  simpl in Hs. subst status. rewrite Z.eqb_refl. cbn [negb].
  rewrite Hcl. cbn [fst snd].
  destruct (narrow_pair _ _ _ _) as [[a0 a1] neg]. cbn [fst snd].
  apply Z.eqb_neq in Hb0.
  now rewrite isotropic_block_skipped by auto.
Qed.

Lemma machine_eqv_refl m : machine_eqv m m.
Proof.
  repeat split; auto using set_OneRowlndSR_id.
Qed.

Lemma set_pair_eqv n i a0 a1 :
  lndPixAlbedo n (i * 2 + 0) = a0 -> lndPixAlbedo n (i * 2 + 1) = a1 ->
  machine_eqv n (set_pair n i a0 a1).
Proof.
  intros H0 H1. repeat split; simpl; auto using set_OneRowlndSR_id.
  intros j. unfold upd.
  destruct (j =? i * 2 + 1) eqn:E1; [apply Z.eqb_eq in E1; congruence|].
  destruct (j =? i * 2 + 0) eqn:E0; [apply Z.eqb_eq in E0; congruence|].
  reflexivity.
Qed.

Lemma set_lndSR_pair_eqv n i col p a0 a1 :
  OneRowlndSR (sensor n) i col = p ->
  lndPixAlbedo n (i * 2 + 0) = a0 -> lndPixAlbedo n (i * 2 + 1) = a1 ->
  machine_eqv n (set_pair (set_lndSR n i col p) i a0 a1).
Proof.
  intros Hp H0 H1.
  destruct (set_pair_eqv n i a0 a1 H0 H1) as (_ & Ha & _).
  split; [|split]; [|exact Ha|reflexivity].
  split; [reflexivity|]. intros b c. simpl. unfold upd2.
  destruct ((b =? i) && (c =? col)) eqn:E; [|reflexivity].
  apply andb_true_iff in E. destruct E as (Eb & Ec).
  apply Z.eqb_eq in Eb, Ec. congruence.
Qed.

(** One pass of the second run over a band the first run has been
    through: it ends as the first run's pass did and leaves the machine
    with the contents it had. *)
Lemma band_body_replay col icls i m l m1 l1 n l2 :
  band_body col icls i m l = Next m1 l1 ->
  (exists R, sensor n = set_OneRowlndSR (sensor m) R) ->
  OneRowlndSR (sensor n) i col = OneRowlndSR (sensor m1) i col ->
  lndPixAlbedo n (i * 2 + 0) = lndPixAlbedo m1 (i * 2 + 0) ->
  lndPixAlbedo n (i * 2 + 1) = lndPixAlbedo m1 (i * 2 + 1) ->
  tally_rel l l2 ->
  exists n1 l21,
    band_body col icls i n l2 = Next n1 l21 /\
    machine_eqv n n1 /\ tally_rel l1 l21.
Proof.
  intros H (R & Hn) Hr Ha0 Ha1 (Hf & Hf0 & Ht).
  destruct (band_body_Next _ _ _ _ _ _ _ H)
    as (idx & cls & t & [[b0 b1] b2] & ma & la & lb & Hi & Hc & Hro & _).
  destruct (resolve_class_other_tally _ _ _ _ _ _ (tmpQA l2) Hc)
    as (t2 & Hc2 & Ht2).
  rewrite <- (resolve_class_static (sensor m) R) in Hc2. rewrite <- Hn in Hc2.
  assert (Hro2 : round_BRDF (sensor n) cls idx = Some (b0, b1, b2))
    by (rewrite Hn; exact Hro).
  assert (Hfv : SR_fillValue (sensor n) = SR_fillValue (sensor m))
    by (rewrite Hn; reflexivity).
  assert (Hsf : lndSR_ScaFct (sensor n) = lndSR_ScaFct (sensor m))
    by (rewrite Hn; reflexivity).
  destruct (Z.eq_dec (OneRowlndSR (sensor m) i col) (SR_fillValue (sensor m)))
    as [Hfill|Hdata].
  - (* no data in the first run *)
    rewrite (band_body_at_nodata _ _ _ _ _ _ _ _ _ Hi Hc Hro Hfill) in H.
    inversion H; subst m1 l1. clear H.
    exists n, (mkLocals (incr5 t2) (lndSR_flag l2 + 1)). split; [|split].
    + apply (band_body_at_nodata _ _ _ _ _ _ _ _ _ Hi Hc2 Hro2). congruence.
    + apply machine_eqv_refl.
    + unfold tally_rel. simpl. repeat split; lia.
  - destruct (Z.eq_dec b0 0) as [->|Hb0].
    + (* isotropic in both runs *)
      rewrite (band_body_at_isotropic _ _ _ _ _ _ _ _ _ _ Hi Hc Hro Hdata) in H.
      inversion H; subst m1 l1. clear H. simpl in Hr, Ha0, Ha1.
      rewrite upd_other, upd_same in Ha0 by lia. rewrite upd_same in Ha1.
      assert (Hdata2 : OneRowlndSR (sensor n) i col <> SR_fillValue (sensor n))
        by congruence.
      eexists. eexists. split; [|split].
      * apply (band_body_at_isotropic _ _ _ _ _ _ _ _ _ _ Hi Hc2 Hro2 Hdata2).
      * apply set_pair_eqv; rewrite Hsf, Hr; assumption.
      * unfold tally_rel. simpl. repeat split; trivial.
        intros Hz. now rewrite (Ht2 (Ht Hz)).
    + (* anisotropy-corrected in the first run *)
      destruct (band_body_anisotropic _ _ _ _ _ _ _ _ _ _ _ _ _ H Hi Hc Hro Hdata Hb0)
        as (Hs & p & Hcl & Hm & Hl).
      assert (Hp : OneRowlndSR (sensor m1) i col = p).
      { rewrite Hm. simpl. apply upd2_same. }
      assert (Hfv1 : SR_fillValue (sensor m1) = SR_fillValue (sensor m))
        by (rewrite Hm; reflexivity).
      rewrite Hp in Hr.
      destruct (Z.eq_dec p (SR_fillValue (sensor m))) as [Hpf|Hpd].
      * (* the clamped value is the fill value *)
        exists n, (mkLocals (incr5 t2) (lndSR_flag l2 + 1)). split; [|split].
        -- apply (band_body_at_nodata _ _ _ _ _ _ _ _ _ Hi Hc2 Hro2). congruence.
        -- apply machine_eqv_refl.
        -- rewrite Hl. unfold nodata_block.
           assert (E : (OneRowlndSR (sensor m1) i col =? SR_fillValue (sensor m1)) = true)
             by (apply Z.eqb_eq; congruence).
           rewrite E. unfold tally_rel. simpl. repeat split; lia.
      * assert (Hdata2 : OneRowlndSR (sensor n) i col <> SR_fillValue (sensor n))
          by congruence.
        assert (Hs2 : fst (fst (CalculateANratio (b0, b1, b2) (SZA (sensor n))
                                  (SAA (sensor n)) (pix_VZA (sensor n))
                                  (pix_VAA (sensor n)))) = SUCCESS)
          by (rewrite Hn; exact Hs).
        assert (Hcl2 : clamp_lndSR (lndSR_ScaFct (sensor n))
                                   (OneRowlndSR (sensor n) i col) = Some p).
        { rewrite Hsf, Hr. eapply clamp_lndSR_idempotent; eauto. }
        eexists. eexists. split; [|split].
        -- apply (band_body_at_anisotropic _ _ _ _ _ _ _ _ _ _ _ _
                    Hi Hc2 Hro2 Hdata2 Hb0 Hs2 Hcl2).
        -- assert (Hratio :
              CalculateANratio (b0, b1, b2) (SZA (sensor n)) (SAA (sensor n))
                               (pix_VZA (sensor n)) (pix_VAA (sensor n))
              = CalculateANratio (b0, b1, b2) (SZA (sensor m)) (SAA (sensor m))
                                 (pix_VZA (sensor m)) (pix_VAA (sensor m)))
             by (rewrite Hn; reflexivity).
           rewrite Hratio, Hsf.
           apply set_lndSR_pair_eqv; trivial.
           ++ rewrite Ha0, Hm. simpl. now rewrite upd_other, upd_same by lia.
           ++ rewrite Ha1, Hm. simpl. now rewrite upd_same.
        -- assert (Hratio :
              CalculateANratio (b0, b1, b2) (SZA (sensor n)) (SAA (sensor n))
                               (pix_VZA (sensor n)) (pix_VAA (sensor n))
              = CalculateANratio (b0, b1, b2) (SZA (sensor m)) (SAA (sensor m))
                                 (pix_VZA (sensor m)) (pix_VAA (sensor m)))
             by (rewrite Hn; reflexivity).
           rewrite Hratio, Hsf, Hl. unfold nodata_block.
           assert (E1 : (OneRowlndSR (sensor m1) i col =? SR_fillValue (sensor m1)) = false)
             by (apply Z.eqb_neq; congruence).
           rewrite E1. cbn [sensor set_pair set_lndSR OneRowlndSR
                            set_OneRowlndSR SR_fillValue].
           rewrite upd2_same.
           assert (E2 : (p =? SR_fillValue (sensor n)) = false)
             by (apply Z.eqb_neq; congruence).
           rewrite E2. unfold tally_rel. simpl. repeat split; trivial.
           intros Hz. now rewrite (Ht2 (Ht Hz)).
Qed.

Lemma tally_rel_start : tally_rel (mkLocals tally0 0) (mkLocals tally0 0).
Proof. unfold tally_rel. simpl. repeat split; lia. Qed.

(** The second run's loop, band by band against the first run's. *)
Lemma band_loop_replay col icls E lE k : forall i m l n l2,
  band_loop col icls k i m l = Next E lE ->
  replay_rel col i E m n ->
  tally_rel l l2 ->
  exists nF l2F,
    band_loop col icls k i n l2 = Next nF l2F /\
    replay_rel col (i + Z.of_nat k) E E nF /\
    tally_rel lE l2F.
Proof.
  induction k as [|k IH]; intros i m l n l2 Hl Hrel Htal.
  - simpl in Hl. inversion Hl; subst m l. exists n, l2.
    simpl. rewrite Z.add_0_r. auto.
  - cbn [band_loop] in Hl.
    destruct (band_body col icls i m l) as [m1 l1|] eqn:Hb; [|discriminate].
    destruct (band_body_frame _ _ _ _ _ _ _ Hb) as (Hi6 & Hs1 & _ & Hr1 & Ha1).
    destruct (band_loop_frame _ _ _ _ _ _ _ _ Hl) as (_ & HsE & _ & HrE & HaE).
    destruct Hrel as ((R & Hn) & Hlow & Hhigh & Halow & Hahigh).
    assert (HEr : OneRowlndSR (sensor E) i col = OneRowlndSR (sensor m1) i col).
    { destruct (HrE i col) as [E0|(Hlt & _)]; [exact E0|lia]. }
    assert (HEa : forall j, j < (i + 1) * 2 ->
                            lndPixAlbedo E j = lndPixAlbedo m1 j)
      by (intros j Hj; apply HaE; left; exact Hj).
    destruct (band_body_replay col icls i m l m1 l1 n l2 Hb)
      as (n1 & l21 & Hb2 & (Hns & Hna & _) & Htal1); eauto.
    { rewrite Hhigh by lia. exact HEr. }
    { rewrite Hahigh by lia. apply HEa. lia. }
    { rewrite Hahigh by lia. apply HEa. lia. }
    destruct Hns as (Hns & Hnr).
    destruct (IH (i + 1) m1 l1 n1 l21 Hl) as (nF & l2F & Hl2 & HrelF & HtalF);
      trivial.
    { split; [|split; [|split; [|split]]].
      - exists (OneRowlndSR (sensor n1)). rewrite Hns, Hn, Hs1. reflexivity.
      - intros b c Hbc. rewrite Hnr.
        destruct (Z.eq_dec b i) as [->|Hne];
          [destruct (Z.eq_dec c col) as [->|Hnc]|].
        + rewrite Hhigh by lia. exact HEr.
        + rewrite Hlow by auto.
          destruct (Hr1 i c) as [E0|(_ & Hc & _)]; [now rewrite E0|contradiction].
        + rewrite Hlow by (destruct Hbc; [left; lia|right; trivial]).
          destruct (Hr1 b c) as [E0|(Hc & _)]; [now rewrite E0|contradiction].
      - intros b Hb'. rewrite Hnr. apply Hhigh. lia.
      - intros j Hj. rewrite Hna.
        destruct (Z_lt_le_dec j (i * 2)) as [Hlt|Hge].
        + rewrite Halow by trivial. symmetry. apply Ha1; lia.
        + rewrite Hahigh by lia. apply HEa. lia.
      - intros j Hj. rewrite Hna. apply Hahigh. lia. }
    exists nF, l2F. cbn [band_loop]. rewrite Hb2.
    replace (i + Z.of_nat (S k)) with (i + 1 + Z.of_nat k) by lia. auto.
Qed.

(** A pass that ends the first run with a return ends the second run
    in the same way. *)
Lemma band_body_replay_stop col icls i m l r mR n l2 :
  band_body col icls i m l = Stop (Return r mR) ->
  (exists R, sensor n = set_OneRowlndSR (sensor m) R) ->
  r = FAILURE /\ mR = m /\
  band_body col icls i n l2 = Stop (Return FAILURE n).
Proof.
  intros H (R & Hn). unfold band_body in *.
  destruct (local_at TMBandIndx i) as [idx|]; [|discriminate].
  destruct (resolve_class (sensor m) icls idx (tmpQA l)) as [[cls t]|] eqn:Hc.
  - exfalso. destruct (round_BRDF _ _ _) as [tmp|]; [|discriminate].
    destruct (anisotropic_block _ _ _ _ _) as [m1 l1|o] eqn:Ha.
    + destruct (isotropic_block _ _ _ _ _). discriminate.
    + destruct (anisotropic_block_Stop _ _ _ _ _ _ Ha) as [-> | ->];
        discriminate.
  - inversion H; subst. repeat split.
    rewrite Hn, resolve_class_static.
    now rewrite (resolve_class_none_any_tally _ _ _ _ (tmpQA l2) Hc).
Qed.

(** The broadband stage on two machines with the same contents outside
    the broadband slots. *)
Lemma upd_ext {A} (f g : Z -> A) i v :
  (forall j, f j = g j) -> forall j, upd f i v j = upd g i v j.
Proof. intros H j. unfold upd. destruct (j =? i); auto. Qed.

Lemma upd_acc_ext (a a' : Z -> Q) i c k :
  (forall j, a j = a' j) ->
  forall j, upd a i (slot a i + c * slot a k)%Q j
            = upd a' i (slot a' i + c * slot a' k)%Q j.
Proof.
  intros H j. unfold slot. rewrite (H i), (H k). now apply upd_ext.
Qed.

Lemma upd_add_ext (a a' : Z -> Q) i d :
  (forall j, a j = a' j) ->
  forall j, upd a i (slot a i + d)%Q j = upd a' i (slot a' i + d)%Q j.
Proof.
  intros H j. unfold slot. rewrite (H i). now apply upd_ext.
Qed.

Lemma n2b_body_ext sw vis nir iband a a' :
  (forall j, a j = a' j) ->
  forall j, n2b_body sw vis nir iband a j = n2b_body sw vis nir iband a' j.
Proof.
  intros H. unfold n2b_body. do 6 apply upd_acc_ext. exact H.
Qed.

Lemma n2b_loop_ext sw vis nir k : forall iband a a',
  (forall j, a j = a' j) ->
  forall j, n2b_loop sw vis nir k iband a j = n2b_loop sw vis nir k iband a' j.
Proof.
  induction k as [|k IH]; intros iband a a' H; simpl; trivial.
  apply IH. now apply n2b_body_ext.
Qed.

Lemma n2b_sums_ext sw vis nir n a a' :
  (forall j, j < 12 \/ 17 < j -> a j = a' j) ->
  forall j, n2b_sums sw vis nir n a j = n2b_sums sw vis nir n a' j.
Proof.
  intros H. unfold n2b_sums. do 6 apply upd_add_ext.
  apply n2b_loop_ext. intros j. unfold upd.
  destruct (j =? 17) eqn:E17; [reflexivity|].
  destruct (j =? 16) eqn:E16; [reflexivity|].
  destruct (j =? 15) eqn:E15; [reflexivity|].
  destruct (j =? 14) eqn:E14; [reflexivity|].
  destruct (j =? 13) eqn:E13; [reflexivity|].
  destruct (j =? 12) eqn:E12; [reflexivity|].
  apply H. lia.
Qed.

Lemma lambert_loop_ext tbl s s' col i k :
  lndSR_ScaFct s' = lndSR_ScaFct s ->
  (forall b, OneRowlndSR s' b col = OneRowlndSR s b col) ->
  forall iband a a',
    (forall j, a j = a' j) ->
    forall j, lambert_loop tbl s col i k iband a j
              = lambert_loop tbl s' col i k iband a' j.
Proof.
  intros Hsf Hr. induction k as [|k IH]; intros iband a a' H; simpl; trivial.
  apply IH. rewrite Hsf, Hr. do 2 apply upd_add_ext. exact H.
Qed.

Lemma rescue_ext tbl col i m n :
  (forall j, lndPixAlbedo m j = lndPixAlbedo n j) ->
  lndSR_ScaFct (sensor n) = lndSR_ScaFct (sensor m) ->
  nbands (sensor n) = nbands (sensor m) ->
  (forall b, OneRowlndSR (sensor n) b col = OneRowlndSR (sensor m) b col) ->
  (forall j, lndPixAlbedo (rescue tbl col i m) j
             = lndPixAlbedo (rescue tbl col i n) j) /\
  ((QA (rescue tbl col i m) = 4 /\ QA (rescue tbl col i n) = 4) \/
   (QA (rescue tbl col i m) = QA m /\ QA (rescue tbl col i n) = QA n)).
Proof.
  intros Ha Hsf Hn Hr. unfold rescue, slot.
  rewrite <- (Ha i), <- (Ha (i + 1)).
  destruct (_ || _); [|auto]. cbn [lndPixAlbedo QA sensor]. split; [|auto].
  rewrite Hn. do 2 apply upd_add_ext.
  now apply lambert_loop_ext.
Qed.

Lemma broadband_ext sw vis nir col m n :
  (forall j, j < 12 \/ 17 < j -> lndPixAlbedo m j = lndPixAlbedo n j) ->
  lndSR_ScaFct (sensor n) = lndSR_ScaFct (sensor m) ->
  nbands (sensor n) = nbands (sensor m) ->
  (forall b, OneRowlndSR (sensor n) b col = OneRowlndSR (sensor m) b col) ->
  (forall j, lndPixAlbedo (broadband sw vis nir col m) j
             = lndPixAlbedo (broadband sw vis nir col n) j) /\
  ((QA (broadband sw vis nir col m) = 4 /\
    QA (broadband sw vis nir col n) = 4) \/
   (QA (broadband sw vis nir col m) = QA m /\
    QA (broadband sw vis nir col n) = QA n)).
Proof.
  intros Ha Hsf Hn Hr. unfold broadband.
  set (m0 := mkMachine (sensor m) _ (QA m)).
  set (n0 := mkMachine (sensor n) _ (QA n)).
  assert (H0 : forall j, lndPixAlbedo m0 j = lndPixAlbedo n0 j).
  { intros j. unfold m0, n0. cbn [lndPixAlbedo]. rewrite Hn.
    now apply n2b_sums_ext. }
  destruct (rescue_ext sw col 12 m0 n0 H0 Hsf Hn Hr) as (H1 & Q1).
  assert (Hs1m : sensor (rescue sw col 12 m0) = sensor m)
    by exact (rescue_sensor sw col 12 m0).
  assert (Hs1n : sensor (rescue sw col 12 n0) = sensor n)
    by exact (rescue_sensor sw col 12 n0).
  destruct (rescue_ext vis col 14 _ _ H1) as (H2 & Q2);
    [now rewrite Hs1m, Hs1n|now rewrite Hs1m, Hs1n|
     intros b; now rewrite Hs1m, Hs1n|].
  assert (Hs2m : sensor (rescue vis col 14 (rescue sw col 12 m0)) = sensor m)
    by (rewrite rescue_sensor; exact Hs1m).
  assert (Hs2n : sensor (rescue vis col 14 (rescue sw col 12 n0)) = sensor n)
    by (rewrite rescue_sensor; exact Hs1n).
  destruct (rescue_ext nir col 16 _ _ H2) as (H3 & Q3);
    [now rewrite Hs2m, Hs2n|now rewrite Hs2m, Hs2n|
     intros b; now rewrite Hs2m, Hs2n|].
  split; [exact H3|].
  destruct Q3 as [Q3|(Q3m & Q3n)]; [now left|].
  destruct Q2 as [(Q2m & Q2n)|(Q2m & Q2n)];
    [left; split; [now rewrite Q3m|now rewrite Q3n]|].
  destruct Q1 as [(Q1m & Q1n)|(Q1m & Q1n)];
    [left; split; [now rewrite Q3m, Q2m|now rewrite Q3n, Q2n]|].
  right. split; [now rewrite Q3m, Q2m, Q1m|now rewrite Q3n, Q2n, Q1n].
Qed.

Lemma QA_classify_twice t n qa :
  QA_classify t n (QA_classify t n qa) = QA_classify t n qa.
Proof.
  unfold QA_classify.
  destruct (tmpQA0 t =? n); trivial.
  destruct (tmpQA0 t + tmpQA1 t =? n); trivial.
  destruct (tmpQA2 t + tmpQA0 t + tmpQA1 t =? n); trivial.
  destruct (0 <? tmpQA3 t); trivial.
Qed.

(** The band loop of a second call, started from a machine [mR] that
    holds the sensor context the first call's loop ended with and its
    narrow-band slots. *)
Lemma second_loop col icls K s a qa E lE mR :
  band_loop col icls K 0 (mkMachine s a qa) (mkLocals tally0 0) = Next E lE ->
  sensor mR = sensor E ->
  (forall j, j < 12 -> lndPixAlbedo mR j = lndPixAlbedo E j) ->
  exists nF l2F,
    band_loop col icls K 0
              (mkMachine (sensor mR) (lndPixAlbedo mR) (QA mR))
              (mkLocals tally0 0) = Next nF l2F /\
    tally_rel lE l2F /\
    sensor_eqv (sensor E) (sensor nF) /\
    (forall j, j < 12 -> lndPixAlbedo nF j = lndPixAlbedo E j) /\
    (forall j, 12 <= j -> lndPixAlbedo nF j = lndPixAlbedo mR j) /\
    QA nF = QA mR.
Proof.
  intros Hl HsR HaR.
  destruct (band_loop_frame _ _ _ _ _ _ _ _ Hl) as (HK & HsE & _ & HrE & HaE).
  cbn [sensor lndPixAlbedo QA] in HsE, HrE, HaE.
  set (n0 := mkMachine (sensor mR) (lndPixAlbedo mR) (QA mR)).
  assert (Hrel : replay_rel col 0 E (mkMachine s a qa) n0).
  { unfold replay_rel, n0. cbn [sensor lndPixAlbedo QA].
    split; [|split; [|split; [|split]]].
    - exists (OneRowlndSR (sensor E)). now rewrite HsR.
    - intros b c Hbc. rewrite HsR.
      destruct (HrE b c) as [E0|(Hb & Hc & _)]; [exact E0|].
      destruct Hbc; [lia|contradiction].
    - intros b _. now rewrite HsR.
    - intros j Hj. rewrite HaR by lia. apply HaE. lia.
    - intros j Hj. apply HaR. lia. }
  destruct (band_loop_replay col icls E lE K 0 _ _ n0 _ Hl Hrel tally_rel_start)
    as (nF & l2F & Hl2 & ((R & HnF) & Hlow & Hhigh & Halow & Hahigh) & Htal).
  destruct (band_loop_frame _ _ _ _ _ _ _ _ Hl2) as (HK2 & _ & Hq2 & _ & Ha2).
  exists nF, l2F. split; [exact Hl2|]. split; [exact Htal|].
  split; [|split; [|split]].
  - split.
    + rewrite HnF. reflexivity.
    + intros b c.
      destruct (Z_lt_le_dec b (0 + Z.of_nat K)) as [Hb|Hb];
        [apply Hlow; auto|].
      destruct (Z.eq_dec c col) as [->|Hc]; [apply Hhigh; exact Hb|].
      apply Hlow; auto.
  - intros j Hj. destruct (Z_lt_le_dec j ((0 + Z.of_nat K) * 2)) as [Hlt|Hge].
    + now apply Halow.
    + apply Hahigh. lia.
  - intros j Hj. apply Ha2. right. lia.
  - exact Hq2.
Qed.

Lemma class_invalid_static s R icls :
  class_invalid (set_OneRowlndSR s R) icls = class_invalid s icls.
Proof. reflexivity. Qed.

Lemma CalculateAlbedo_stop s a row col qa snow_flag o :
  class_invalid s (Clsdata s col) = false ->
  band_loop col (Clsdata s col) (Z.to_nat (nbands s)) 0
            (mkMachine s a qa) (mkLocals tally0 0) = Stop o ->
  CalculateAlbedo s a row col qa snow_flag = o.
Proof. intros Hc Hl. unfold CalculateAlbedo. now rewrite Hc, Hl. Qed.

Lemma CalculateAlbedo_nodata s a row col qa snow_flag m l :
  class_invalid s (Clsdata s col) = false ->
  band_loop col (Clsdata s col) (Z.to_nat (nbands s)) 0
            (mkMachine s a qa) (mkLocals tally0 0) = Next m l ->
  lndSR_flag l <> 0 ->
  CalculateAlbedo s a row col qa snow_flag
  = Return FAILURE (mkMachine (sensor m) (lndPixAlbedo m) (-1)).
Proof.
  intros Hc Hl Hf. unfold CalculateAlbedo. rewrite Hc, Hl.
  apply Z.eqb_neq in Hf. now rewrite Hf.
Qed.

(** What a second call reads from a sensor context that differs from
    [s] in its reflectance raster only. *)
Lemma second_call_static s s' col :
  (exists R, s' = set_OneRowlndSR s R) ->
  Clsdata s' col = Clsdata s col /\
  nbands s' = nbands s /\
  instrument s' = instrument s /\
  class_invalid s' (Clsdata s' col) = class_invalid s (Clsdata s col).
Proof. intros (R & ->). repeat split. Qed.

(** C8.  Let the closest-class search not depend on the reflectance
    raster.  When a call returns, a second call on the sensor context,
    output vector and quality code the first call left, with the same
    row, column and snow flag, returns the same value and leaves the
    sensor context, every slot of the output vector and the quality
    code with the contents the first call left. *)
Theorem C8_second_call_gives_the_same s a row col qa snow_flag ret m1 :
  CalculateAlbedo s a row col qa snow_flag = Return ret m1 ->
  exists m2,
    CalculateAlbedo (sensor m1) (lndPixAlbedo m1) row col (QA m1) snow_flag
    = Return ret m2 /\
    machine_eqv m1 m2.
Proof.
  intros H.
  pose proof (CalculateAlbedo_path s a row col qa snow_flag) as P.
  rewrite H in P.
  inversion P as [Hc Ho|o Hc Hl Ho|E lE Hc Hl Hf Ho|E lE Hc Hl Hf Ho].
  - (* the class is not valid *)
    exists (mkMachine s a qa). split; [|apply machine_eqv_refl].
    cbn [sensor lndPixAlbedo QA]. unfold CalculateAlbedo. now rewrite Hc.
  - (* the first call left the band loop early *)
    subst o.
    destruct (band_loop_Stop _ _ _ _ _ _ _ Hl)
      as (j & mS & lS & Hj & Hlj & Hb & _).
    destruct (second_loop col _ j s a qa mS lS mS Hlj eq_refl
                          (fun _ _ => eq_refl))
      as (nF & l2F & Hl2 & _ & (HsF & HrF) & Halo & Hahi & Hq).
    destruct (band_body_replay_stop col _ _ mS lS ret m1 nF l2F Hb)
      as (-> & -> & Hb2); [eauto|].
    destruct (band_loop_frame _ _ _ _ _ _ _ _ Hlj) as (_ & HsS & _).
    cbn [sensor] in HsS.
    destruct (second_call_static s (sensor mS) col) as (Ecls & Enb & _ & Eci);
      [eauto|].
    exists nF. split.
    + apply CalculateAlbedo_stop; [now rewrite Eci|].
      rewrite Ecls, Enb.
      replace (Z.to_nat (nbands s))
        with (j + S (Z.to_nat (nbands s) - S j))%nat by lia.
      rewrite band_loop_split, Hl2. cbn [band_loop]. now rewrite Hb2.
    + split; [split; assumption|]. split; [|exact Hq].
      intros i. destruct (Z_lt_le_dec i 12); [now apply Halo|now apply Hahi].
  - (* a band had no data *)
    subst m1 ret.
    set (mR := mkMachine (sensor E) (lndPixAlbedo E) (-1)) in *.
    destruct (second_loop col _ _ s a qa E lE mR Hl eq_refl
                          (fun _ _ => eq_refl))
      as (nF & l2F & Hl2 & (Hfl & _) & (HsF & HrF) & Halo & Hahi & Hq).
    destruct (band_loop_frame _ _ _ _ _ _ _ _ Hl) as (_ & HsE & _).
    cbn [sensor] in HsE.
    destruct (second_call_static s (sensor mR) col) as (Ecls & Enb & _ & Eci);
      [unfold mR; cbn [sensor]; eauto|].
    exists (mkMachine (sensor nF) (lndPixAlbedo nF) (-1)). split.
    + apply (CalculateAlbedo_nodata _ _ _ _ _ _ nF l2F);
        [now rewrite Eci| |congruence].
      rewrite Ecls, Enb. exact Hl2.
    + split; [split; assumption|]. split; [|reflexivity].
      intros i. cbn [lndPixAlbedo].
      destruct (Z_lt_le_dec i 12); [now apply Halo|now apply Hahi].
  - (* the first call succeeded *)
    subst m1 ret.
    set (sw := select_sw (instrument s) snow_flag) in *.
    set (vis := select_vis (instrument s) snow_flag) in *.
    set (nir := select_nir (instrument s) snow_flag) in *.
    set (mA := mkMachine (sensor E) (lndPixAlbedo E)
                         (QA_classify (tmpQA lE) (nbands (sensor E)) (QA E))) in *.
    set (mR := broadband sw vis nir col mA) in *.
    assert (HsR : sensor mR = sensor E)
      by exact (broadband_sensor sw vis nir col mA).
    assert (HaR : forall j, j < 12 \/ 17 < j ->
                            lndPixAlbedo mR j = lndPixAlbedo E j)
      by (intros j Hj; exact (broadband_low sw vis nir col mA j Hj)).
    destruct (second_loop col _ _ s a qa E lE mR Hl HsR
                          (fun j Hj => HaR j (or_introl Hj)))
      as (nF & l2F & Hl2 & (Hfl & _ & Htq) & (HsF & HrF) & Halo & Hahi & Hq).
    destruct (band_loop_frame _ _ _ _ _ _ _ _ Hl) as (_ & HsE & _).
    cbn [sensor] in HsE.
    destruct (second_call_static s (sensor mR) col)
      as (Ecls & Enb & Einst & Eci); [rewrite HsR; eauto|].
    assert (EnbE : nbands (sensor E) = nbands s) by (rewrite HsE; reflexivity).
    set (nA := mkMachine (sensor nF) (lndPixAlbedo nF)
                         (QA_classify (tmpQA l2F) (nbands (sensor mR)) (QA mR))).
    exists (broadband sw vis nir col nA). split.
    + rewrite (CalculateAlbedo_success (sensor mR) (lndPixAlbedo mR) row col
                 (QA mR) snow_flag nF l2F).
      * unfold sw, vis, nir. now rewrite Einst.
      * now rewrite Eci.
      * rewrite Ecls, Enb. exact Hl2.
      * congruence.
    + destruct (broadband_ext sw vis nir col mA nA) as (Hslots & HQA).
      * intros j Hj. unfold mA, nA. cbn [lndPixAlbedo].
        destruct Hj as [Hj|Hj]; [symmetry; now apply Halo|].
        rewrite Hahi by lia. symmetry. apply HaR. now right.
      * unfold mA, nA. cbn [sensor]. rewrite HsF. reflexivity.
      * unfold mA, nA. cbn [sensor]. rewrite HsF. reflexivity.
      * intros b. unfold mA, nA. cbn [sensor]. apply HrF.
      * split; [|split].
        -- rewrite broadband_sensor, HsR. unfold nA. cbn [sensor].
           split; assumption.
        -- intros j. symmetry. apply Hslots.
        -- fold mR in HQA. destruct HQA as [(Q1 & Q2)|(Q1 & Q2)];
             [congruence|].
           rewrite Q2. unfold nA. cbn [QA].
           rewrite (Htq Hf), Enb, Q1. unfold mA. cbn [QA].
           rewrite EnbE. apply QA_classify_twice.
Qed.

End Replay.

(** A second call on a pixel whose reflectance the first call clamped
    from -5 to 0. *)
Lemma C8_second_call_gives_the_same_witness :
  exists m1 m2,
    CalculateAlbedo (hdr := sample_h)
      (sample_sensor 20 weights_plain (fun _ => -5)) zero_vector 0 0 7 0
    = Return 0 m1 /\
    CalculateAlbedo (hdr := sample_h)
      (sensor m1) (lndPixAlbedo m1) 0 0 (QA m1) 0
    = Return 0 m2 /\
    machine_eqv m1 m2.
Proof.
  assert (H1 : exists m1,
             CalculateAlbedo (hdr := sample_h)
               (sample_sensor 20 weights_plain (fun _ => -5))
               zero_vector 0 0 7 0
             = Return 0 m1) by (vm_compute; eauto).
  destruct H1 as (m1 & H1).
  destruct (C8_second_call_gives_the_same (hdr := sample_h)
              (fun _ _ _ _ => eq_refl) _ _ _ _ _ _ _ _ H1) as (m2 & H2 & He).
  exists m1, m2. auto.
Defined.

(** * Further properties of [CalculateAlbedo] *)

(** ** Ways the call ends without a result *)

Section Endings.
Context {hdr : lndsr_albedo_h}.

(** X1.  A class index that is the class fill value, above the class count
    or negative makes the call return FAILURE before anything is
    written: the sensor context, the output vector and the quality
    code are the caller's. *)
Theorem invalid_class_returns_untouched s a row col qa snow_flag :
  Clsdata s col = Cls_fillValue s \/ actu_ncls s < Clsdata s col
  \/ Clsdata s col < 0 ->
  CalculateAlbedo s a row col qa snow_flag
  = Return FAILURE (mkMachine s a qa).
Proof.
  intros H. unfold CalculateAlbedo.
  assert (E : class_invalid s (Clsdata s col) = true).
  { unfold class_invalid. apply orb_true_iff.
    destruct H as [H|[H|H]].
    - left. apply orb_true_iff. left. now apply Z.eqb_eq.
    - left. apply orb_true_iff. right. now apply Z.ltb_lt.
    - right. now apply Z.ltb_lt. }
  now rewrite E.
Qed.

(** X2.  When the call reaches band [j] in machine state [m1], the band has
    data and a first rounded weight other than zero, and the ratio
    function reports anything but SUCCESS, the process exits with
    status 1 in state [m1]: nothing is returned, the quality code is
    the caller's, and the slots and reflectances of band [j] and above
    are as before the call. *)
Theorem ratio_failure_exits
        s a row col qa snow_flag (j : nat) m1 l1 TM_Indx BRDFcls t b0 b1 b2 :
  class_invalid s (Clsdata s col) = false ->
  (j < Z.to_nat (nbands s))%nat ->
  band_loop col (Clsdata s col) j 0 (mkMachine s a qa) (mkLocals tally0 0)
  = Next m1 l1 ->
  local_at TMBandIndx (Z.of_nat j) = Some TM_Indx ->
  resolve_class (sensor m1) (Clsdata s col) TM_Indx (tmpQA l1)
  = Some (BRDFcls, t) ->
  round_BRDF (sensor m1) BRDFcls TM_Indx = Some (b0, b1, b2) ->
  OneRowlndSR (sensor m1) (Z.of_nat j) col <> SR_fillValue (sensor m1) ->
  b0 <> 0 ->
  fst (fst (CalculateANratio (b0, b1, b2) (SZA (sensor m1)) (SAA (sensor m1))
                             (pix_VZA (sensor m1)) (pix_VAA (sensor m1))))
  <> SUCCESS ->
  CalculateAlbedo s a row col qa snow_flag = Exit 1 m1 /\
  QA m1 = qa /\
  (forall i, Z.of_nat j * 2 <= i -> lndPixAlbedo m1 i = a i) /\
  (forall b c, Z.of_nat j <= b -> OneRowlndSR (sensor m1) b c = OneRowlndSR s b c).
Proof.
  intros Hc Hj Hl Hi Hr Hro Hdata Hb0 Hs.
  assert (Hb : band_body col (Clsdata s col) (Z.of_nat j) m1 l1
               = Stop (Exit 1 m1)).
  { unfold band_body. rewrite Hi, Hr, Hro. unfold anisotropic_block.
    apply Z.eqb_neq in Hdata, Hb0. rewrite Hdata, Hb0. cbn [negb andb].
    destruct (CalculateANratio _ _ _ _ _) as [[status wsa] bsa].
    simpl in Hs. apply Z.eqb_neq in Hs. now rewrite Hs. }
  split.
  - unfold CalculateAlbedo. rewrite Hc.
    replace (Z.to_nat (nbands s)) with (j + S (Z.to_nat (nbands s) - S j))%nat by lia.
    rewrite band_loop_split, Hl. cbn [band_loop Z.add]. now rewrite Hb.
  - apply band_loop_frame in Hl. destruct Hl as (_ & _ & Hq & Hr' & Ha).
    simpl in *. repeat split; trivial.
    + intros i Hi'. apply Ha. lia.
    + intros b c Hb'. destruct (Hr' b c) as [E|(Hlt & _)]; [trivial|lia].
Qed.

End Endings.

Lemma invalid_class_returns_untouched_witness :
  CalculateAlbedo (hdr := sample_h)
    (sample_scene 5 (-9999) 255 20 weights_plain (fun _ => 100))
    zero_vector 0 0 7 0
  = Return 1
      (mkMachine (sample_scene 5 (-9999) 255 20 weights_plain (fun _ => 100))
                 zero_vector 7).
Proof.
  apply (invalid_class_returns_untouched (hdr := sample_h)).
  left. reflexivity.
Defined.

Lemma ratio_failure_exits_witness :
  CalculateAlbedo (hdr := failing_h)
    (sample_sensor 20 weights_plain (fun _ => 100)) zero_vector 0 0 7 0
  = Exit 1 (mkMachine (sample_sensor 20 weights_plain (fun _ => 100))
                      zero_vector 7).
Proof.
  assert (Hc : resolve_class (hdr := failing_h)
                 (sample_sensor 20 weights_plain (fun _ => 100)) 1 2 tally0
               = Some (1, incr0 tally0)) by reflexivity.
  assert (Hfill : (100 : Z) <> -9999) by lia.
  assert (Hb0 : (100 : Z) <> 0) by lia.
  assert (Hs : (1 : Z) <> 0) by lia.
  assert (Hj : (0 < Z.to_nat 6)%nat) by (simpl; lia).
  destruct (ratio_failure_exits (hdr := failing_h)
              (sample_sensor 20 weights_plain (fun _ => 100)) zero_vector
              0 0 7 0 0 _ _ 2 1 _ 100 20 5
              eq_refl Hj eq_refl eq_refl Hc eq_refl Hfill Hb0 Hs) as [H _].
  exact H.
Defined.

(** ** What a call may leave in the output vector and the quality code *)

Lemma QA_classify_range t n qa :
  QA_classify t n qa = qa \/ 0 <= QA_classify t n qa <= 3.
Proof.
  unfold QA_classify.
  destruct (tmpQA0 t =? n); [right; lia|].
  destruct (tmpQA0 t + tmpQA1 t =? n); [right; lia|].
  destruct (tmpQA2 t + tmpQA0 t + tmpQA1 t =? n); [right; lia|].
  destruct (0 <? tmpQA3 t); [right; lia|now left].
Qed.

Section Footprint.
Context {hdr : lndsr_albedo_h}.

(** X3.  However a call ends, it writes no slot of the output vector other
    than the narrow-band slots of the active bands and the six
    broadband slots: every slot below 0, from [2 * nbands] to 11, and
    above 17 holds what the caller put there. *)
Theorem output_vector_footprint s a row col qa snow_flag :
  match CalculateAlbedo s a row col qa snow_flag with
  | Return _ m' | Exit _ m' =>
    forall j, j < 0 \/ (2 * nbands s <= j /\ 0 <= j < 12) \/ 17 < j ->
              lndPixAlbedo m' j = a j
  | Undefined => True
  end.
Proof.
  assert (Hloop : forall (k : nat) m l,
             (k <= Z.to_nat (nbands s))%nat ->
             band_loop col (Clsdata s col) k 0 (mkMachine s a qa)
                       (mkLocals tally0 0) = Next m l ->
             forall j, j < 0 \/ (2 * nbands s <= j /\ 0 <= j < 12) \/ 17 < j ->
                       lndPixAlbedo m j = a j).
  { intros k m l Hk Hl j Hj.
    apply band_loop_frame in Hl. destruct Hl as (Hk6 & _ & _ & _ & Ha).
    simpl in Ha. apply Ha. lia. }
  destruct (CalculateAlbedo_path s a row col qa snow_flag)
    as [Hc|o Hc Hl|m l Hc Hl Hf|m l Hc Hl Hf].
  - trivial.
  - apply band_loop_Stop in Hl.
    destruct Hl as (j0 & m1 & l1 & Hj0 & Hl & _ & Ho).
    assert (H := Hloop j0 m1 l1 ltac:(lia) Hl).
    destruct Ho as [->|[->| ->]]; trivial.
  - exact (Hloop _ m l (le_n _) Hl).
  - intros j Hj. rewrite broadband_low by lia. simpl.
    exact (Hloop _ m l (le_n _) Hl j Hj).
Qed.

(** X4.  The quality code after a call: an exit leaves the caller's value;
    a return leaves the caller's value, the sentinel -1 or a code from
    0 to 4. *)
Theorem quality_code_range s a row col qa snow_flag :
  match CalculateAlbedo s a row col qa snow_flag with
  | Return _ m' => QA m' = qa \/ QA m' = -1 \/ 0 <= QA m' <= 4
  | Exit _ m' => QA m' = qa
  | Undefined => True
  end.
Proof.
  destruct (CalculateAlbedo_path s a row col qa snow_flag)
    as [Hc|o Hc Hl|m l Hc Hl Hf|m l Hc Hl Hf].
  - now left.
  - apply band_loop_Stop in Hl.
    destruct Hl as (j0 & m1 & l1 & Hj0 & Hl & _ & Ho).
    apply band_loop_frame in Hl. destruct Hl as (_ & _ & Hq & _).
    simpl in Hq. destruct Ho as [->|[->| ->]]; auto.
  - right. now left.
  - apply band_loop_frame in Hl. destruct Hl as (_ & _ & Hq & _).
    simpl in Hq.
    match goal with
    | |- context [broadband ?sw ?vis ?nir col ?m0] =>
      destruct (broadband_QA sw vis nir col m0) as [E|E]; rewrite E
    end.
    + simpl. rewrite Hq.
      destruct (QA_classify_range (tmpQA l) (nbands (sensor m)) qa) as [E'|E'];
        [left; exact E'|right; right; lia].
    + right. right. lia.
Qed.

End Footprint.

(** ** When the call succeeds *)

Section Success.
Context {hdr : lndsr_albedo_h}.

(** A pass counts the band as without data exactly when the raster
    holds the fill value for it after the pass. *)
Lemma band_body_flag_post col icls i m l m' l' :
  band_body col icls i m l = Next m' l' ->
  lndSR_flag l'
  = lndSR_flag l
    + (if OneRowlndSR (sensor m') i col =? SR_fillValue (sensor m')
       then 1 else 0).
Proof.
  intros H. apply band_body_Next in H.
  destruct H as (idx & cls & t & tmp & m1 & l1 & l2 & _ & _ & _ & Ha & Hb & ->).
  apply anisotropic_block_flag in Ha. destruct Ha as (Ha & _).
  apply isotropic_block_flag in Hb. destruct Hb as (Hb & _).
  simpl in Ha. unfold nodata_block.
  destruct (_ =? _); simpl; lia.
Qed.

Lemma band_loop_flag_post col icls k : forall i m l m' l',
  band_loop col icls k i m l = Next m' l' ->
  (lndSR_flag l' = lndSR_flag l <->
   forall b, i <= b < i + Z.of_nat k ->
             OneRowlndSR (sensor m') b col <> SR_fillValue (sensor m')).
Proof.
  induction k as [|k IH]; intros i m l m' l' H.
  - simpl in H. inversion H; subst. split; [intros _ b Hb; lia|reflexivity].
  - cbn [band_loop] in H.
    destruct (band_body col icls i m l) as [m1 l1|] eqn:Hb; [|discriminate].
    pose proof (band_body_flag_post _ _ _ _ _ _ _ Hb) as Hpost.
    destruct (band_loop_flag _ _ _ _ _ _ _ _ H) as (Hmono & _).
    destruct (band_loop_frame _ _ _ _ _ _ _ _ H) as (_ & Hs & _ & Hr & _).
    assert (Hfv : SR_fillValue (sensor m') = SR_fillValue (sensor m1))
      by (rewrite Hs; reflexivity).
    assert (Hri : OneRowlndSR (sensor m') i col = OneRowlndSR (sensor m1) i col).
    { destruct (Hr i col) as [E|(Hlt & _)]; [exact E|lia]. }
    specialize (IH _ _ _ _ _ H). rewrite <- Hfv, <- Hri in Hpost.
    split.
    + intros Heq b Hb'.
      destruct (OneRowlndSR (sensor m') i col =? SR_fillValue (sensor m')) eqn:E;
        [lia|].
      destruct (Z.eq_dec b i) as [->|Hne]; [now apply Z.eqb_neq|].
      apply IH; lia.
    + intros Hall.
      assert (E : (OneRowlndSR (sensor m') i col =? SR_fillValue (sensor m')) = false)
        by (apply Z.eqb_neq; apply Hall; lia).
      rewrite E in Hpost.
      assert (lndSR_flag l' = lndSR_flag l1); [|lia].
      apply IH. intros b Hb'. apply Hall. lia.
Qed.

(** X5.  For a valid class and a band loop that runs to its end in machine
    state [m], what decides between success and the no-data failure is
    the raster as the loop left it: the call succeeds when no active
    band holds the fill value there, and returns FAILURE with quality
    code -1 when one does, be it a value the caller supplied or one
    the clamp produced. *)
Theorem success_decided_by_final_raster s a row col qa snow_flag m l :
  class_invalid s (Clsdata s col) = false ->
  band_loop col (Clsdata s col) (Z.to_nat (nbands s)) 0
            (mkMachine s a qa) (mkLocals tally0 0) = Next m l ->
  ((forall b, 0 <= b < nbands s ->
              OneRowlndSR (sensor m) b col <> SR_fillValue s) ->
   CalculateAlbedo s a row col qa snow_flag
   = Return SUCCESS
       (broadband (select_sw (instrument s) snow_flag)
                  (select_vis (instrument s) snow_flag)
                  (select_nir (instrument s) snow_flag) col
                  (mkMachine (sensor m) (lndPixAlbedo m)
                             (QA_classify (tmpQA l) (nbands s) qa)))) /\
  ((exists b, 0 <= b < nbands s /\
              OneRowlndSR (sensor m) b col = SR_fillValue s) ->
   CalculateAlbedo s a row col qa snow_flag
   = Return FAILURE (mkMachine (sensor m) (lndPixAlbedo m) (-1))).
Proof.
  intros Hc Hl.
  pose proof (band_loop_flag_post _ _ _ _ _ _ _ _ Hl) as Hpost.
  destruct (band_loop_frame _ _ _ _ _ _ _ _ Hl) as (_ & Hs & _).
  assert (Hfv : SR_fillValue (sensor m) = SR_fillValue s)
    by (rewrite Hs; reflexivity).
  rewrite Hfv in Hpost. cbn [lndSR_flag] in Hpost. split.
  - intros Hall. apply CalculateAlbedo_success; trivial.
    apply Hpost. intros b Hb. apply Hall. lia.
  - intros (b & Hb & Hfill).
    unfold CalculateAlbedo. rewrite Hc, Hl.
    assert (Hne : lndSR_flag l <> 0).
    { intros Hz. apply (proj1 Hpost Hz b); [lia|exact Hfill]. }
    apply Z.eqb_neq in Hne. now rewrite Hne.
Qed.

(** X6.  With distinct status codes, a call that returns SUCCESS had a valid
    class index and at most six active bands, none of which held the
    fill value before the call or holds it after. *)
Theorem success_requires s a row col qa snow_flag m' :
  SUCCESS <> FAILURE ->
  CalculateAlbedo s a row col qa snow_flag = Return SUCCESS m' ->
  class_invalid s (Clsdata s col) = false /\
  nbands s <= 6 /\
  forall b, 0 <= b < nbands s ->
            OneRowlndSR s b col <> SR_fillValue s /\
            OneRowlndSR (sensor m') b col <> SR_fillValue s.
Proof.
  intros Hcodes H.
  pose proof (CalculateAlbedo_path s a row col qa snow_flag) as P.
  rewrite H in P.
  inversion P as [Hc Ho|o Hc Hl Ho|m l Hc Hl Hf Ho|m l Hc Hl Hf Ho].
  - congruence.
  - subst o. apply band_loop_Stop in Hl.
    destruct Hl as (j & m1 & l1 & _ & _ & _ & [Ho|[Ho|Ho]]);
      inversion Ho. congruence.
  - congruence.
  - split; [exact Hc|].
    destruct (band_loop_frame _ _ _ _ _ _ _ _ Hl) as (Hk & Hs & _).
    split; [lia|]. intros b Hb.
    assert (Hfv : SR_fillValue (sensor m) = SR_fillValue s)
      by (rewrite Hs; reflexivity).
    split.
    + intros Hfill. apply band_loop_flag in Hl. destruct Hl as (_ & Hl).
      specialize (Hl b). cbn [sensor lndSR_flag] in Hl.
      assert (0 < lndSR_flag l); [apply Hl; [lia|exact Hfill]|lia].
    + rewrite broadband_sensor. cbn [sensor]. rewrite <- Hfv.
      apply (proj1 (band_loop_flag_post _ _ _ _ _ _ _ _ Hl)); [exact Hf|lia].
Qed.

End Success.

(** A negative reflectance under a fill value of 0: the clamp turns it
    into the fill value and the call fails for want of data. *)
Lemma success_decided_by_final_raster_witness :
  OneRowlndSR (sample_scene 5 0 1 20 weights_plain (fun _ => -5)) 0 0
  <> SR_fillValue (sample_scene 5 0 1 20 weights_plain (fun _ => -5)) /\
  exists m,
    CalculateAlbedo (hdr := sample_h)
      (sample_scene 5 0 1 20 weights_plain (fun _ => -5)) zero_vector 0 0 7 0
    = Return 1 (mkMachine (sensor m) (lndPixAlbedo m) (-1)).
Proof.
  split; [simpl; lia|].
  pose (s := sample_scene 5 0 1 20 weights_plain (fun _ => -5)).
  assert (Hl : exists m l,
             band_loop (hdr := sample_h) 0 (Clsdata s 0)
                       (Z.to_nat (nbands s)) 0
                       (mkMachine s zero_vector 7) (mkLocals tally0 0)
             = Next m l /\ OneRowlndSR (sensor m) 0 0 = SR_fillValue s)
    by (vm_compute; eauto).
  destruct Hl as (m & l & Hl & Hfill).
  exists m.
  destruct (success_decided_by_final_raster (hdr := sample_h) s zero_vector
              0 0 7 0 m l eq_refl Hl) as [_ H].
  apply H. exists 0. split; [simpl; lia|exact Hfill].
Defined.

Lemma success_requires_witness :
  nbands (sample_sensor 20 weights_plain (fun _ => 100)) <= 6 /\
  OneRowlndSR (sample_sensor 20 weights_plain (fun _ => 100)) 0 0
  <> SR_fillValue (sample_sensor 20 weights_plain (fun _ => 100)).
Proof.
  assert (H1 : exists m1,
             CalculateAlbedo (hdr := sample_h)
               (sample_sensor 20 weights_plain (fun _ => 100))
               zero_vector 0 0 7 0
             = Return 0 m1) by (vm_compute; eauto).
  destruct H1 as (m1 & H1).
  assert (Hcodes : @SUCCESS sample_h <> @FAILURE sample_h) by (simpl; lia).
  destruct (success_requires (hdr := sample_h) _ _ _ _ _ _ _ Hcodes H1)
    as (_ & Hn & Hb).
  split; [exact Hn|]. apply (Hb 0). simpl. lia.
Defined.

(** ** The broadband stage *)








Section Regression.
Context {hdr : lndsr_albedo_h}.


End Regression.


(** ** The tallies *)

Section Tallies.
Context {hdr : lndsr_albedo_h}.

(** A class with its own parameters adds at most one to the purity
    tallies, and nothing when its purity count is below the
    threshold. *)
Lemma purity_tally_delta s icls t :
  let t' := purity_tally s icls t in
  tmpQA2 t' = tmpQA2 t /\ tmpQA3 t' = tmpQA3 t /\
  tmpQA4 t' = tmpQA4 t /\ tmpQA5 t' = tmpQA5 t /\
  0 <= tmpQA0 t' - tmpQA0 t /\ 0 <= tmpQA1 t' - tmpQA1 t /\
  (tmpQA0 t' - tmpQA0 t) + (tmpQA1 t' - tmpQA1 t) <= 1 /\
  ((pure_thrsh s icls < PUREPIX_thredhold * HIS_BIN)%Q ->
   tmpQA0 t' = tmpQA0 t /\ tmpQA1 t' = tmpQA1 t).
Proof.
  cbv zeta. unfold purity_tally.
  destruct (Qlt_bool (PUREPIX_thredhold * HIS_BIN) (pure_thrsh s icls)) eqn:E1;
    destruct (Qeq_bool (pure_thrsh s icls) (PUREPIX_thredhold * HIS_BIN)) eqn:E2.
  - exfalso. apply Qlt_bool_iff in E1. apply Qeq_bool_iff in E2.
    rewrite E2 in E1. exact (Qlt_irrefl _ E1).
  - simpl. do 7 (split; [lia|]). intros H. exfalso.
    apply Qlt_bool_iff in E1. exact (Qlt_irrefl _ (Qlt_trans _ _ _ E1 H)).
  - simpl. do 7 (split; [lia|]). intros H. exfalso.
    apply Qeq_bool_iff in E2. rewrite E2 in H. exact (Qlt_irrefl _ H).
  - simpl. do 7 (split; [lia|]). intros _. split; reflexivity.
Qed.

Lemma resolve_class_delta s icls TM_Indx t cls t' :
  resolve_class s icls TM_Indx t = Some (cls, t') ->
  tmpQA3 t' = tmpQA3 t /\ tmpQA4 t' = tmpQA4 t /\ tmpQA5 t' = tmpQA5 t /\
  0 <= tmpQA0 t' - tmpQA0 t /\ 0 <= tmpQA1 t' - tmpQA1 t /\
  0 <= tmpQA2 t' - tmpQA2 t /\
  brdf_tally t' - brdf_tally t <= 1 /\
  (BRDFava_flg s icls TM_Indx = 0 ->
   (pure_thrsh s icls < PUREPIX_thredhold * HIS_BIN)%Q ->
   brdf_tally t' = brdf_tally t).
Proof.
  unfold resolve_class, brdf_tally.
  destruct (BRDFava_flg s icls TM_Indx =? 0) eqn:Ef.
  - intros H. injection H as Hcls Ht. subst cls t'.
    destruct (purity_tally_delta s icls t)
      as (H2 & H3 & H4 & H5 & H0 & H1 & Hsum & Hlow).
    repeat split; try lia. intros _ Hp. destruct (Hlow Hp). lia.
  - destruct (getClosestCls s icls TM_Indx =? -1); [discriminate|].
    intros H; inversion H; subst. simpl.
    apply Z.eqb_neq in Ef. repeat split; lia.
Qed.

Lemma anisotropic_block_tally col i tmp m l m' l' :
  anisotropic_block col i tmp m l = Next m' l' ->
  tmpQA l' = tmpQA l \/ tmpQA l' = incr3 (tmpQA l).
Proof.
  unfold anisotropic_block. destruct tmp as [[b0 b1] b2].
  destruct (negb _ && negb _); [|intros H; inversion H; auto].
  destruct (CalculateANratio _ _ _ _ _) as [[status wsa] bsa].
  destruct (negb (status =? SUCCESS)); [discriminate|].
  destruct (clamp_lndSR _ _) as [r|]; [|discriminate].
  destruct (narrow_pair _ _ _ _) as [[a0 a1] [|]];
    intros H; inversion H; subst; simpl; auto.
Qed.

Lemma isotropic_nodata_tally col i tmp m l m' l' :
  isotropic_block col i tmp m l = (m', l') ->
  let l'' := nodata_block col i m' l' in
  lndSR_flag l' = lndSR_flag l /\
  ((tmpQA l'' = tmpQA l /\ lndSR_flag l'' = lndSR_flag l) \/
   (tmpQA l'' = incr4 (tmpQA l) /\ lndSR_flag l'' = lndSR_flag l) \/
   (tmpQA l'' = incr5 (tmpQA l) /\ lndSR_flag l'' = lndSR_flag l + 1)).
Proof.
  unfold isotropic_block, nodata_block. destruct tmp as [[b0 b1] b2].
  destruct (OneRowlndSR (sensor m) i col =? SR_fillValue (sensor m)) eqn:E.
  - rewrite andb_false_r. intros H; inversion H; subst. rewrite E.
    simpl. auto.
  - destruct (b0 =? 0); simpl; intros H; inversion H; subst; simpl;
      rewrite E; simpl; auto.
Qed.

(** One pass moves the tallies by at most one step, and counts a band
    without data in the tally and in the flag alike. *)
Lemma band_body_tally col icls i m l m' l' :
  band_body col icls i m l = Next m' l' ->
  tally_within 1 (tmpQA l) (tmpQA l') /\
  lndSR_flag l' - lndSR_flag l = tmpQA5 (tmpQA l') - tmpQA5 (tmpQA l) /\
  (forall TM_Indx,
      local_at TMBandIndx i = Some TM_Indx ->
      BRDFava_flg (sensor m) icls TM_Indx = 0 ->
      (pure_thrsh (sensor m) icls < PUREPIX_thredhold * HIS_BIN)%Q ->
      brdf_tally (tmpQA l') = brdf_tally (tmpQA l)).
Proof.
  intros H. apply band_body_Next in H.
  destruct H as (idx & cls & t & tmp & m1 & l1 & l2 & Hi & Hc & _ & Ha & Hb & ->).
  apply resolve_class_delta in Hc.
  destruct Hc as (C3 & C4 & C5 & C0 & C1 & C2 & Csum & Clow).
  destruct (anisotropic_block_flag _ _ _ _ _ _ _ Ha) as (Hfl1 & _).
  apply anisotropic_block_tally in Ha. cbn [tmpQA lndSR_flag] in Ha, Hfl1.
  destruct (isotropic_nodata_tally _ _ _ _ _ _ _ Hb) as (_ & Hn).
  cbv zeta in Hn. unfold tally_within, brdf_tally in *.
  split; [|split].
  - destruct Ha as [Ha|Ha];
      destruct Hn as [(Hn & _)|[(Hn & _)|(Hn & _)]];
      rewrite Hn, Ha; simpl; lia.
  - destruct Ha as [Ha|Ha];
      destruct Hn as [(Hn & Hf)|[(Hn & Hf)|(Hn & Hf)]];
      rewrite Hn, Hf, Ha; simpl; lia.
  - intros idx' Hi' Hflg Hp. rewrite Hi in Hi'. injection Hi' as <-.
    specialize (Clow Hflg Hp).
    destruct Ha as [Ha|Ha];
      destruct Hn as [(Hn & _)|[(Hn & _)|(Hn & _)]];
      rewrite Hn, Ha; simpl; lia.
Qed.

Lemma tally_within_trans j k t1 t2 t3 :
  tally_within j t1 t2 -> tally_within k t2 t3 -> tally_within (j + k) t1 t3.
Proof. unfold tally_within, brdf_tally. intros H1 H2. lia. Qed.

Lemma band_loop_tally col icls k : forall i m l m' l',
  band_loop col icls k i m l = Next m' l' ->
  tally_within (Z.of_nat k) (tmpQA l) (tmpQA l') /\
  lndSR_flag l' - lndSR_flag l = tmpQA5 (tmpQA l') - tmpQA5 (tmpQA l) /\
  (forall b TM_Indx,
      i <= b < i + Z.of_nat k ->
      local_at TMBandIndx b = Some TM_Indx ->
      BRDFava_flg (sensor m) icls TM_Indx = 0 ->
      (pure_thrsh (sensor m) icls < PUREPIX_thredhold * HIS_BIN)%Q ->
      brdf_tally (tmpQA l') - brdf_tally (tmpQA l) <= Z.of_nat k - 1).
Proof.
  induction k as [|k IH]; intros i m l m' l' H.
  - simpl in H. inversion H; subst. split; [|split].
    + unfold tally_within, brdf_tally. lia.
    + lia.
    + intros b idx Hb. lia.
  - cbn [band_loop] in H.
    destruct (band_body col icls i m l) as [m1 l1|] eqn:Hb; [|discriminate].
    destruct (band_body_tally _ _ _ _ _ _ _ Hb) as (T1 & F1 & L1).
    destruct (band_body_frame _ _ _ _ _ _ _ Hb) as (_ & Hs1 & _).
    destruct (IH _ _ _ _ _ H) as (T2 & F2 & L2).
    split; [|split].
    + replace (Z.of_nat (S k)) with (1 + Z.of_nat k) by lia.
      eapply tally_within_trans; eauto.
    + lia.
    + intros b idx Hb' Hloc Hflg Hp.
      unfold tally_within in T1, T2.
      destruct (Z.eq_dec b i) as [->|Hne].
      * specialize (L1 idx Hloc Hflg Hp). lia.
      * assert (brdf_tally (tmpQA l') - brdf_tally (tmpQA l1) <= Z.of_nat k - 1);
          [|lia].
        apply (L2 b idx); [lia|exact Hloc| |]; rewrite Hs1; assumption.
Qed.

(** X9.  After any number of passes from the start of the loop, no tally is
    negative or above the number of bands gone through, which is at
    most six, so the 16-bit counters of the source cannot overflow;
    the three BRDF tallies together, and the isotropic and no-data
    tallies together, do not exceed that number either; and the
    no-data flag equals the no-data tally. *)
Theorem tallies_bounded s a col qa (k : nat) m l :
  band_loop col (Clsdata s col) k 0 (mkMachine s a qa) (mkLocals tally0 0)
  = Next m l ->
  let t := tmpQA l in
  Z.of_nat k <= 6 /\
  0 <= tmpQA0 t <= Z.of_nat k /\ 0 <= tmpQA1 t <= Z.of_nat k /\
  0 <= tmpQA2 t <= Z.of_nat k /\ 0 <= tmpQA3 t <= Z.of_nat k /\
  0 <= tmpQA4 t <= Z.of_nat k /\ 0 <= tmpQA5 t <= Z.of_nat k /\
  brdf_tally t <= Z.of_nat k /\
  tmpQA4 t + tmpQA5 t <= Z.of_nat k /\
  lndSR_flag l = tmpQA5 t.
Proof.
  intros H. cbv zeta.
  destruct (band_loop_frame _ _ _ _ _ _ _ _ H) as (Hk & _).
  destruct (band_loop_tally _ _ _ _ _ _ _ _ H) as (T & F & _).
  unfold tally_within, brdf_tally in *. simpl in T, F. lia.
Qed.

(** X10.  The gap in the classifier.  Let the class be valid, the band loop
    run to its end with no band without data, the class count fewer
    pure pixels than the threshold, and the class have BRDF parameters
    of its own at some active band.  Then none of the first three
    rules applies: the code handed to the broadband stage is 3 when
    some band took the Lambertian replacement and the caller's
    previous value otherwise. *)
Theorem low_purity_leaves_code_unset
        s a row col qa snow_flag m l b TM_Indx :
  class_invalid s (Clsdata s col) = false ->
  band_loop col (Clsdata s col) (Z.to_nat (nbands s)) 0
            (mkMachine s a qa) (mkLocals tally0 0) = Next m l ->
  lndSR_flag l = 0 ->
  (pure_thrsh s (Clsdata s col) < PUREPIX_thredhold * HIS_BIN)%Q ->
  0 <= b < nbands s ->
  local_at TMBandIndx b = Some TM_Indx ->
  BRDFava_flg s (Clsdata s col) TM_Indx = 0 ->
  CalculateAlbedo s a row col qa snow_flag
  = Return SUCCESS
      (broadband (select_sw (instrument s) snow_flag)
                 (select_vis (instrument s) snow_flag)
                 (select_nir (instrument s) snow_flag) col
                 (mkMachine (sensor m) (lndPixAlbedo m)
                            (if 0 <? tmpQA3 (tmpQA l) then 3 else qa))).
Proof.
  intros Hc Hl Hf Hp Hb Hloc Hflg.
  rewrite (CalculateAlbedo_success s a row col qa snow_flag m l Hc Hl Hf).
  destruct (band_loop_tally _ _ _ _ _ _ _ _ Hl) as (T & _ & L).
  specialize (L b TM_Indx). cbn [sensor tmpQA] in L, T.
  assert (Hlt : brdf_tally (tmpQA l) < nbands s).
  { assert (brdf_tally (tmpQA l) - brdf_tally tally0
            <= Z.of_nat (Z.to_nat (nbands s)) - 1)
      by (apply L; trivial; lia).
    unfold brdf_tally in *. simpl in *. lia. }
  unfold tally_within, brdf_tally in *. simpl in T.
  unfold QA_classify.
  assert (E0 : (tmpQA0 (tmpQA l) =? nbands s) = false)
    by (apply Z.eqb_neq; lia).
  assert (E1 : (tmpQA0 (tmpQA l) + tmpQA1 (tmpQA l) =? nbands s) = false)
    by (apply Z.eqb_neq; lia).
  assert (E2 : (tmpQA2 (tmpQA l) + tmpQA0 (tmpQA l) + tmpQA1 (tmpQA l)
                =? nbands s) = false)
    by (apply Z.eqb_neq; lia).
  now rewrite E0, E1, E2.
Qed.

End Tallies.

Lemma tallies_bounded_witness :
  exists m l,
    band_loop (hdr := sample_h) 0 1 6 0
      (mkMachine (sample_sensor 20 weights_plain
                                (fun b => if b =? 0 then -9999 else 100))
                 zero_vector 7)
      (mkLocals tally0 0) = Next m l /\
    lndSR_flag l = tmpQA5 (tmpQA l) /\
    tmpQA4 (tmpQA l) + tmpQA5 (tmpQA l) <= 6.
Proof.
  pose (s := sample_sensor 20 weights_plain
                           (fun b => if b =? 0 then -9999 else 100)).
  assert (Hl : exists m l,
             band_loop (hdr := sample_h) 0 (Clsdata s 0) 6 0
               (mkMachine s zero_vector 7) (mkLocals tally0 0)
             = Next m l) by (vm_compute; eauto).
  destruct Hl as (m & l & Hl).
  exists m, l.
  destruct (tallies_bounded (hdr := sample_h) s zero_vector 0 7 6 m l Hl)
    as (_ & _ & _ & _ & _ & _ & _ & _ & H45 & H5).
  split; [exact Hl|]. split; [exact H5 | exact H45].
Defined.

Lemma low_purity_leaves_code_unset_witness :
  exists m',
    CalculateAlbedo (hdr := sample_h)
      (sample_sensor 10 weights_plain (fun _ => 100)) zero_vector 0 0 7 0
    = Return 0 m' /\ QA m' = 7.
Proof.
  pose (s := sample_sensor 10 weights_plain (fun _ => 100)).
  assert (Hl : band_loop (hdr := sample_h) 0 (Clsdata s 0)
                         (Z.to_nat (nbands s)) 0
                         (mkMachine s zero_vector 7) (mkLocals tally0 0)
               = Next _ _) by (vm_compute; reflexivity).
  match type of Hl with
  | _ = Next ?m0 ?l0 => set (m := m0) in *; set (l := l0) in *
  end.
  assert (Hf : lndSR_flag l = 0) by (vm_compute; reflexivity).
  assert (Hc : class_invalid s (Clsdata s 0) = false) by reflexivity.
  assert (Hp : (pure_thrsh s (Clsdata s 0)
                < @PUREPIX_thredhold sample_h * @HIS_BIN sample_h)%Q)
    by (vm_compute; reflexivity).
  assert (Hb : 0 <= 0 < nbands s) by (simpl; lia).
  assert (Hloc : local_at TMBandIndx 0 = Some 2) by reflexivity.
  assert (Hflg : BRDFava_flg s (Clsdata s 0) 2 = 0) by reflexivity.
  assert (Hq : QA (broadband (select_sw (hdr := sample_h) (instrument s) 0)
                             (select_vis (instrument s) 0)
                             (select_nir (instrument s) 0) 0
                             (mkMachine (sensor m) (lndPixAlbedo m)
                                (if 0 <? tmpQA3 (tmpQA l) then 3 else 7)))
               = 7) by (vm_compute; reflexivity).
  eexists. split; [|exact Hq].
  exact (low_purity_leaves_code_unset (hdr := sample_h)
           s zero_vector 0 0 7 0 m l 0 2 Hc Hl Hf Hp Hb Hloc Hflg).
Defined.

(** ** What the snow flag reaches *)

Lemma agree_off_sw_refl a : agree_off_sw a a.
Proof. intros j _ _. reflexivity. Qed.

Lemma upd_acc_agree a a' i c c' k :
  agree_off_sw a a' ->
  (i <> 12 -> i <> 13 -> c = c' /\ k <> 12 /\ k <> 13) ->
  agree_off_sw (upd a i (slot a i + c * slot a k)%Q)
               (upd a' i (slot a' i + c' * slot a' k)%Q).
Proof.
  intros H Hi j J12 J13. unfold upd.
  destruct (j =? i) eqn:E; [|now apply H].
  apply Z.eqb_eq in E. subst j.
  destruct (Hi J12 J13) as (-> & K12 & K13).
  unfold slot. now rewrite (H i J12 J13), (H k K12 K13).
Qed.

Lemma upd_add_agree a a' i d d' :
  agree_off_sw a a' ->
  (i <> 12 -> i <> 13 -> d = d') ->
  agree_off_sw (upd a i (slot a i + d)%Q) (upd a' i (slot a' i + d')%Q).
Proof.
  intros H Hi j J12 J13. unfold upd.
  destruct (j =? i) eqn:E; [|now apply H].
  apply Z.eqb_eq in E. subst j.
  unfold slot. now rewrite (H i J12 J13), (Hi J12 J13).
Qed.

Lemma n2b_body_agree sw sw' vis nir iband a a' :
  0 <= iband < 6 -> agree_off_sw a a' ->
  agree_off_sw (n2b_body sw vis nir iband a) (n2b_body sw' vis nir iband a').
Proof.
  intros Hi H. unfold n2b_body. cbv zeta.
  do 6 (apply upd_acc_agree; [|intros; repeat split; lia]).
  exact H.
Qed.

Lemma n2b_loop_agree sw sw' vis nir k : forall iband a a',
  0 <= iband -> iband + Z.of_nat k <= 6 -> agree_off_sw a a' ->
  agree_off_sw (n2b_loop sw vis nir k iband a)
               (n2b_loop sw' vis nir k iband a').
Proof.
  induction k as [|k IH]; intros iband a a' Hi Hk H; simpl; trivial.
  apply IH; try lia. apply n2b_body_agree; trivial. lia.
Qed.

Lemma n2b_sums_agree sw sw' vis nir n a :
  n <= 6 ->
  agree_off_sw (n2b_sums sw vis nir n a) (n2b_sums sw' vis nir n a).
Proof.
  intros Hn. unfold n2b_sums. cbv zeta.
  do 6 (apply upd_add_agree; [|intros; reflexivity || lia]).
  apply n2b_loop_agree; try lia. apply agree_off_sw_refl.
Qed.

Lemma lambert_loop_agree tbl s col i k :
  i <> 12 -> i <> 13 -> i + 1 <> 12 -> i + 1 <> 13 ->
  forall iband a a',
    agree_off_sw a a' ->
    agree_off_sw (lambert_loop tbl s col i k iband a)
                 (lambert_loop tbl s col i k iband a').
Proof.
  intros I0 I1 I2 I3.
  induction k as [|k IH]; intros iband a a' H; simpl; trivial.
  apply IH. do 2 (apply upd_add_agree; [|reflexivity]). exact H.
Qed.

(** The shortwave rescue writes nothing but its own two slots. *)
Lemma rescue_sw_agree tbl tbl' col m n :
  agree_off_sw (lndPixAlbedo m) (lndPixAlbedo n) ->
  agree_off_sw (lndPixAlbedo (rescue tbl col 12 m))
               (lndPixAlbedo (rescue tbl' col 12 n)).
Proof.
  intros H j J12 J13.
  rewrite !rescue_low by lia. now apply H.
Qed.

(** A rescue of another product reads and writes its own two slots
    only, so it fires on both vectors or on neither. *)
Lemma rescue_other_agree tbl col i m n :
  i <> 12 -> i <> 13 -> i + 1 <> 12 -> i + 1 <> 13 ->
  sensor m = sensor n ->
  agree_off_sw (lndPixAlbedo m) (lndPixAlbedo n) ->
  agree_off_sw (lndPixAlbedo (rescue tbl col i m))
               (lndPixAlbedo (rescue tbl col i n)) /\
  ((QA (rescue tbl col i m) = 4 /\ QA (rescue tbl col i n) = 4) \/
   (QA (rescue tbl col i m) = QA m /\ QA (rescue tbl col i n) = QA n)).
Proof.
  intros I0 I1 I2 I3 Hs H. unfold rescue, slot.
  rewrite <- (H i I0 I1), <- (H (i + 1) I2 I3), <- Hs.
  destruct (_ || _); cbn [lndPixAlbedo QA]; [|auto].
  split; [|auto].
  do 2 (apply upd_add_agree; [|reflexivity]).
  now apply lambert_loop_agree.
Qed.

Lemma broadband_agree sw sw' vis nir col m :
  nbands (sensor m) <= 6 ->
  let m1 := broadband sw vis nir col m in
  let m2 := broadband sw' vis nir col m in
  sensor m1 = sensor m2 /\
  agree_off_sw (lndPixAlbedo m1) (lndPixAlbedo m2) /\
  (QA m1 = QA m2 \/ QA m1 = 4 \/ QA m2 = 4).
Proof.
  intros Hn. cbv zeta. split; [now rewrite !broadband_sensor|].
  unfold broadband.
  set (n1 := mkMachine _ (n2b_sums sw _ _ _ _) _).
  set (n2 := mkMachine _ (n2b_sums sw' _ _ _ _) _).
  assert (A0 : agree_off_sw (lndPixAlbedo n1) (lndPixAlbedo n2))
    by (apply n2b_sums_agree; exact Hn).
  pose proof (rescue_sw_agree sw sw' col n1 n2 A0) as A1.
  assert (S1 : sensor (rescue sw col 12 n1) = sensor (rescue sw' col 12 n2))
    by (now rewrite !rescue_sensor).
  destruct (rescue_other_agree vis col 14 _ _ ltac:(lia) ltac:(lia)
              ltac:(lia) ltac:(lia) S1 A1) as (A2 & Q2).
  assert (S2 : sensor (rescue vis col 14 (rescue sw col 12 n1))
               = sensor (rescue vis col 14 (rescue sw' col 12 n2)))
    by (now rewrite !rescue_sensor).
  destruct (rescue_other_agree nir col 16 _ _ ltac:(lia) ltac:(lia)
              ltac:(lia) ltac:(lia) S2 A2) as (A3 & Q3).
  split; [exact A3|].
  destruct Q3 as [(E1 & E2)|(E1 & E2)]; [left; congruence|].
  rewrite E1, E2.
  destruct Q2 as [(F1 & F2)|(F1 & F2)]; [left; congruence|].
  rewrite F1, F2.
  destruct (rescue_QA sw col 12 n1) as [G1|G1];
    destruct (rescue_QA sw' col 12 n2) as [G2|G2]; auto.
  left. rewrite G1, G2. reflexivity.
Qed.

Section Snow.
Context {hdr : lndsr_albedo_h}.

(** X11.  The snow flag reaches the shortwave product only.  Two calls that
    differ in nothing but the snow flag end the same way with the same
    status and the same sensor context; their output vectors agree in
    every slot other than 12 and 13, so the visible and near-infrared
    products are the same; and their quality codes are equal unless
    one of the calls took a rescue and set its code to 4. *)
Theorem snow_flag_reach s a row col qa (f1 f2 : Z) :
  match CalculateAlbedo s a row col qa f1,
        CalculateAlbedo s a row col qa f2 with
  | Return r1 m1, Return r2 m2 =>
      r1 = r2 /\ sensor m1 = sensor m2 /\
      (forall j, j <> 12 -> j <> 13 -> lndPixAlbedo m1 j = lndPixAlbedo m2 j) /\
      (QA m1 = QA m2 \/ QA m1 = 4 \/ QA m2 = 4)
  | Exit e1 m1, Exit e2 m2 => e1 = e2 /\ m1 = m2
  | Undefined, Undefined => True
  | _, _ => False
  end.
Proof.
  unfold CalculateAlbedo, select_vis, select_nir.
  destruct (class_invalid s (Clsdata s col)); [auto 6|].
  destruct (band_loop _ _ _ _ _ _) as [m l|o] eqn:Hl;
    [|destruct o; auto 6].
  destruct (negb (lndSR_flag l =? 0)); [auto 6|].
  destruct (band_loop_frame _ _ _ _ _ _ _ _ Hl) as (Hk & Hs & _).
  cbn [sensor] in Hs.
  assert (Hn : nbands (sensor m) <= 6) by (rewrite Hs; simpl; lia).
  split; [reflexivity|].
  apply (broadband_agree (select_sw (instrument s) f1)
                         (select_sw (instrument s) f2)
                         TM_coefficents_vis TM_coefficents_nir col
                         (mkMachine (sensor m) (lndPixAlbedo m)
                            (QA_classify (tmpQA l) (nbands (sensor m)) (QA m)))).
  exact Hn.
Qed.

(** X12.  Where the snow flag is not looked at.  For an instrument that is
    neither the operational land imager nor the multispectral imager,
    and for two snow flags that are both zero or both nonzero, the
    whole call is the same. *)
Theorem snow_flag_ignored s a row col qa (f1 f2 : Z) :
  (instrument s <> _OLI_ /\ instrument s <> MSI) \/ (f1 = 0 <-> f2 = 0) ->
  CalculateAlbedo s a row col qa f1 = CalculateAlbedo s a row col qa f2.
Proof.
  intros H.
  assert (E : select_sw (instrument s) f1 = select_sw (instrument s) f2).
  { unfold select_sw. destruct H as [(H1 & H2)|H].
    - apply Z.eqb_neq in H1, H2. now rewrite H1, H2.
    - assert (E0 : (f1 =? 0) = (f2 =? 0)).
      { destruct (Z.eqb_spec f1 0), (Z.eqb_spec f2 0); trivial;
          exfalso; tauto. }
      now rewrite E0. }
  unfold CalculateAlbedo, select_vis, select_nir. now rewrite E.
Qed.

End Snow.

Lemma snow_flag_ignored_witness :
  CalculateAlbedo (hdr := sample_h)
    (sample_sensor 20 weights_plain (fun _ => 100)) zero_vector 0 0 7 0
  = CalculateAlbedo (hdr := sample_h)
      (sample_sensor 20 weights_plain (fun _ => 100)) zero_vector 0 0 7 1
  /\
  CalculateAlbedo (hdr := sample_h)
    (sample_scene 8 (-9999) 1 20 weights_plain (fun _ => 100))
    zero_vector 0 0 7 1
  = CalculateAlbedo (hdr := sample_h)
      (sample_scene 8 (-9999) 1 20 weights_plain (fun _ => 100))
      zero_vector 0 0 7 2.
Proof.
  split.
  - apply (snow_flag_ignored (hdr := sample_h)). left. simpl. lia.
  - apply (snow_flag_ignored (hdr := sample_h)). right. lia.
Defined.

(** ** The clamp of the reflectance *)

(** X13.  With a positive scale factor and a reflectance no higher than the
    top of the 16-bit range, the clamp is defined: the narrowing
    conversion of the cap cannot leave the range.  The value written
    is between 0 and that top, below [1.2 / sf], and is left as it is
    by a second clamp. *)
Theorem clamp_stays_in_range sf r :
  (0 < sf)%Q -> r <= INT16_MAX ->
  exists r', clamp_lndSR sf r = Some r' /\
             0 <= r' <= INT16_MAX /\
             (inject_Z r' < 1.2 / sf)%Q /\
             clamp_lndSR sf r' = Some r'.
Proof.
  intros Hs Hr.
  destruct (clamp_lndSR_int16 sf r Hs Hr) as (r' & Hc & Hb & Hlt).
  exists r'. repeat split; trivial; try lia.
  now apply (clamp_lndSR_idempotent sf r).
Qed.

Lemma clamp_stays_in_range_witness :
  exists r', clamp_lndSR 0.0001 20000 = Some r' /\ 0 <= r' <= INT16_MAX.
Proof.
  destruct (clamp_stays_in_range 0.0001 20000) as (r' & Hc & Hb & _).
  - reflexivity.
  - unfold INT16_MAX. lia.
  - exists r'. split; assumption.
Defined.

(** X14.  Scale factors that are not positive.  With a scale factor of zero
    the quotient compared with is infinite, the cap never applies and
    the clamp only replaces a negative value by 0.  With a negative
    scale factor the cap applies to every value: each band with data
    has its reflectance replaced by the truncation of the quotient
    0.99 / scale factor as the code computes it in double arithmetic,
    which is not positive. *)
Theorem clamp_degenerate_scale sf r :
  (sf <= 0)%Q ->
  ((sf == 0)%Q /\ clamp_lndSR sf r = Some (Z.max r 0)) \/
  ((sf < 0)%Q /\ clamp_lndSR sf r = cast_int16_double (quot 0.99 sf) /\
   forall r', clamp_lndSR sf r = Some r' -> r' <= 0).
Proof.
  intros Hs. destruct (Qle_lt_or_eq _ _ Hs) as [Hneg|Hz].
  - right. split; [exact Hneg|]. now apply clamp_lndSR_neg.
  - left. split; [exact Hz|]. now apply clamp_lndSR_zero.
Qed.

(** At the scale factor -0.00004 every reflectance is replaced by
    -24749; the exact quotient is -24750. *)
Lemma clamp_degenerate_scale_witness :
  clamp_lndSR 0 (-7) = Some 0 /\
  clamp_lndSR (-0.00004) 5000 = Some (-24749) /\
  (0.99 / -0.00004 == -24750)%Q.
Proof.
  assert (H0 : (0 <= 0)%Q) by (unfold Qle; simpl; lia).
  assert (H1 : (-0.00004 <= 0)%Q) by (unfold Qle; simpl; lia).
  split; [|split; [|reflexivity]].
  - destruct (clamp_degenerate_scale 0 (-7) H0) as [(_ & H)|(Hlt & _)].
    + exact H.
    + discriminate Hlt.
  - destruct (clamp_degenerate_scale (-0.00004) 5000 H1)
      as [(Heq & _)|(_ & H & _)].
    + discriminate Heq.
    + rewrite H. vm_compute. reflexivity.
Defined.
